(** * A limit order book matching engine: shallow embedding and properties

    The development follows the C++ sources of the simulator:
    - [Side.h], [OrderId.h], [Price.h], [Order.h], [Events.h], [Config.h]
      for the data model,
    - [BookLevel.h] for the FIFO price level,
    - [LimitBook.h] / [LimitBook.cpp] for the book and the matching loop,
    - [RingBuffer.h] for the bounded single-producer/single-consumer channel,
    - [MatchingEngine.h] / [MatchingEngine.cpp] for the engine facade,
    - [MultiSymbolEngine] for one engine per symbol on a shared clock,
    - [MarketDataReplay] for the replay of recorded messages,
    - [Pool.h] and [TimeSource.h] for the object pool and the clocks.

    Unsigned 64-bit quantities are integers of [Z] with the wrap-around of
    every arithmetic operation written out ([u64]).  The two [std::map]s of
    the book are association lists kept in the iteration order of the map
    (so that [begin()] is the head of the list); the [std::unordered_map]
    order index is a [gmap]. *)

From Stdlib Require Import ZArith Lia QArith Qround Sorted Lqa Floats.SpecFloat.
From stdpp Require Import gmap list strings.

Local Open Scope Z_scope.

(** ** Machine integers *)

(** [uint64_t] / [size_t] arithmetic on a 64-bit target wraps modulo [2^64]. *)
Definition u64 (z : Z) : Z := z mod 2 ^ 64.

Definition u64_range (z : Z) : Prop := 0 <= z < 2 ^ 64.

(** ** Side.h *)

Inductive Side : Set := Buy | Sell.

Definition opposite (s : Side) : Side :=
  match s with Buy => Sell | Sell => Buy end.

Global Instance Side_eq_dec : EqDecision Side := ltac:(solve_decision).

(** ** OrderId.h, Price.h *)

(** [OrderId] is [uint64_t]; a [Price] is its [int64_t] tick count. *)
Definition INVALID_ORDER_ID : Z := 0.
Definition INVALID_PRICE : Z := -1.

(** ** Order.h *)

Inductive OrderType : Set := Limit | Market | IOC | FOK.

Global Instance OrderType_eq_dec : EqDecision OrderType :=
  ltac:(solve_decision).

Inductive PegType : Set := PegNone | PegMid | PegBestBid | PegBestAsk.

Record Order : Set := mkOrder {
  order_id : Z;
  order_side : Side;
  order_price : Z;
  order_qty : Z;
  order_ts : Z;
  order_type : OrderType;
  display_qty : Z;
  refresh_qty : Z;
  peg_type : PegType;
  offset : Z
}.

Definition is_market (o : Order) : bool := bool_decide (order_type o = Market).
Definition is_limit (o : Order) : bool := bool_decide (order_type o = Limit).
Definition is_ioc (o : Order) : bool := bool_decide (order_type o = IOC).
Definition is_fok (o : Order) : bool := bool_decide (order_type o = FOK).

(** The six-argument constructor of [Order]: the iceberg and peg fields take
    their defaults. *)
Definition Order_make (i : Z) (s : Side) (p q t : Z) (ty : OrderType) : Order :=
  mkOrder i s p q t ty 0 0 PegNone 0.

(** Field updates of the working copy of an order. *)
Definition with_qty (o : Order) (q : Z) : Order :=
  mkOrder (order_id o) (order_side o) (order_price o) q (order_ts o)
          (order_type o) (display_qty o) (refresh_qty o) (peg_type o) (offset o).
Definition with_price (o : Order) (p : Z) : Order :=
  mkOrder (order_id o) (order_side o) p (order_qty o) (order_ts o)
          (order_type o) (display_qty o) (refresh_qty o) (peg_type o) (offset o).
Definition with_ts (o : Order) (t : Z) : Order :=
  mkOrder (order_id o) (order_side o) (order_price o) (order_qty o) t
          (order_type o) (display_qty o) (refresh_qty o) (peg_type o) (offset o).

(** An order as the C++ types allow it: unsigned 64-bit id and quantity,
    signed 64-bit price. *)
Definition order_wf (o : Order) : Prop :=
  u64_range (order_id o) /\ u64_range (order_qty o) /\
  - 2 ^ 63 <= order_price o < 2 ^ 63.

(** ** Events.h *)

Record TradeEvent : Set := mkTrade {
  taker_id : Z;
  maker_id : Z;
  trade_price : Z;
  trade_qty : Z;
  trade_ts : Z
}.

Record AcceptEvent : Set := mkAccept { accept_id : Z; accept_ts : Z }.

Record RejectEvent : Set := mkReject {
  reject_id : Z; reject_ts : Z; reason_code : Z
}.

Record CancelEvent : Set := mkCancel {
  cancel_id : Z; cancel_remaining : Z; cancel_ts : Z
}.

Record ReplaceEvent : Set := mkReplace {
  replace_id : Z; replace_new_price : Z; replace_new_qty : Z; replace_ts : Z
}.

Record BookTop : Set := mkTop {
  best_bid : Z; bid_qty : Z; best_ask : Z; ask_qty : Z; top_ts : Z
}.

(** [std::variant<TradeEvent, AcceptEvent, RejectEvent, CancelEvent,
    ReplaceEvent, BookTop>] *)
Inductive EngineEvent : Set :=
| EvTrade (e : TradeEvent)
| EvAccept (e : AcceptEvent)
| EvReject (e : RejectEvent)
| EvCancel (e : CancelEvent)
| EvReplace (e : ReplaceEvent)
| EvTop (e : BookTop).

(** A default-constructed variant holds its first alternative. *)
Definition EngineEvent_default : EngineEvent := EvTrade (mkTrade 0 0 0 0 0).

(** ** TimeSource.h *)

(** The abstract clock: reading it may move its state (a real clock), or not
    (the simulated one). *)
Class TimeSource (T : Type) := { now_ns : T -> Z * T }.

(** [SimulatedTimeSource]: the state is [current_ns_]; reading leaves it
    alone. *)
Definition SimulatedTimeSource_now (current_ns_ : Z) : Z * Z :=
  (current_ns_, current_ns_).

Global Instance SimulatedTimeSource : TimeSource Z :=
  {| now_ns := SimulatedTimeSource_now |}.

(** ** BookLevel.h *)

Record BookOrder : Set := mkBookOrder {
  order : Order;
  remaining_qty : Z
}.

(** [explicit BookOrder(const Order& o)] *)
Definition BookOrder_of (o : Order) : BookOrder := mkBookOrder o (order_qty o).

Record BookLevel : Set := mkLevel {
  orders_ : list BookOrder;
  total_qty_ : Z
}.

Definition BookLevel_default : BookLevel := mkLevel [] 0.

Definition add_order (bo : BookOrder) (l : BookLevel) : BookLevel :=
  mkLevel (orders_ l ++ [bo]) (u64 (total_qty_ l + remaining_qty bo)).

Definition front (l : BookLevel) : option BookOrder := head (orders_ l).

Definition pop_front (l : BookLevel) : BookLevel :=
  match orders_ l with
  | [] => l
  | f :: q => mkLevel q (u64 (total_qty_ l - remaining_qty f))
  end.

(** The list walk of [remove_order]: the queue without the first slot whose
    id is [i], together with that slot's remaining quantity. *)
Fixpoint remove_first (i : Z) (q : list BookOrder) : option (list BookOrder * Z) :=
  match q with
  | [] => None
  | s :: q' =>
      if decide (order_id (order s) = i) then Some (q', remaining_qty s)
      else match remove_first i q' with
           | Some (q'', r) => Some (s :: q'', r)
           | None => None
           end
  end.

(** [remove_order]: [None] is the [false] return (level and [removed_qty]
    untouched). *)
Definition remove_order (i : Z) (l : BookLevel) : option (BookLevel * Z) :=
  match remove_first i (orders_ l) with
  | Some (q, removed_qty) => Some (mkLevel q (u64 (total_qty_ l - removed_qty)), removed_qty)
  | None => None
  end.

Definition find_order (i : Z) (l : BookLevel) : option BookOrder :=
  find (fun s => bool_decide (order_id (order s) = i)) (orders_ l).

Definition update_front_qty (new_qty : Z) (l : BookLevel) : BookLevel :=
  match orders_ l with
  | [] => l
  | f :: q =>
      let old_qty := remaining_qty f in
      mkLevel (mkBookOrder (order f) new_qty :: q)
              (u64 (u64 (total_qty_ l - old_qty) + new_qty))
  end.

Definition level_empty (l : BookLevel) : bool :=
  match orders_ l with [] => true | _ => false end.

Definition level_size (l : BookLevel) : nat := length (orders_ l).

(** A write to [remaining_qty] through the pointer that [front()] returned:
    the slot changes inside the queue, [total_qty_] is not touched. *)
Definition write_front_remaining (r : Z) (l : BookLevel) : BookLevel :=
  match orders_ l with
  | [] => l
  | f :: q => mkLevel (mkBookOrder (order f) r :: q) (total_qty_ l)
  end.

(** ** The ordered price maps of LimitBook.h *)

(** A [std::map<Price, BookLevel, Compare>] in iteration order.  [before] is
    the comparator: [Z.gtb] for [bids_] (descending), [Z.ltb] for [asks_]
    (ascending). *)

Fixpoint map_find (p : Z) (m : list (Z * BookLevel)) : option BookLevel :=
  match m with
  | [] => None
  | (k, l) :: m' => if decide (k = p) then Some l else map_find p m'
  end.

Fixpoint map_erase (p : Z) (m : list (Z * BookLevel)) : list (Z * BookLevel) :=
  match m with
  | [] => []
  | (k, l) :: m' => if decide (k = p) then m' else (k, l) :: map_erase p m'
  end.

(** Assignment through an iterator or reference to the level at key [p]. *)
Fixpoint map_store (p : Z) (v : BookLevel) (m : list (Z * BookLevel))
  : list (Z * BookLevel) :=
  match m with
  | [] => []
  | (k, l) :: m' =>
      if decide (k = p) then (k, v) :: m' else (k, l) :: map_store p v m'
  end.

(** [operator[]]: the map with a default level inserted at [p] when the key
    is absent. *)
Fixpoint map_subscript (before : Z -> Z -> bool) (p : Z) (m : list (Z * BookLevel))
  : list (Z * BookLevel) :=
  match m with
  | [] => [(p, BookLevel_default)]
  | (k, l) :: m' =>
      if decide (k = p) then m
      else if before p k then (p, BookLevel_default) :: m
      else (k, l) :: map_subscript before p m'
  end.

(** [operator[]] followed by a write through the reference it returns, as
    one pass over the map ([map_subscript_upsert] relates the two). *)
Fixpoint map_upsert (before : Z -> Z -> bool) (p : Z) (f : BookLevel -> BookLevel)
    (m : list (Z * BookLevel)) : list (Z * BookLevel) :=
  match m with
  | [] => [(p, f BookLevel_default)]
  | (k, l) :: m' =>
      if decide (k = p) then (k, f l) :: m'
      else if before p k then (p, f BookLevel_default) :: m
      else (k, l) :: map_upsert before p f m'
  end.

(** ** LimitBook.h *)

Record OrderLocation : Set := mkLoc { loc_side : Side; loc_price : Z }.

(** The book's state: the two price maps and the order index.  Of the
    other members, [tick_size_] is never read by the operations modelled
    here, and the shared [time_source_] is the clock state that every
    operation takes and returns. *)
Record LimitBook : Type := mkBook {
  bids_ : list (Z * BookLevel);
  asks_ : list (Z * BookLevel);
  order_index_ : gmap Z OrderLocation
}.

Definition LimitBook_new : LimitBook := mkBook [] [] ∅.

Definition total_orders (b : LimitBook) : nat := size (order_index_ b).

Definition side_levels (s : Side) (b : LimitBook) : list (Z * BookLevel) :=
  match s with Buy => bids_ b | Sell => asks_ b end.

Definition side_before (s : Side) : Z -> Z -> bool :=
  match s with Buy => Z.gtb | Sell => Z.ltb end.

Definition with_side_levels (s : Side) (m : list (Z * BookLevel)) (b : LimitBook)
  : LimitBook :=
  match s with
  | Buy => mkBook m (asks_ b) (order_index_ b)
  | Sell => mkBook (bids_ b) m (order_index_ b)
  end.

Definition with_index (ix : gmap Z OrderLocation) (b : LimitBook) : LimitBook :=
  mkBook (bids_ b) (asks_ b) ix.

(** ** LimitBook.cpp *)

Section LimitBook.

Context {T : Type} `{TimeSource T}.

(** *** match_order *)

(** The variables one iteration of the matching loop reads and writes: the
    taker's open quantity, the opposite side's map, the order index, the
    trades pushed so far and the clock. *)
Record MatchState : Type := mkMatch {
  ms_qty : Z;
  ms_levels : list (Z * BookLevel);
  ms_index : gmap Z OrderLocation;
  ms_trades : list TradeEvent;
  ms_clock : T
}.

(** The price test that breaks the loop: "price too high" for a buy taker,
    "price too low" for a sell taker. *)
Definition price_breaks (s : Side) (best_price limit : Z) : bool :=
  match s with
  | Buy => limit <? best_price
  | Sell => best_price <? limit
  end.

(** One iteration of the [while] loop; [None] when the loop exits (by its
    condition or by a [break]).  [maker_order] is the pointer [front()]
    returned, so [maker_order->remaining_qty -= fill_qty] writes into the
    queue ([level1]) before [pop_front] or [update_front_qty] read the
    front slot. *)
Definition match_step (o : Order) (st : MatchState) : option MatchState :=
  if negb (0 <? ms_qty st) then None
  else
    match ms_levels st with
    | [] => None
    | (best_price, level) :: rest =>
        if negb (is_market o) && price_breaks (order_side o) best_price (order_price o)
        then None
        else
          match front level with
          | None => None
          | Some maker_order =>
              let fill_qty := Z.min (ms_qty st) (remaining_qty maker_order) in
              let '(now, clk) := now_ns (ms_clock st) in
              let trade :=
                mkTrade (order_id o) (order_id (order maker_order))
                        best_price fill_qty now in
              let qty' := u64 (ms_qty st - fill_qty) in
              let rem' := u64 (remaining_qty maker_order - fill_qty) in
              let level1 := write_front_remaining rem' level in
              if rem' =? 0 then
                let filled_id := order_id (order maker_order) in
                let level2 := pop_front level1 in
                let index' := delete filled_id (ms_index st) in
                let levels' :=
                  if level_empty level2 then rest
                  else (best_price, level2) :: rest in
                Some (mkMatch qty' levels' index' (ms_trades st ++ [trade]) clk)
              else
                let level2 := update_front_qty rem' level1 in
                Some (mkMatch qty' ((best_price, level2) :: rest) (ms_index st)
                              (ms_trades st ++ [trade]) clk)
          end
    end.

Fixpoint match_loop (fuel : nat) (o : Order) (st : MatchState) : MatchState :=
  match fuel with
  | O => st
  | S fuel' =>
      match match_step o st with
      | None => st
      | Some st' => match_loop fuel' o st'
      end
  end.

Definition slot_count (m : list (Z * BookLevel)) : nat :=
  sum_list (map (fun kl => length (orders_ (snd kl))) m).

(** [match_order(order, out_trades)]: the buy branch walks [asks_], the sell
    branch walks [bids_].  The result carries the order with its quantity
    reduced, the book, the trades appended to [out_trades], and the clock.
    The loop is run for two more rounds than there are resting slots on the
    opposite side, which is enough for it to exit ([match_loop_exits]). *)
Definition match_order (o : Order) (b : LimitBook) (clk : T)
  : Order * LimitBook * list TradeEvent * T :=
  let opp := opposite (order_side o) in
  let st0 := mkMatch (order_qty o) (side_levels opp b) (order_index_ b) [] clk in
  let st := match_loop (S (S (slot_count (side_levels opp b)))) o st0 in
  (with_qty o (ms_qty st),
   with_index (ms_index st) (with_side_levels opp (ms_levels st) b),
   ms_trades st, ms_clock st).

(** The state in which [match_order] leaves its loop. *)
Definition match_final (o : Order) (b : LimitBook) (clk : T) : MatchState :=
  match_loop (S (S (slot_count (side_levels (opposite (order_side o)) b)))) o
    (mkMatch (order_qty o) (side_levels (opposite (order_side o)) b)
             (order_index_ b) [] clk).

(** What an iteration that does not exit has read and written
    ([match_step_facts]). *)
Variant step_facts (o : Order) (st st' : MatchState) : Prop :=
| StepFacts (best_price : Z) (level : BookLevel) (rest : list (Z * BookLevel))
    (maker : BookOrder) (queue : list BookOrder) (now : Z) :
    let fill := Z.min (ms_qty st) (remaining_qty maker) in
    let rem := u64 (remaining_qty maker - fill) in
    let trade :=
      mkTrade (order_id o) (order_id (order maker)) best_price fill now in
    0 < ms_qty st ->
    ms_levels st = (best_price, level) :: rest ->
    orders_ level = maker :: queue ->
    (is_market o = false ->
     price_breaks (order_side o) best_price (order_price o) = false) ->
    now_ns (ms_clock st) = (now, ms_clock st') ->
    ms_qty st' = u64 (ms_qty st - fill) ->
    ms_trades st' = ms_trades st ++ [trade] ->
    ((rem = 0 /\
      ms_index st' = delete (order_id (order maker)) (ms_index st) /\
      ms_levels st' =
        match queue with
        | [] => rest
        | _ => (best_price, mkLevel queue (u64 (total_qty_ level - 0))) :: rest
        end)
     \/
     (rem <> 0 /\
      ms_index st' = ms_index st /\
      ms_levels st' =
        (best_price,
         mkLevel (mkBookOrder (order maker) rem :: queue)
                 (u64 (u64 (total_qty_ level - rem) + rem))) :: rest)) ->
    step_facts o st st'.

(** *** add_resting_order *)

Definition add_resting_order (o : Order) (b : LimitBook) : LimitBook :=
  let s := order_side o in
  let m := map_subscript (side_before s) (order_price o) (side_levels s b) in
  let m' :=
    match map_find (order_price o) m with
    | Some l => map_store (order_price o) (add_order (BookOrder_of o) l) m
    | None => m
    end in
  with_index (<[order_id o := mkLoc s (order_price o)]> (order_index_ b))
             (with_side_levels s m' b).

(** *** best_bid_ask, best_price, would_cross *)

Definition best_bid_ask (b : LimitBook) (clk : T) : bool * BookTop * T :=
  let '(now, clk') := now_ns clk in
  let '(bb, bq) :=
    match bids_ b with
    | [] => (INVALID_PRICE, 0)
    | (p, l) :: _ => (p, total_qty_ l)
    end in
  let '(ba, aq) :=
    match asks_ b with
    | [] => (INVALID_PRICE, 0)
    | (p, l) :: _ => (p, total_qty_ l)
    end in
  (negb (bool_decide (bids_ b = [])) || negb (bool_decide (asks_ b = [])),
   mkTop bb bq ba aq now, clk').

Definition best_price (s : Side) (b : LimitBook) : Z :=
  match side_levels s b with
  | [] => INVALID_PRICE
  | (p, _) :: _ => p
  end.

Definition would_cross (o : Order) (b : LimitBook) : bool :=
  if is_market o then true
  else
    let best_opposite := best_price (opposite (order_side o)) b in
    if best_opposite =? INVALID_PRICE then false
    else
      match order_side o with
      | Buy => best_opposite <=? order_price o
      | Sell => order_price o <=? best_opposite
      end.

(** *** add *)

(** The FOK pre-scan over one side, in map order; [avail] is
    [available_qty]. *)
Fixpoint fok_scan (o : Order) (m : list (Z * BookLevel)) (avail : Z) : Z :=
  match m with
  | [] => avail
  | (p, l) :: m' =>
      if price_breaks (order_side o) p (order_price o) && negb (is_market o)
      then avail
      else
        let avail' := u64 (avail + total_qty_ l) in
        if order_qty o <=? avail' then avail' else fok_scan o m' avail'
  end.

(** The optional [out_top] snapshot: taken only when the caller passed a
    pointer. *)
Definition snapshot (want_top : bool) (b : LimitBook) (clk : T)
  : option BookTop * T :=
  if want_top then
    let '(_, top, clk') := best_bid_ask b clk in (Some top, clk')
  else (None, clk).

(** The part of [add] after the market/IOC/FOK block: cross, rest, snapshot. *)
Definition add_limit_phase (working_order : Order) (b : LimitBook)
    (trades : list TradeEvent) (want_top : bool) (clk : T)
  : bool * LimitBook * list TradeEvent * option BookTop * T :=
  let '(w1, b1, t1, clk1) :=
    if would_cross working_order b then
      let '(w, b', t, c) := match_order working_order b clk in
      (w, b', trades ++ t, c)
    else (working_order, b, trades, clk) in
  let b2 :=
    if (0 <? order_qty w1) && is_limit w1 then add_resting_order w1 b1 else b1 in
  let '(top, clk2) := snapshot want_top b2 clk1 in
  (true, b2, t1, top, clk2).

(** [add(order, out_trades, out_top)].  The result is the return value, the
    book, the trades this call appends to [out_trades], the snapshot
    written to [out_top] (if any) and the clock. *)
Definition add (o : Order) (want_top : bool) (b : LimitBook) (clk : T)
  : bool * LimitBook * list TradeEvent * option BookTop * T :=
  if bool_decide (is_Some (order_index_ b !! order_id o)) then
    (false, b, [], None, clk)
  else
    let working_order := o in
    if is_market working_order || is_ioc working_order || is_fok working_order then
      if is_fok working_order &&
         (fok_scan working_order
                   (side_levels (opposite (order_side working_order)) b) 0
          <? order_qty working_order)
      then (false, b, [], None, clk)
      else
        let '(w, b1, t1, clk1) := match_order working_order b clk in
        if (order_qty w =? 0) || is_ioc w || is_fok w then
          let '(top, clk2) := snapshot want_top b1 clk1 in
          (true, b1, t1, top, clk2)
        else add_limit_phase w b1 t1 want_top clk1
    else add_limit_phase working_order b [] want_top clk.

(** *** cancel *)

(** The map of the cancelled order's side after [cancel], with the quantity
    removed ([cancel_known] relates it to [cancel]). *)
Definition cancel_levels (i p : Z) (m : list (Z * BookLevel))
  : list (Z * BookLevel) * Z :=
  match map_find p m with
  | Some l =>
      match remove_order i l with
      | Some (l', r) =>
          (if level_empty l' then map_erase p m else map_store p l' m, r)
      | None => (if level_empty l then map_erase p m else m, 0)
      end
  | None => (m, 0)
  end.

(** [cancel(id, out)]: the return value, the book, the event written to
    [out] on success, and the clock. *)
Definition cancel (i : Z) (b : LimitBook) (clk : T)
  : bool * LimitBook * option CancelEvent * T :=
  match order_index_ b !! i with
  | None => (false, b, None, clk)
  | Some loc =>
      let s := loc_side loc in
      let '(m', removed_qty) :=
        match map_find (loc_price loc) (side_levels s b) with
        | Some l =>
            match remove_order i l with
            | Some (l', r) =>
                (if level_empty l' then map_erase (loc_price loc) (side_levels s b)
                 else map_store (loc_price loc) l' (side_levels s b), r)
            | None =>
                (if level_empty l then map_erase (loc_price loc) (side_levels s b)
                 else side_levels s b, 0)
            end
        | None => (side_levels s b, 0)
        end in
      let b' := with_index (delete i (order_index_ b)) (with_side_levels s m' b) in
      let '(now, clk') := now_ns clk in
      (true, b', Some (mkCancel i removed_qty now), clk')
  end.

(** *** replace *)

(** [replace(id, new_price, new_qty, out, out_trades)]: the return value,
    the book, the trades appended, the event written to [out] on success,
    and the clock. *)
Definition replace (i new_price new_qty : Z) (b : LimitBook) (clk : T)
  : bool * LimitBook * list TradeEvent * option ReplaceEvent * T :=
  match order_index_ b !! i with
  | None => (false, b, [], None, clk)
  | Some loc =>
      let book_order :=
        match map_find (loc_price loc) (side_levels (loc_side loc) b) with
        | Some l => find_order i l
        | None => None
        end in
      match book_order with
      | None => (false, b, [], None, clk)
      | Some bo =>
          let original_order := with_qty (order bo) (remaining_qty bo) in
          match cancel i b clk with
          | (false, b1, _, clk1) => (false, b1, [], None, clk1)
          | (true, b1, _, clk1) =>
              let '(now, clk2) := now_ns clk1 in
              let new_order :=
                with_ts (with_qty (with_price original_order new_price) new_qty) now in
              let '(ok, b2, trades, _, clk3) := add new_order false b1 clk2 in
              if ok then
                (true, b2, trades, Some (mkReplace i new_price new_qty now), clk3)
              else (false, b2, trades, None, clk3)
          end
      end
  end.

End LimitBook.

(** ** RingBuffer.h *)

Record RingBuffer (A : Type) : Type := mkRing {
  capacity_ : Z;
  mask_ : Z;
  buffer_ : list A;
  head_ : Z;
  tail_ : Z
}.

Arguments mkRing {A} _ _ _ _ _.
Arguments capacity_ {A} _.
Arguments mask_ {A} _.
Arguments buffer_ {A} _.
Arguments head_ {A} _.
Arguments tail_ {A} _.

(** [next_power_of_two] on [size_t]: the decrement and the final increment
    wrap; the or-shift cascade cannot leave the 64-bit range. *)
Definition smear (s : Z) (n : Z) : Z := Z.lor n (Z.shiftr n s).

Definition next_power_of_two (n : Z) : Z :=
  if n =? 0 then 1
  else
    let n := u64 (n - 1) in
    let n := smear 1 n in
    let n := smear 2 n in
    let n := smear 4 n in
    let n := smear 8 n in
    let n := smear 16 n in
    let n := smear 32 n in
    u64 (n + 1).

(** Bits above [k] are clear, and the [w] bits from [k] downwards are set:
    the state of the or-shift cascade after it has spread the top bit over
    [w] positions. *)
Definition filled (k w n : Z) : Prop :=
  (forall i, k < i -> Z.testbit n i = false) /\
  (forall i, 0 <= i <= k -> k - w < i -> Z.testbit n i = true).

Section RingBuffer.

Context {A : Type} (dflt : A).

(** The constructor; [buffer_(capacity_)] holds [capacity_] default
    elements. *)
Definition RingBuffer_new (requested : Z) : RingBuffer A :=
  let c := next_power_of_two requested in
  mkRing c (u64 (c - 1)) (replicate (Z.to_nat c) dflt) 0 0.

(** [push]: the write [buffer_[current_tail] = item] is a list update (the
    C++ write is undefined out of range; the list update does nothing
    there). *)
Definition push (item : A) (rb : RingBuffer A) : bool * RingBuffer A :=
  let current_tail := tail_ rb in
  let next_tail := Z.land (u64 (current_tail + 1)) (mask_ rb) in
  if next_tail =? head_ rb then (false, rb)
  else
    (true,
     mkRing (capacity_ rb) (mask_ rb)
            (<[Z.to_nat current_tail := item]> (buffer_ rb))
            (head_ rb) next_tail).

(** [pop]: [None] is the [false] return ([item] untouched). *)
Definition pop (rb : RingBuffer A) : option (A * RingBuffer A) :=
  let current_head := head_ rb in
  if current_head =? tail_ rb then None
  else
    Some (nth (Z.to_nat current_head) (buffer_ rb) dflt,
          mkRing (capacity_ rb) (mask_ rb) (buffer_ rb)
                 (Z.land (u64 (current_head + 1)) (mask_ rb)) (tail_ rb)).

Definition ring_empty (rb : RingBuffer A) : bool := head_ rb =? tail_ rb.

Definition ring_size (rb : RingBuffer A) : Z :=
  Z.land (u64 (tail_ rb - head_ rb)) (mask_ rb).

Definition capacity (rb : RingBuffer A) : Z := capacity_ rb.

(** A buffer whose capacity is a power of two, with its mask and with both
    indices inside the capacity. *)
Definition ring_wf (rb : RingBuffer A) : Prop :=
  exists e, 0 <= e <= 63 /\ capacity_ rb = 2 ^ e /\ mask_ rb = 2 ^ e - 1 /\
            0 <= head_ rb < 2 ^ e /\ 0 <= tail_ rb < 2 ^ e.

(** Pushing a sequence of items in order; the flags are the return values
    of the successive [push] calls. *)
Fixpoint push_all (items : list A) (rb : RingBuffer A) : list bool * RingBuffer A :=
  match items with
  | [] => ([], rb)
  | x :: xs =>
      let '(ok, rb1) := push x rb in
      let '(oks, rb2) := push_all xs rb1 in
      (ok :: oks, rb2)
  end.

(** The drain loop [while (pop(event)) out.push_back(event)], run for at
    most [fuel] rounds. *)
Fixpoint drain (fuel : nat) (rb : RingBuffer A) : list A * RingBuffer A :=
  match fuel with
  | O => ([], rb)
  | S fuel' =>
      match pop rb with
      | None => ([], rb)
      | Some (x, rb1) =>
          let '(xs, rb2) := drain fuel' rb1 in (x :: xs, rb2)
      end
  end.

End RingBuffer.

(** ** Config.h *)

Record EngineConfig : Set := mkConfig {
  max_orders : Z;
  ring_size_cfg : Z;
  tick_size : Q
}.

Definition EngineConfig_default : EngineConfig :=
  mkConfig 100000 10000 (1 # 100).

(** ** MatchingEngine.h, MatchingEngine.cpp *)

Record MatchingEngine (T : Type) : Type := mkEngine {
  config_ : EngineConfig;
  time_source_ : T;
  book_ : LimitBook;
  event_buffer_ : RingBuffer EngineEvent
}.

Arguments mkEngine {T} _ _ _ _.
Arguments config_ {T} _.
Arguments time_source_ {T} _.
Arguments book_ {T} _.
Arguments event_buffer_ {T} _.

Definition BookTop_default : BookTop := mkTop INVALID_PRICE 0 INVALID_PRICE 0 0.

Section MatchingEngine.

Context {T : Type} `{TimeSource T}.

Definition MatchingEngine_new (config : EngineConfig) (clk : T) : MatchingEngine T :=
  mkEngine config clk LimitBook_new
           (RingBuffer_new EngineEvent_default (ring_size_cfg config)).

(** [emit_event]: the result of [push] is dropped, and with it the event
    when the buffer is full. *)
Definition emit_event (e : EngineEvent) (rb : RingBuffer EngineEvent)
  : RingBuffer EngineEvent :=
  snd (push e rb).

Definition emit_events (es : list EngineEvent) (rb : RingBuffer EngineEvent)
  : RingBuffer EngineEvent :=
  fold_left (fun r e => emit_event e r) es rb.

Definition submit (o : Order) (me : MatchingEngine T) : bool * MatchingEngine T :=
  let '(success, b, trades, top, clk) :=
    add o true (book_ me) (time_source_ me) in
  if success then
    let '(now, clk') := now_ns clk in
    let rb1 := emit_event (EvAccept (mkAccept (order_id o) now)) (event_buffer_ me) in
    let rb2 := emit_events (map EvTrade trades) rb1 in
    let rb3 := emit_event (EvTop (default BookTop_default top)) rb2 in
    (true, mkEngine (config_ me) clk' b rb3)
  else
    let '(now, clk') := now_ns clk in
    let rb1 := emit_event (EvReject (mkReject (order_id o) now 1)) (event_buffer_ me) in
    (false, mkEngine (config_ me) clk' b rb1).

Definition engine_cancel (i : Z) (me : MatchingEngine T) : bool * MatchingEngine T :=
  let '(success, b, ev, clk) := cancel i (book_ me) (time_source_ me) in
  if success then
    let rb1 :=
      emit_event (EvCancel (default (mkCancel 0 0 0) ev)) (event_buffer_ me) in
    let '(_, top, clk') := best_bid_ask b clk in
    let rb2 := emit_event (EvTop top) rb1 in
    (true, mkEngine (config_ me) clk' b rb2)
  else (false, mkEngine (config_ me) clk b (event_buffer_ me)).

Definition engine_replace (i new_price new_qty : Z) (me : MatchingEngine T)
  : bool * MatchingEngine T :=
  let '(success, b, trades, ev, clk) :=
    replace i new_price new_qty (book_ me) (time_source_ me) in
  if success then
    let rb1 :=
      emit_event (EvReplace (default (mkReplace 0 0 0 0) ev)) (event_buffer_ me) in
    let rb2 := emit_events (map EvTrade trades) rb1 in
    let '(_, top, clk') := best_bid_ask b clk in
    let rb3 := emit_event (EvTop top) rb2 in
    (true, mkEngine (config_ me) clk' b rb3)
  else (false, mkEngine (config_ me) clk b (event_buffer_ me)).

(** [poll_events]: the delivered events ([out_events] after the call), the
    return value, and the engine.  The drain loop is run for as many rounds
    as the buffer reports elements, plus the round that finds it empty. *)
Definition poll_events (me : MatchingEngine T)
  : bool * list EngineEvent * MatchingEngine T :=
  let rb := event_buffer_ me in
  let '(out_events, rb') :=
    drain EngineEvent_default (S (Z.to_nat (ring_size rb))) rb in
  (negb (bool_decide (out_events = [])), out_events,
   mkEngine (config_ me) (time_source_ me) (book_ me) rb').

(** The events a [poll_events] call hands to its caller. *)
Definition delivered (me : MatchingEngine T) : list EngineEvent :=
  snd (fst (poll_events me)).

End MatchingEngine.

(** ** Price.h *)

(** [static_cast<int64_t>] of a real value: truncation toward zero (the
    result is left as it is outside the [int64_t] range, where the C++
    conversion is undefined). *)
Definition Qtrunc (x : Q) : Z :=
  if Qle_bool 0 x then Qfloor x else Qceiling x.

(** [Price::from_double], read in exact arithmetic: the quotient and the
    sum are the real ones, so that the function is defined on every real
    price the claim speaks of (every [double] is a rational). *)
Definition from_double (price tick_size : Q) : Z :=
  Qtrunc (price / tick_size + (1 # 2))%Q.


(** Rounding to the nearest integer, ties away from zero. *)
Definition round_half_away (x : Q) : Z :=
  if Qle_bool 0 x then Qfloor (x + (1 # 2))%Q else Qceiling (x - (1 # 2))%Q.

(** *** The same expression on IEEE-754 binary64 values *)

(** [double] division and addition, round to nearest even: precision 53,
    maximal exponent 1024. *)
Definition double_div : spec_float -> spec_float -> spec_float := SFdiv 53 1024.
Definition double_add : spec_float -> spec_float -> spec_float := SFadd 53 1024.

(** [static_cast<int64_t>] of a [double]: truncation toward zero; [None]
    where C++ leaves the conversion undefined (NaN, infinities, values
    outside the [int64_t] range). *)
Definition double_to_int64 (x : spec_float) : option Z :=
  match x with
  | S754_zero _ => Some 0
  | S754_finite s m e =>
      let magnitude :=
        if 0 <=? e then Z.pos m * 2 ^ e else Z.pos m / 2 ^ (- e) in
      let v := if s then - magnitude else magnitude in
      if (- 2 ^ 63 <=? v) && (v <? 2 ^ 63) then Some v else None
  | _ => None
  end.

(** The [double] literals the examples use: mantissa and exponent of the
    nearest binary64 value. *)
Definition double_half : spec_float := S754_finite false 4503599627370496 (-53).
Definition double_one : spec_float := S754_finite false 4503599627370496 (-52).
Definition double_minus_1_5 : spec_float := S754_finite true 6755399441055744 (-52).
Definition double_100 : spec_float := S754_finite false 7036874417766400 (-46).
Definition double_100_5 : spec_float := S754_finite false 7072058789855232 (-46).
Definition double_0_01 : spec_float := S754_finite false 5764607523034235 (-59).

Definition from_double_binary64 (price tick_size : spec_float) : option Z :=
  double_to_int64 (double_add (double_div price tick_size) double_half).

(** * Specification vocabulary *)

(** ** Book invariants *)

Definition keys (m : list (Z * BookLevel)) : list Z := map fst m.

(** Iteration order of a [std::map] under its comparator: strictly
    decreasing prices for [bids_], strictly increasing for [asks_]. *)
Definition map_sorted (before : Z -> Z -> bool) (m : list (Z * BookLevel)) : Prop :=
  StronglySorted (fun a b => before a b = true) (keys m).

Definition slot_id (bo : BookOrder) : Z := order_id (order bo).

Definition slot_ids (l : BookLevel) : list Z := map slot_id (orders_ l).

(** A resting slot at side [s], price [p]: indexed there, a limit order of
    that side and price, with a 64-bit remaining quantity. *)
Definition slot_inv (ix : gmap Z OrderLocation) (s : Side) (p : Z) (bo : BookOrder)
  : Prop :=
  ix !! slot_id bo = Some (mkLoc s p) /\
  order_type (order bo) = Limit /\
  order_side (order bo) = s /\
  order_price (order bo) = p /\
  u64_range (remaining_qty bo).

Definition level_inv (ix : gmap Z OrderLocation) (s : Side) (p : Z) (l : BookLevel)
  : Prop :=
  orders_ l <> [] /\
  NoDup (slot_ids l) /\
  u64_range (total_qty_ l) /\
  Forall (slot_inv ix s p) (orders_ l).

Definition side_inv (ix : gmap Z OrderLocation) (s : Side) (m : list (Z * BookLevel))
  : Prop :=
  map_sorted (side_before s) m /\
  Forall (fun kl => level_inv ix s (fst kl) (snd kl)) m.

Definition book_inv (b : LimitBook) : Prop :=
  side_inv (order_index_ b) Buy (bids_ b) /\
  side_inv (order_index_ b) Sell (asks_ b).

(** Some slot with id [i] rests in the map [m]. *)
Definition has_slot (i : Z) (m : list (Z * BookLevel)) : Prop :=
  exists p l bo, (p, l) ∈ m /\ bo ∈ orders_ l /\ slot_id bo = i.

(** No bid price reaches an ask price. *)
Definition uncrossed (b : LimitBook) : Prop :=
  forall pb pa, pb ∈ keys (bids_ b) -> pa ∈ keys (asks_ b) -> pb < pa.

(** No level sits at the price that [best_price] uses for "no price". *)
Definition no_sentinel_level (b : LimitBook) : Prop :=
  (INVALID_PRICE ∉ keys (bids_ b)) /\ (INVALID_PRICE ∉ keys (asks_ b)).

(** [uncrossed], seen from side [s]: every price of the other side is
    beyond every price of side [s]. *)
Definition sides_apart (s : Side) (own opp : list (Z * BookLevel)) : Prop :=
  forall po pp, po ∈ keys own -> pp ∈ keys opp -> price_breaks s pp po = true.

(** The opposite side holds nothing that a resting order at [limit] would
    cross: it is empty or its best price is beyond [limit]. *)
Definition out_of_reach (s : Side) (limit : Z) (opp : list (Z * BookLevel)) : Prop :=
  match opp with
  | [] => True
  | (best, _) :: _ => price_breaks s best limit = true
  end.

Record priced_inv (b : LimitBook) : Prop := mkPriced {
  pi_book : book_inv b;
  pi_uncrossed : uncrossed b;
  pi_sentinel : no_sentinel_level b
}.

(** ** Matching order and trades *)

(** The resting slots of one side in matching order: best price first,
    FIFO within a level; each with the price of its level. *)
Definition book_queue (m : list (Z * BookLevel)) : list (Z * BookOrder) :=
  flat_map (fun kl => map (pair (fst kl)) (orders_ (snd kl))) m.

Definition queue_ids (queue : list (Z * BookOrder)) : list Z :=
  map (fun x => slot_id (snd x)) queue.

(** The trades of one matching run against the queue [queue]: the [k]-th
    trade is with the [k]-th slot, at the price of its level, which the
    taker's limit allows; every trade but the last takes all of its maker's
    remaining quantity. *)
Fixpoint trades_follow (o : Order) (queue : list (Z * BookOrder))
    (ts : list TradeEvent) {struct ts} : Prop :=
  match ts with
  | [] => True
  | t :: ts' =>
      match queue with
      | [] => False
      | (p, bo) :: queue' =>
          taker_id t = order_id o /\
          maker_id t = slot_id bo /\
          trade_price t = p /\
          (is_market o = false ->
           price_breaks (order_side o) p (order_price o) = false) /\
          trade_qty t <= remaining_qty bo /\
          (ts' <> [] -> remaining_qty bo < 2 ^ 64 ->
           trade_qty t = remaining_qty bo) /\
          trades_follow o queue' ts'
      end
  end.

(** The quantity that rests in a level, slot by slot. *)
Definition level_sum (l : BookLevel) : Z :=
  foldr (fun bo acc => remaining_qty bo + acc) 0 (orders_ l).

(** The quantity that rests within the taker's limit on the opposite side:
    the levels the matching loop can reach before its price test breaks. *)
Fixpoint reach_qty (o : Order) (m : list (Z * BookLevel)) : Z :=
  match m with
  | [] => 0
  | (p, l) :: m' =>
      if negb (is_market o) && price_breaks (order_side o) p (order_price o)
      then 0
      else level_sum l + reach_qty o m'
  end.

(** Level totals that do not overstate what rests in the level. *)
Definition totals_sound (m : list (Z * BookLevel)) : Prop :=
  Forall (fun kl => total_qty_ (snd kl) <= level_sum (snd kl)) m.

(** A trade price that is no worse for the taker than its limit. *)
Definition price_within (s : Side) (trade limit : Z) : Prop :=
  match s with Buy => trade <= limit | Sell => limit <= trade end.

(** ** Commands and reachable books *)

Inductive Command : Set :=
| Submit (o : Order) (want_top : bool)
| Cancel (i : Z)
| Replace (i new_price new_qty : Z).

(** Arguments as the C++ parameter types allow them. *)
Definition command_wf (c : Command) : Prop :=
  match c with
  | Submit o _ => order_wf o
  | Cancel i => u64_range i
  | Replace i new_price new_qty =>
      u64_range i /\ u64_range new_qty /\ - 2 ^ 63 <= new_price < 2 ^ 63
  end.

(** Commands whose resting price, if any, is not [INVALID_PRICE]. *)
Definition command_priced (c : Command) : Prop :=
  match c with
  | Submit o _ => order_type o = Limit -> order_price o <> INVALID_PRICE
  | Cancel _ => True
  | Replace _ new_price _ => new_price <> INVALID_PRICE
  end.

Section Reachable.

Context {T : Type} `{TimeSource T}.

Definition run_command (c : Command) (b : LimitBook) (clk : T) : LimitBook :=
  match c with
  | Submit o want_top => let '(_, b', _, _, _) := add o want_top b clk in b'
  | Cancel i => let '(_, b', _, _) := cancel i b clk in b'
  | Replace i p q => let '(_, b', _, _, _) := replace i p q b clk in b'
  end.

(** Books that a sequence of public operations, each accepted by [ok],
    produces from the empty book. *)
Inductive reachable_by (ok : Command -> Prop) : LimitBook -> Prop :=
| reach_new : reachable_by ok LimitBook_new
| reach_step b c clk :
    reachable_by ok b -> ok c -> reachable_by ok (run_command c b clk).

Definition reachable : LimitBook -> Prop := reachable_by command_wf.

Definition reachable_priced : LimitBook -> Prop :=
  reachable_by (fun c => command_wf c /\ command_priced c).

End Reachable.

(** ** Trades *)

Definition traded_qty (trades : list TradeEvent) : Z :=
  foldr (fun t acc => trade_qty t + acc) 0 trades.

(** ** Worked examples *)

(** The examples run on the simulated clock, stopped at 0. *)

Definition submit_to (b : LimitBook) (o : Order) : LimitBook :=
  run_command (Submit o true) b (0 : Z).

Definition cancel_in (b : LimitBook) (i : Z) : LimitBook :=
  run_command (Cancel i) b (0 : Z).

(** Two asks of 5 at 100, the first of them then filled by a buy of 5. *)
Definition sell_1 : Order := Order_make 1 Sell 100 5 0 Limit.
Definition sell_2 : Order := Order_make 2 Sell 100 5 0 Limit.
Definition buy_3 : Order := Order_make 3 Buy 100 5 0 Limit.
Definition fok_4 : Order := Order_make 4 Buy 100 10 0 FOK.

Definition book_one_ask : LimitBook := submit_to LimitBook_new sell_1.
Definition book_two_asks : LimitBook := submit_to book_one_ask sell_2.
Definition book_after_fill : LimitBook := submit_to book_two_asks buy_3.

(** An IOC buy, a buy that sweeps both asks, and a bid below the ask. *)
Definition ioc_2 : Order := Order_make 2 Buy 100 10 0 IOC.
Definition buy_both : Order := Order_make 3 Buy 100 10 0 Limit.
Definition bid_99 : Order := Order_make 2 Buy 99 5 0 Limit.

Definition book_two_sided : LimitBook := submit_to book_one_ask bid_99.

(** An ask resting at the tick count [-1], and a bid above it. *)
Definition ask_at_sentinel : Order := Order_make 1 Sell (-1) 5 0 Limit.
Definition bid_at_5 : Order := Order_make 2 Buy 5 5 0 Limit.

Definition book_sentinel_ask : LimitBook := submit_to LimitBook_new ask_at_sentinel.
Definition book_crossed : LimitBook := submit_to book_sentinel_ask bid_at_5.

(** A small engine on the simulated clock. *)
Definition small_engine : MatchingEngine Z :=
  MatchingEngine_new (mkConfig 8 8 (1 # 100)) 0.

(** ** The order index seen from its entries, and live quantities *)

(** Every index entry points at a level of its side that holds a slot with
    that id. *)
Definition backed (ix : gmap Z OrderLocation)
    (levels : Side -> list (Z * BookLevel)) : Prop :=
  forall i loc, ix !! i = Some loc ->
    exists l, map_find (loc_price loc) (levels (loc_side loc)) = Some l /\
              i ∈ slot_ids l.

Definition index_backed (b : LimitBook) : Prop :=
  backed (order_index_ b) (fun s => side_levels s b).

(** The two maps as the matching loop of a taker of side [s] holds them:
    its own side untouched, the opposite side in the loop state. *)
Definition loop_levels (s : Side) (own opp : list (Z * BookLevel)) (s' : Side)
  : list (Z * BookLevel) :=
  if decide (s' = s) then own else opp.

(** A resting slot has something left, and no more than its order asked
    for. *)
Definition slot_live (bo : BookOrder) : Prop :=
  0 < remaining_qty bo <= order_qty (order bo).

Definition side_live (m : list (Z * BookLevel)) : Prop :=
  Forall (fun kl => Forall slot_live (orders_ (snd kl))) m.

Definition book_live (b : LimitBook) : Prop :=
  side_live (bids_ b) /\ side_live (asks_ b).

Record sound_book (b : LimitBook) : Prop := mkSound {
  sb_inv : book_inv b;
  sb_backed : index_backed b;
  sb_live : book_live b
}.

(** The ids of all resting slots, bids first. *)
Definition book_slot_ids (b : LimitBook) : list Z :=
  queue_ids (book_queue (bids_ b)) ++ queue_ids (book_queue (asks_ b)).

(** The quantity that rests on one side, and in the book. *)
Definition side_sum (m : list (Z * BookLevel)) : Z :=
  foldr (fun kl acc => level_sum (snd kl) + acc) 0 m.

Definition resting_qty (b : LimitBook) : Z :=
  side_sum (bids_ b) + side_sum (asks_ b).

(** ** LimitBook.cpp: cleanup_empty_level *)

(** [cleanup_empty_level(side, price)]: the level at [price] is erased when
    it is there and holds no order. *)
Definition cleanup_empty_level (s : Side) (p : Z) (b : LimitBook) : LimitBook :=
  match map_find p (side_levels s b) with
  | Some l =>
      if level_empty l then with_side_levels s (map_erase p (side_levels s b)) b
      else b
  | None => b
  end.

(** ** What a ring buffer holds *)

Section RingContents.

Context {A : Type} (dflt : A).

(** [n] slots of the storage from index [i] on, around the ring. *)
Fixpoint ring_slots (cap : Z) (buf : list A) (n : nat) (i : Z) : list A :=
  match n with
  | O => []
  | S n' => nth (Z.to_nat i) buf dflt :: ring_slots cap buf n' ((i + 1) mod cap)
  end.

(** The elements between [head_] and [tail_], oldest first. *)
Definition ring_contents (rb : RingBuffer A) : list A :=
  ring_slots (capacity_ rb) (buffer_ rb) (Z.to_nat (ring_size rb)) (head_ rb).

(** A well-formed buffer whose storage has its [capacity_] slots. *)
Definition ring_ok (rb : RingBuffer A) : Prop :=
  ring_wf rb /\ Z.of_nat (length (buffer_ rb)) = capacity_ rb.

(** The pushes that can still succeed before a pop. *)
Definition ring_room (rb : RingBuffer A) : Z := capacity_ rb - 1 - ring_size rb.

End RingContents.

(** ** Sequences of engine calls *)

Inductive EngineCall : Set :=
| CallSubmit (o : Order)
| CallCancel (i : Z)
| CallReplace (i new_price new_qty : Z)
| CallPoll.

(** Arguments as the C++ parameter types allow them. *)
Definition call_wf (c : EngineCall) : Prop :=
  match c with
  | CallSubmit o => order_wf o
  | CallCancel i => u64_range i
  | CallReplace i new_price new_qty =>
      u64_range i /\ u64_range new_qty /\ - 2 ^ 63 <= new_price < 2 ^ 63
  | CallPoll => True
  end.

Section EngineCalls.

Context {T : Type} `{TimeSource T}.

Definition run_call (c : EngineCall) (me : MatchingEngine T) : MatchingEngine T :=
  match c with
  | CallSubmit o => snd (submit o me)
  | CallCancel i => snd (engine_cancel i me)
  | CallReplace i p q => snd (engine_replace i p q me)
  | CallPoll => snd (poll_events me)
  end.

(** Engines that a sequence of calls produces from a freshly constructed
    one. *)
Inductive engine_reachable (config : EngineConfig) : MatchingEngine T -> Prop :=
| engine_new clk : engine_reachable config (MatchingEngine_new config clk)
| engine_step me c :
    engine_reachable config me -> call_wf c ->
    engine_reachable config (run_call c me).

End EngineCalls.

(** ** MarketDataReplay *)

Record MarketDataMessage : Set := mkMessage {
  msg_timestamp : Z;
  msg_action : string;
  msg_order_id : Z;
  msg_side : Side;
  msg_price : Z;
  msg_qty : Z;
  msg_order_type : OrderType
}.

Section MarketDataReplay.

Context {T : Type} `{TimeSource T}.

Definition replay_message (msg : MarketDataMessage) (me : MatchingEngine T)
  : bool * MatchingEngine T :=
  if bool_decide (msg_action msg = "ADD") || bool_decide (msg_action msg = "SUBMIT")
  then
    let order :=
      Order_make (msg_order_id msg) (msg_side msg) (msg_price msg) (msg_qty msg)
                 (msg_timestamp msg) (msg_order_type msg) in
    submit order me
  else if bool_decide (msg_action msg = "CANCEL") then
    engine_cancel (msg_order_id msg) me
  else if bool_decide (msg_action msg = "REPLACE") then
    engine_replace (msg_order_id msg) (msg_price msg) (msg_qty msg) me
  else (false, me).

(** The body of the two replay loops after the timestamp test: replay the
    message, count it if it succeeded, and poll into [out_events] when the
    caller passed a vector ([Some], holding the vector's contents). *)
Definition replay_one (msg : MarketDataMessage)
    (st : Z * option (list EngineEvent) * MatchingEngine T)
  : Z * option (list EngineEvent) * MatchingEngine T :=
  let '(processed, out_events, me) := st in
  let '(ok, me1) := replay_message msg me in
  let processed' := if ok then u64 (processed + 1) else processed in
  match out_events with
  | Some _ =>
      let '(_, evs, me2) := poll_events me1 in (processed', Some evs, me2)
  | None => (processed', None, me1)
  end.

(** [replay_all(out_events)] over the loaded [messages_]: the count
    returned, the vector and the engine. *)
Fixpoint replay_from (messages_ : list MarketDataMessage)
    (st : Z * option (list EngineEvent) * MatchingEngine T)
  : Z * option (list EngineEvent) * MatchingEngine T :=
  match messages_ with
  | [] => st
  | msg :: rest => replay_from rest (replay_one msg st)
  end.

Definition replay_all (messages_ : list MarketDataMessage)
    (out_events : option (list EngineEvent)) (me : MatchingEngine T)
  : Z * option (list EngineEvent) * MatchingEngine T :=
  replay_from messages_ (0, out_events, me).

(** [replay_until(timestamp, out_events)]: the loop breaks at the first
    message stamped after [timestamp]. *)
Fixpoint replay_until_from (timestamp : Z) (messages_ : list MarketDataMessage)
    (st : Z * option (list EngineEvent) * MatchingEngine T)
  : Z * option (list EngineEvent) * MatchingEngine T :=
  match messages_ with
  | [] => st
  | msg :: rest =>
      if timestamp <? msg_timestamp msg then st
      else replay_until_from timestamp rest (replay_one msg st)
  end.

Definition replay_until (timestamp : Z) (messages_ : list MarketDataMessage)
    (out_events : option (list EngineEvent)) (me : MatchingEngine T)
  : Z * option (list EngineEvent) * MatchingEngine T :=
  replay_until_from timestamp messages_ (0, out_events, me).

(** The engine call a message stands for, if any. *)
Definition message_call (msg : MarketDataMessage) : option EngineCall :=
  if bool_decide (msg_action msg = "ADD") || bool_decide (msg_action msg = "SUBMIT")
  then Some (CallSubmit
               (Order_make (msg_order_id msg) (msg_side msg) (msg_price msg)
                           (msg_qty msg) (msg_timestamp msg) (msg_order_type msg)))
  else if bool_decide (msg_action msg = "CANCEL") then
    Some (CallCancel (msg_order_id msg))
  else if bool_decide (msg_action msg = "REPLACE") then
    Some (CallReplace (msg_order_id msg) (msg_price msg) (msg_qty msg))
  else None.

(** Fields as the C++ member types allow them. *)
Definition message_wf (msg : MarketDataMessage) : Prop :=
  u64_range (msg_timestamp msg) /\ u64_range (msg_order_id msg) /\
  u64_range (msg_qty msg) /\ - 2 ^ 63 <= msg_price msg < 2 ^ 63.

End MarketDataReplay.

(** ** MultiSymbolEngine *)

Definition SymbolId : Set := string.

(** The engines share one clock: [time_source_] is its state, and the
    clock field inside a stored engine is not read (each call runs the
    engine on the shared state and stores the state it leaves).  The
    mutex is not modelled: the calls are taken one at a time. *)
Record MultiSymbolEngine (T : Type) : Type := mkMulti {
  default_config_ : EngineConfig;
  shared_time_source_ : T;
  engines_ : gmap SymbolId (MatchingEngine T)
}.

Arguments mkMulti {T} _ _ _.
Arguments default_config_ {T} _.
Arguments shared_time_source_ {T} _.
Arguments engines_ {T} _.

Module Multi.

Section MultiSymbolEngine.

Context {T : Type} `{TimeSource T}.

Definition new (default_config : EngineConfig) (clk : T) : MultiSymbolEngine T :=
  mkMulti default_config clk ∅.

(** The engine of [symbol], holding the shared clock. *)
Definition get_engine (symbol : SymbolId) (m : MultiSymbolEngine T)
  : option (MatchingEngine T) :=
  match engines_ m !! symbol with
  | Some me =>
      Some (mkEngine (config_ me) (shared_time_source_ m) (book_ me)
                     (event_buffer_ me))
  | None => None
  end.

(** The state after a call on the engine of [symbol] has left it as
    [me]. *)
Definition put_engine (symbol : SymbolId) (me : MatchingEngine T)
    (m : MultiSymbolEngine T) : MultiSymbolEngine T :=
  mkMulti (default_config_ m) (time_source_ me) (<[symbol := me]> (engines_ m)).

Definition add_symbol (symbol : SymbolId) (custom_config : option EngineConfig)
    (m : MultiSymbolEngine T) : bool * MultiSymbolEngine T :=
  if bool_decide (is_Some (engines_ m !! symbol)) then (false, m)
  else
    let config := default (default_config_ m) custom_config in
    (true,
     mkMulti (default_config_ m) (shared_time_source_ m)
             (<[symbol := MatchingEngine_new config (shared_time_source_ m)]>
                (engines_ m))).

Definition remove_symbol (symbol : SymbolId) (m : MultiSymbolEngine T)
  : bool * MultiSymbolEngine T :=
  (bool_decide (is_Some (engines_ m !! symbol)),
   mkMulti (default_config_ m) (shared_time_source_ m)
           (delete symbol (engines_ m))).

Definition submit (symbol : SymbolId) (o : Order) (m : MultiSymbolEngine T)
  : bool * MultiSymbolEngine T :=
  match get_engine symbol m with
  | None => (false, m)
  | Some me =>
      let '(ok, me') := submit o me in (ok, put_engine symbol me' m)
  end.

Definition cancel (symbol : SymbolId) (i : Z) (m : MultiSymbolEngine T)
  : bool * MultiSymbolEngine T :=
  match get_engine symbol m with
  | None => (false, m)
  | Some me =>
      let '(ok, me') := engine_cancel i me in (ok, put_engine symbol me' m)
  end.

Definition replace (symbol : SymbolId) (i new_price new_qty : Z)
    (m : MultiSymbolEngine T) : bool * MultiSymbolEngine T :=
  match get_engine symbol m with
  | None => (false, m)
  | Some me =>
      let '(ok, me') := engine_replace i new_price new_qty me in
      (ok, put_engine symbol me' m)
  end.

(** [best_bid_ask(symbol, out)]: [None] for [out] left untouched. *)
Definition best_bid_ask (symbol : SymbolId) (m : MultiSymbolEngine T)
  : bool * option BookTop * MultiSymbolEngine T :=
  match get_engine symbol m with
  | None => (false, None, m)
  | Some me =>
      let '(ok, top, clk) := best_bid_ask (book_ me) (time_source_ me) in
      (ok, Some top,
       mkMulti (default_config_ m) clk (engines_ m))
  end.

(** [poll_events(symbol, out_events)]: [None] for [out_events] left
    untouched. *)
Definition poll_events (symbol : SymbolId) (m : MultiSymbolEngine T)
  : bool * option (list EngineEvent) * MultiSymbolEngine T :=
  match get_engine symbol m with
  | None => (false, None, m)
  | Some me =>
      let '(ok, evs, me') := poll_events me in
      (ok, Some evs, put_engine symbol me' m)
  end.

(** [get_symbols]: the keys, in the iteration order of the map. *)
Definition get_symbols (m : MultiSymbolEngine T) : list SymbolId :=
  (map_to_list (engines_ m)).*1.

End MultiSymbolEngine.

End Multi.

(** The calls addressed to one symbol, with the return value of each. *)
Definition multi_call {T : Type} `{TimeSource T}
    (symbol : SymbolId) (c : EngineCall) (m : MultiSymbolEngine T)
  : bool * MultiSymbolEngine T :=
  match c with
  | CallSubmit o => Multi.submit symbol o m
  | CallCancel i => Multi.cancel symbol i m
  | CallReplace i p q => Multi.replace symbol i p q m
  | CallPoll => let '(ok, _, m') := Multi.poll_events symbol m in (ok, m')
  end.

Inductive MultiCall : Set :=
| MultiAddSymbol (symbol : SymbolId) (custom_config : option EngineConfig)
| MultiRemoveSymbol (symbol : SymbolId)
| MultiEngineCall (symbol : SymbolId) (c : EngineCall)
| MultiBestBidAsk (symbol : SymbolId).

Definition multi_call_wf (c : MultiCall) : Prop :=
  match c with
  | MultiAddSymbol _ (Some config) => 0 <= ring_size_cfg config <= 2 ^ 63
  | MultiEngineCall _ c => call_wf c
  | _ => True
  end.

Section MultiReachable.

Context {T : Type} `{TimeSource T}.

Definition multi_run (c : MultiCall) (m : MultiSymbolEngine T)
  : MultiSymbolEngine T :=
  match c with
  | MultiAddSymbol symbol custom => snd (Multi.add_symbol symbol custom m)
  | MultiRemoveSymbol symbol => snd (Multi.remove_symbol symbol m)
  | MultiEngineCall symbol c => snd (multi_call symbol c m)
  | MultiBestBidAsk symbol => snd (Multi.best_bid_ask symbol m)
  end.

Inductive multi_reachable (default_config : EngineConfig)
  : MultiSymbolEngine T -> Prop :=
| multi_new clk : multi_reachable default_config (Multi.new default_config clk)
| multi_step m c :
    multi_reachable default_config m -> multi_call_wf c ->
    multi_reachable default_config (multi_run c m).

End MultiReachable.

(** ** Pool.h *)

(** The pooled objects are told apart by their position in [storage_]; a
    [T*] is such a position, [None] the null pointer.  [free_list_] is
    kept in vector order, its back last. *)
Record Pool : Set := mkPool {
  storage_ : nat;
  free_list_ : list nat
}.

Definition Pool_new (capacity : Z) : Pool :=
  mkPool (Z.to_nat capacity) (seq 0 (Z.to_nat capacity)).

Definition acquire (p : Pool) : option nat * Pool :=
  match last (free_list_ p) with
  | None => (None, p)
  | Some obj => (Some obj, mkPool (storage_ p) (removelast (free_list_ p)))
  end.

Definition release (obj : option nat) (p : Pool) : Pool :=
  match obj with
  | Some o => mkPool (storage_ p) (free_list_ p ++ [o])
  | None => p
  end.

Definition available (p : Pool) : Z := Z.of_nat (length (free_list_ p)).

Definition pool_capacity (p : Pool) : Z := Z.of_nat (storage_ p).

(** [n] calls of [acquire] in a row, with what each returned. *)
Fixpoint acquire_many (n : nat) (p : Pool) : list (option nat) * Pool :=
  match n with
  | O => ([], p)
  | S n' =>
      let '(obj, p1) := acquire p in
      let '(objs, p2) := acquire_many n' p1 in
      (obj :: objs, p2)
  end.

(** ** TimeSource.h: the simulated clock's controls *)

Definition SimulatedTimeSource_advance (delta_ns : Z) (current_ns_ : Z) : Z :=
  u64 (current_ns_ + delta_ns).

Definition SimulatedTimeSource_set (ns : Z) (current_ns_ : Z) : Z := ns.

(** ** BookLevel.h: the cached total *)

(** [total_qty_] is what the slots of the level add up to, as a 64-bit
    value. *)
Definition level_exact (l : BookLevel) : Prop :=
  total_qty_ l = u64 (level_sum l).

(** ** Further worked examples *)

(** The results of the operations the examples run, on the simulated clock
    stopped at 0. *)
Definition add_result (o : Order) (b : LimitBook)
  : bool * LimitBook * list TradeEvent * option BookTop * Z :=
  add o true b (0 : Z).

Definition add_book (o : Order) (b : LimitBook) : LimitBook :=
  snd (fst (fst (fst (add_result o b)))).

Definition add_trades (o : Order) (b : LimitBook) : list TradeEvent :=
  snd (fst (fst (add_result o b))).

Definition add_top (o : Order) (b : LimitBook) : option BookTop :=
  snd (fst (add_result o b)).

(** A buy of 8 at 100 against the two asks of 5: it takes all of the first
    and 3 of the second. *)
Definition buy_8 : Order := Order_make 3 Buy 100 8 0 Limit.

(** A buy of 12 at 100: it takes both asks and rests with 2. *)
Definition buy_12 : Order := Order_make 3 Buy 100 12 0 Limit.

(** A channel of capacity 4 holding 1 and 2. *)
Definition ring_1_2 : RingBuffer Z :=
  snd (push_all [1; 2] (RingBuffer_new (0 : Z) 3)).

(** The small engine after a resting sell. *)
Definition engine_one_ask : MatchingEngine Z := snd (submit sell_1 small_engine).

(** Recorded messages: two adds, then one stamped later, then an earlier
    one. *)
Definition msg_add_1 : MarketDataMessage := mkMessage 1 "ADD" 1 Sell 100 5 Limit.
Definition msg_add_2 : MarketDataMessage := mkMessage 2 "SUBMIT" 2 Buy 100 3 Limit.
Definition msg_late : MarketDataMessage := mkMessage 9 "CANCEL" 1 Sell 0 0 Limit.
Definition msg_early : MarketDataMessage := mkMessage 3 "ADD" 4 Buy 99 1 Limit.

(** Two symbols on one clock. *)
Definition small_config : EngineConfig := mkConfig 8 8 (1 # 100).

Definition two_symbols : MultiSymbolEngine Z :=
  multi_run (MultiEngineCall "ABC" (CallSubmit sell_1))
    (multi_run (MultiAddSymbol "XYZ" None)
       (multi_run (MultiAddSymbol "ABC" None) (Multi.new small_config 0))).

(** A level holding the two asks. *)
Definition level_two_asks : BookLevel :=
  add_order (BookOrder_of sell_2) (add_order (BookOrder_of sell_1) BookLevel_default).

(** * Properties *)

(** ** Machine integers *)

Lemma u64_in_range z : u64_range (u64 z).
Proof. unfold u64_range, u64. apply Z.mod_pos_bound. lia. Qed.

Lemma u64_id z : u64_range z -> u64 z = z.
Proof. unfold u64_range, u64. intros Hz. apply Z.mod_small. lia. Qed.

Lemma u64_add_sub t q : u64_range t -> u64 (u64 (t + q) - q) = t.
Proof.
  intros Ht. unfold u64.
  rewrite Zminus_mod_idemp_l.
  replace (t + q - q) with t by lia.
  apply Z.mod_small. exact Ht.
Qed.

(** A full fill is the only way for the maker's remainder to reach zero. *)
Lemma fill_all_of_maker q r :
  0 < q -> r < 2 ^ 64 -> u64 (r - Z.min q r) = 0 -> Z.min q r = r.
Proof.
  intros Hq Hr Hz.
  destruct (Z.min_spec q r) as [[Hlt Hm]|[Hle Hm]]; [|exact Hm].
  exfalso. rewrite Hm in Hz. unfold u64 in Hz.
  rewrite Z.mod_small in Hz; lia.
Qed.

(** A partial fill of the maker exhausts the taker. *)
Lemma fill_all_of_taker q r :
  u64 (r - Z.min q r) <> 0 -> u64 (q - Z.min q r) = 0.
Proof.
  intros Hz.
  destruct (Z.min_spec q r) as [[Hlt Hm]|[Hle Hm]]; rewrite Hm in *.
  - replace (q - q) with 0 by lia. reflexivity.
  - exfalso. apply Hz. replace (r - r) with 0 by lia. reflexivity.
Qed.

Section MatchLoop.

Context {T : Type} `{TimeSource T}.

(** ** One iteration of the matching loop *)

Lemma match_step_facts o st st' :
  match_step o st = Some st' -> step_facts o st st'.
Proof.
  unfold match_step.
  destruct (0 <? ms_qty st) eqn:Hq; simpl; [|discriminate].
  apply Z.ltb_lt in Hq.
  destruct (ms_levels st) as [|[bp lvl] rest] eqn:Hl; [discriminate|].
  destruct (negb (is_market o) && price_breaks (order_side o) bp (order_price o))
    eqn:Hbrk; [discriminate|].
  unfold front. destruct lvl as [q tot]. simpl.
  destruct q as [|mk q]; simpl; [discriminate|].
  destruct (now_ns (ms_clock st)) as [now clk] eqn:Hnow.
  assert (Hcross : is_market o = false ->
            price_breaks (order_side o) bp (order_price o) = false).
  { intros Hm. rewrite Hm in Hbrk. exact Hbrk. }
  destruct (u64 (remaining_qty mk - Z.min (ms_qty st) (remaining_qty mk)) =? 0)
    eqn:Hrem; intros [= <-].
  - apply Z.eqb_eq in Hrem.
    eapply (StepFacts o st _ bp (mkLevel (mk :: q) tot) rest mk q now);
      try done.
    left. split; [exact Hrem|]. split; [done|]. simpl.
    unfold write_front_remaining, pop_front, level_empty. simpl.
    rewrite Hrem. by destruct q.
  - apply Z.eqb_neq in Hrem.
    eapply (StepFacts o st _ bp (mkLevel (mk :: q) tot) rest mk q now);
      try done.
    right. split; [exact Hrem|]. split; [done|]. simpl. done.
Qed.

(** The loop stops after the iteration that exhausts the taker. *)
Lemma match_step_closed o st : ms_qty st = 0 -> match_step o st = None.
Proof. intros Hq. unfold match_step. by rewrite Hq. Qed.

Lemma match_loop_closed fuel o st : ms_qty st = 0 -> match_loop fuel o st = st.
Proof.
  intros Hq. destruct fuel as [|fuel]; [done|].
  simpl. by rewrite match_step_closed.
Qed.

Lemma slot_count_cons p l m :
  slot_count ((p, l) :: m) = (length (orders_ l) + slot_count m)%nat.
Proof. reflexivity. Qed.

(** An iteration removes a resting slot or exhausts the taker. *)
Lemma match_step_progress o st st' :
  match_step o st = Some st' ->
  (slot_count (ms_levels st') < slot_count (ms_levels st))%nat \/ ms_qty st' = 0.
Proof.
  intros Hs.
  destruct (match_step_facts _ _ _ Hs)
    as [bp lvl rest mk q now fill rem trade _ Hlv Hord _ _ Hqty _ Hres].
  destruct Hres as [(Hz & _ & Hl)|(Hnz & _ & _)].
  - left. rewrite Hlv, Hl, slot_count_cons, Hord.
    destruct q; simpl; [lia|].
    rewrite slot_count_cons. simpl. lia.
  - right. rewrite Hqty. by apply fill_all_of_taker.
Qed.

(** With more rounds than resting slots, the loop has exited: its next
    iteration would not run. *)
Lemma match_loop_exits fuel o st :
  (slot_count (ms_levels st) < fuel)%nat ->
  match_step o (match_loop fuel o st) = None.
Proof.
  revert st. induction fuel as [|fuel IH]; intros st Hf; [lia|].
  simpl. destruct (match_step o st) as [st'|] eqn:Hs; [|exact Hs].
  destruct (match_step_progress _ _ _ Hs) as [Hlt|Hz].
  - apply IH. lia.
  - rewrite match_loop_closed by exact Hz. by apply match_step_closed.
Qed.

(** More rounds change nothing once the loop has exited. *)
Lemma match_loop_stable fuel fuel' o st :
  (slot_count (ms_levels st) < fuel)%nat -> (fuel <= fuel')%nat ->
  match_loop fuel' o st = match_loop fuel o st.
Proof.
  revert fuel' st. induction fuel as [|fuel IH]; intros fuel' st Hf Hle; [lia|].
  destruct fuel' as [|fuel']; [lia|].
  simpl. destruct (match_step o st) as [st'|] eqn:Hs; [|done].
  destruct (match_step_progress _ _ _ Hs) as [Hlt|Hz].
  - apply IH; lia.
  - by rewrite !match_loop_closed.
Qed.

(** Properties kept by every iteration are kept by the loop. *)
Lemma match_loop_invariant (P : MatchState -> Prop) o :
  (forall st st', P st -> match_step o st = Some st' -> P st') ->
  forall fuel st, P st -> P (match_loop fuel o st).
Proof.
  intros Hstep fuel. induction fuel as [|fuel IH]; intros st HP; [done|].
  simpl. destruct (match_step o st) as [st'|] eqn:Hs; [|done].
  apply IH. by eapply Hstep.
Qed.

End MatchLoop.

(** ** The ordered price maps *)

Lemma side_before_irrefl s p : side_before s p p = false.
Proof. destruct s; simpl; lia. Qed.

Lemma side_before_trans s p q r :
  side_before s p q = true -> side_before s q r = true -> side_before s p r = true.
Proof. destruct s; simpl; lia. Qed.

Lemma side_before_total s p q :
  p <> q -> side_before s p q = false -> side_before s q p = true.
Proof. destruct s; simpl; lia. Qed.

Lemma map_sorted_nil before : map_sorted before [].
Proof. constructor. Qed.

Lemma map_sorted_cons before k l m :
  map_sorted before ((k, l) :: m) <->
  Forall (fun k' => before k k' = true) (keys m) /\ map_sorted before m.
Proof.
  unfold map_sorted. simpl. split.
  - intros Hs. apply StronglySorted_inv in Hs as [Hs Hf].
    split; [|done]. apply Forall_forall. intros x Hx.
    rewrite List.Forall_forall in Hf. apply Hf. by apply list_elem_of_In.
  - intros [Hf Hs]. constructor; [done|].
    apply List.Forall_forall. intros x Hx.
    rewrite Forall_forall in Hf. apply Hf. by apply list_elem_of_In.
Qed.

Lemma elem_of_keys p m : p ∈ keys m <-> exists l, (p, l) ∈ m.
Proof.
  unfold keys. rewrite list_elem_of_fmap. split.
  - intros [[k l] [-> Hin]]. by exists l.
  - intros [l Hin]. by exists (p, l).
Qed.

Lemma map_sorted_head_fresh s k l m :
  map_sorted (side_before s) ((k, l) :: m) -> k ∉ keys m.
Proof.
  intros [Hf _]%map_sorted_cons Hin.
  rewrite Forall_forall in Hf. specialize (Hf _ Hin).
  by rewrite side_before_irrefl in Hf.
Qed.

Lemma map_find_elem p l m : map_find p m = Some l -> (p, l) ∈ m.
Proof.
  induction m as [|[k v] m IH]; simpl; [done|].
  destruct (decide (k = p)) as [->|Hne].
  - intros [= ->]. left.
  - intros Hf. right. by apply IH.
Qed.

Lemma map_find_none p m : map_find p m = None <-> p ∉ keys m.
Proof.
  induction m as [|[k v] m IH]; simpl.
  - split; [intros _ Hin; by apply elem_of_nil in Hin|done].
  - destruct (decide (k = p)) as [->|Hne].
    + split; [done|]. intros Hn. exfalso. apply Hn. left.
    + rewrite IH. split.
      * intros Hn Hin. apply elem_of_cons in Hin as [?|?]; [congruence|done].
      * intros Hn Hin. apply Hn. by right.
Qed.

Lemma map_find_sorted s p l m :
  map_sorted (side_before s) m -> (p, l) ∈ m -> map_find p m = Some l.
Proof.
  induction m as [|[k v] m IH]; intros Hs Hin.
  - by apply elem_of_nil in Hin.
  - simpl. apply elem_of_cons in Hin as [[= <- <-]|Hin].
    + by rewrite decide_True.
    + destruct (decide (k = p)) as [->|Hne].
      * exfalso. eapply map_sorted_head_fresh; [exact Hs|].
        apply elem_of_keys. by exists l.
      * apply IH; [|done]. by apply map_sorted_cons in Hs as [_ ?].
Qed.

Lemma map_erase_subseteq p m : map_erase p m ⊆ m.
Proof.
  induction m as [|[k v] m IH]; simpl; [done|].
  destruct (decide (k = p)).
  - intros x Hx. by right.
  - intros x Hx. apply elem_of_cons in Hx as [->|Hx]; [left|right; by apply IH].
Qed.

Lemma keys_subseteq m m' : m ⊆ m' -> keys m ⊆ keys m'.
Proof.
  intros Hsub p [l Hin]%elem_of_keys. apply elem_of_keys. exists l. by apply Hsub.
Qed.

Lemma map_erase_sorted before p m :
  map_sorted before m -> map_sorted before (map_erase p m).
Proof.
  induction m as [|[k v] m IH]; simpl; [done|].
  intros [Hf Hs]%map_sorted_cons.
  destruct (decide (k = p)); [done|].
  apply map_sorted_cons. split; [|by apply IH].
  rewrite Forall_forall in Hf |- *. intros x Hx. apply Hf.
  by apply (keys_subseteq _ _ (map_erase_subseteq p m)).
Qed.

Lemma map_store_keys p v m : keys (map_store p v m) = keys m.
Proof.
  induction m as [|[k l] m IH]; simpl; [done|].
  destruct (decide (k = p)); simpl; [done|]. by rewrite IH.
Qed.

Lemma map_store_sorted before p v m :
  map_sorted before m -> map_sorted before (map_store p v m).
Proof. unfold map_sorted. by rewrite map_store_keys. Qed.

Lemma map_subscript_upsert before p f m :
  match map_find p (map_subscript before p m) with
  | Some l => map_store p (f l) (map_subscript before p m)
  | None => map_subscript before p m
  end = map_upsert before p f m.
Proof.
  induction m as [|[k l] m IH]; simpl.
  - by rewrite !decide_True.
  - destruct (decide (k = p)) as [->|Hne]; simpl.
    + by rewrite !decide_True.
    + destruct (before p k); simpl.
      * by rewrite !decide_True.
      * rewrite !decide_False by done. rewrite <- IH.
        destruct (map_find p (map_subscript before p m)); simpl;
          rewrite ?decide_False by done; done.
Qed.

Lemma map_upsert_elem s p f m x :
  map_sorted (side_before s) m ->
  x ∈ map_upsert (side_before s) p f m ->
  x ∈ m \/
  (exists l, x = (p, f l) /\ (p, l) ∈ m) \/
  (x = (p, f BookLevel_default) /\ p ∉ keys m).
Proof.
  induction m as [|[k l] m IH]; simpl; intros Hs.
  - intros ->%list_elem_of_singleton. right. right. split; [done|].
    intros Hin. by apply elem_of_nil in Hin.
  - destruct (decide (k = p)) as [->|Hne].
    + intros [->|Hx]%elem_of_cons.
      * right. left. exists l. split; [done|]. left.
      * left. by right.
    + apply map_sorted_cons in Hs as [Hf Hs].
      destruct (side_before s p k) eqn:Hb.
      * intros [->|Hx]%elem_of_cons; [|by left].
        right. right. split; [done|].
        intros [?|Hin]%elem_of_cons; [congruence|].
        rewrite Forall_forall in Hf. specialize (Hf _ Hin).
        pose proof (side_before_trans _ _ _ _ Hb Hf) as Hpp.
        by rewrite side_before_irrefl in Hpp.
      * intros [->|Hx]%elem_of_cons; [left; left|].
        destruct (IH Hs Hx) as [?|[(l' & -> & ?)|[-> Hn]]].
        -- left. by right.
        -- right. left. exists l'. split; [done|]. by right.
        -- right. right. split; [done|].
           intros [?|?]%elem_of_cons; [congruence|done].
Qed.

Lemma map_upsert_keys s p f m :
  keys (map_upsert (side_before s) p f m) ⊆ p :: keys m.
Proof.
  induction m as [|[k l] m IH]; simpl.
  - done.
  - destruct (decide (k = p)) as [->|Hne]; simpl.
    + intros x Hx. by right.
    + destruct (side_before s p k); simpl; [done|].
      intros x [->|Hx]%elem_of_cons.
      * right. left.
      * apply IH in Hx. apply elem_of_cons in Hx as [->|Hx]; [left|].
        right. by right.
Qed.

Lemma map_upsert_sorted s p f m :
  map_sorted (side_before s) m ->
  map_sorted (side_before s) (map_upsert (side_before s) p f m).
Proof.
  induction m as [|[k l] m IH]; simpl; intros Hs.
  - apply map_sorted_cons. split; [constructor|apply map_sorted_nil].
  - destruct (decide (k = p)) as [->|Hne].
    + apply map_sorted_cons in Hs. by apply map_sorted_cons.
    + destruct (side_before s p k) eqn:Hb.
      * apply map_sorted_cons. split; [|done].
        apply map_sorted_cons in Hs as [Hf Hs]. simpl.
        constructor; [done|].
        rewrite Forall_forall in Hf |- *. intros x Hx.
        eapply side_before_trans; [exact Hb|by apply Hf].
      * apply map_sorted_cons in Hs as [Hf Hs].
        apply map_sorted_cons. split; [|by apply IH].
        rewrite Forall_forall in Hf |- *. intros x Hx.
        apply map_upsert_keys in Hx. apply elem_of_cons in Hx as [->|Hx].
        -- apply side_before_total; [congruence|done].
        -- by apply Hf.
Qed.

(** Inserting a level for a fresh price and erasing it again restores the
    map. *)
Lemma map_erase_upsert_fresh before p f m :
  p ∉ keys m -> map_erase p (map_upsert before p f m) = m.
Proof.
  induction m as [|[k l] m IH]; simpl; intros Hn.
  - by rewrite decide_True.
  - destruct (decide (k = p)) as [->|Hne].
    + exfalso. apply Hn. left.
    + destruct (before p k); simpl.
      * by rewrite decide_True.
      * rewrite decide_False by done. f_equal. apply IH.
        intros Hin. apply Hn. by right.
Qed.

(** Writing the old level back after an update of an existing price
    restores the map. *)
Lemma map_store_upsert_present s p f l m :
  map_sorted (side_before s) m ->
  map_find p m = Some l -> map_store p l (map_upsert (side_before s) p f m) = m.
Proof.
  induction m as [|[k v] m IH]; simpl; [done|].
  intros Hs. destruct (decide (k = p)) as [->|Hne]; simpl.
  - intros [= ->]. by rewrite decide_True.
  - intros Hf. apply map_sorted_cons in Hs as [Hfa Hs].
    destruct (side_before s p k) eqn:Hb; simpl.
    + exfalso. apply map_find_elem in Hf.
      assert (Hin : p ∈ keys m) by (apply elem_of_keys; eauto).
      rewrite Forall_forall in Hfa. specialize (Hfa _ Hin).
      pose proof (side_before_trans _ _ _ _ Hb Hfa) as Hpp.
      by rewrite side_before_irrefl in Hpp.
    + rewrite decide_False by done. f_equal. by apply IH.
Qed.

Lemma map_find_upsert s p f m :
  map_sorted (side_before s) m ->
  map_find p (map_upsert (side_before s) p f m) =
  Some (f (default BookLevel_default (map_find p m))).
Proof.
  induction m as [|[k v] m IH]; simpl; intros Hs.
  - by rewrite decide_True.
  - apply map_sorted_cons in Hs as [Hfa Hs].
    destruct (decide (k = p)) as [->|Hne]; simpl.
    + by rewrite decide_True.
    + destruct (side_before s p k) eqn:Hb; simpl.
      * rewrite decide_True by done.
        destruct (map_find p m) as [l|] eqn:Hf; [|done].
        exfalso. apply map_find_elem in Hf.
        assert (Hin : p ∈ keys m) by (apply elem_of_keys; eauto).
        rewrite Forall_forall in Hfa. specialize (Hfa _ Hin).
        pose proof (side_before_trans _ _ _ _ Hb Hfa) as Hpp.
        by rewrite side_before_irrefl in Hpp.
      * rewrite decide_False by done. by apply IH.
Qed.

(** ** Book invariants: basic facts *)

Lemma opposite_ne s : opposite s <> s.
Proof. by destruct s. Qed.

Lemma opposite_involutive s : opposite (opposite s) = s.
Proof. by destruct s. Qed.

Lemma side_levels_with_same s m b : side_levels s (with_side_levels s m b) = m.
Proof. by destruct s. Qed.

Lemma side_levels_with_other s m b :
  side_levels (opposite s) (with_side_levels s m b) = side_levels (opposite s) b.
Proof. by destruct s. Qed.

Lemma side_levels_with_index s ix b :
  side_levels s (with_index ix b) = side_levels s b.
Proof. by destruct s. Qed.

Lemma order_index_with_side s m b :
  order_index_ (with_side_levels s m b) = order_index_ b.
Proof. by destruct s. Qed.

Lemma book_inv_sides s b :
  book_inv b <->
  side_inv (order_index_ b) s (side_levels s b) /\
  side_inv (order_index_ b) (opposite s) (side_levels (opposite s) b).
Proof. unfold book_inv. destruct s; simpl; tauto. Qed.

Lemma side_inv_level ix s m p l :
  side_inv ix s m -> (p, l) ∈ m -> level_inv ix s p l.
Proof.
  intros [_ Hf] Hin. rewrite Forall_forall in Hf. exact (Hf _ Hin).
Qed.

Lemma level_inv_slot ix s p l bo :
  level_inv ix s p l -> bo ∈ orders_ l -> slot_inv ix s p bo.
Proof.
  intros (_ & _ & _ & Hf) Hin. rewrite Forall_forall in Hf. exact (Hf _ Hin).
Qed.

(** A resting slot is indexed at the level it rests in. *)
Lemma side_inv_located ix s m i :
  side_inv ix s m -> has_slot i m ->
  exists p, ix !! i = Some (mkLoc s p) /\ p ∈ keys m.
Proof.
  intros Hi (p & l & bo & Hl & Hbo & <-).
  exists p. split.
  - eapply level_inv_slot; [|exact Hbo]. by eapply side_inv_level.
  - apply elem_of_keys. by exists l.
Qed.

Lemma side_inv_unindexed ix s m i : side_inv ix s m -> ix !! i = None -> ~ has_slot i m.
Proof.
  intros Hi Hn Hs. destruct (side_inv_located _ _ _ _ Hi Hs) as (p & Hp & _).
  congruence.
Qed.

Lemma side_inv_other_side ix s m i p :
  side_inv ix s m -> ix !! i = Some (mkLoc (opposite s) p) -> ~ has_slot i m.
Proof.
  intros Hi Hn Hs. destruct (side_inv_located _ _ _ _ Hi Hs) as (p' & Hp & _).
  rewrite Hn in Hp. injection Hp as Hs' _. by apply opposite_ne in Hs'.
Qed.

Lemma slot_inv_reindex ix ix' s p bo :
  ix' !! slot_id bo = ix !! slot_id bo -> slot_inv ix s p bo -> slot_inv ix' s p bo.
Proof. unfold slot_inv. intros ->. tauto. Qed.

(** The invariant of a side only reads the index at the ids of its slots. *)
Lemma side_inv_reindex ix ix' s m :
  (forall i, has_slot i m -> ix' !! i = ix !! i) ->
  side_inv ix s m -> side_inv ix' s m.
Proof.
  intros Hix [Hs Hf]. split; [done|].
  rewrite Forall_forall in Hf |- *. intros [p l] Hin.
  destruct (Hf _ Hin) as (Hne & Hnd & Hr & Hsl). simpl in *.
  split; [done|]. split; [done|]. split; [done|].
  rewrite Forall_forall in Hsl |- *. intros bo Hbo.
  eapply slot_inv_reindex; [|by apply Hsl].
  apply Hix. by exists p, l, bo.
Qed.

Lemma side_inv_delete ix s m i :
  ~ has_slot i m -> side_inv ix s m -> side_inv (delete i ix) s m.
Proof.
  intros Hn. apply side_inv_reindex. intros j Hj.
  apply lookup_delete_ne. by intros ->.
Qed.

Lemma side_inv_insert ix s m i loc :
  ix !! i = None -> side_inv ix s m -> side_inv (<[i:=loc]> ix) s m.
Proof.
  intros Hn Hi. eapply side_inv_reindex; [|exact Hi]. intros j Hj.
  apply lookup_insert_ne. intros ->. by eapply side_inv_unindexed.
Qed.

Lemma side_inv_nil ix s : side_inv ix s [].
Proof. split; [apply map_sorted_nil|constructor]. Qed.

Lemma side_inv_cons ix s p l m :
  side_inv ix s ((p, l) :: m) <->
  Forall (fun k' => side_before s p k' = true) (keys m) /\
  level_inv ix s p l /\ side_inv ix s m.
Proof.
  unfold side_inv. rewrite map_sorted_cons, Forall_cons. simpl. tauto.
Qed.

Lemma book_inv_new : book_inv LimitBook_new.
Proof. split; apply side_inv_nil. Qed.

Section MatchInvariants.

Context {T : Type} `{TimeSource T}.

(** ** The matching loop keeps the invariants *)

Lemma match_step_inv o s own st st' :
  side_inv (ms_index st) (opposite s) (ms_levels st) ->
  side_inv (ms_index st) s own ->
  match_step o st = Some st' ->
  side_inv (ms_index st') (opposite s) (ms_levels st') /\
  side_inv (ms_index st') s own.
Proof.
  intros Hopp Hown Hs.
  destruct (match_step_facts _ _ _ Hs)
    as [bp lvl rest mk q now fill rem trade _ Hlv Hord _ _ _ _ Hres].
  rewrite Hlv in Hopp. apply side_inv_cons in Hopp as (Hbefore & Hlvl & Hrest).
  destruct Hlvl as (_ & Hnd & Hrange & Hslots).
  unfold slot_ids in Hnd. rewrite Hord in Hnd, Hslots. simpl in Hnd.
  apply NoDup_cons in Hnd as [Hfresh Hnd].
  apply Forall_cons in Hslots as [Hmk Hslots].
  destruct Hmk as (Hix & Hty & Hsd & Hpr & Hrm).
  destruct Hres as [(Hz & -> & ->)|(Hnz & -> & ->)].
  - (* the maker is filled and leaves the book *)
    assert (Hrest_free : ~ has_slot (slot_id mk) rest).
    { intros Hin.
      destruct (side_inv_located _ _ _ _ Hrest Hin) as (p' & Hp' & Hk).
      rewrite Hix in Hp'. injection Hp' as <-.
      rewrite Forall_forall in Hbefore. specialize (Hbefore _ Hk).
      by rewrite side_before_irrefl in Hbefore. }
    split.
    + destruct q as [|m2 q].
      * by apply side_inv_delete.
      * apply side_inv_cons. split; [done|]. split.
        -- split; [done|]. split; [done|]. split; [apply u64_in_range|]. simpl.
           rewrite Forall_forall in Hslots |- *. intros bo Hbo.
           eapply slot_inv_reindex; [|by apply Hslots].
           apply lookup_delete_ne. intros Heq. apply Hfresh.
           apply list_elem_of_fmap. exists bo. by split.
        -- by apply side_inv_delete.
    + apply side_inv_delete; [|done].
      eapply side_inv_other_side; [exact Hown|exact Hix].
  - (* the maker is partially filled and stays at the front *)
    split; [|done].
    apply side_inv_cons. split; [done|]. split; [|done].
    split; [done|]. split; [|split; [apply u64_in_range|]]; simpl.
    + unfold slot_ids. simpl. by apply NoDup_cons.
    + apply Forall_cons. split; [|done].
      split; [done|]. split; [done|]. split; [done|]. split; [done|].
      apply u64_in_range.
Qed.

Lemma match_loop_inv o s own fuel st :
  side_inv (ms_index st) (opposite s) (ms_levels st) ->
  side_inv (ms_index st) s own ->
  side_inv (ms_index (match_loop fuel o st)) (opposite s)
           (ms_levels (match_loop fuel o st)) /\
  side_inv (ms_index (match_loop fuel o st)) s own.
Proof.
  intros Hopp Hown.
  apply (match_loop_invariant
           (fun st => side_inv (ms_index st) (opposite s) (ms_levels st) /\
                      side_inv (ms_index st) s own)); [|done].
  intros st1 st2 [H1 H2] Hs. by eapply match_step_inv.
Qed.

Lemma match_order_inv o b clk w b' trades clk' :
  book_inv b -> match_order o b clk = (w, b', trades, clk') -> book_inv b'.
Proof.
  intros Hb. unfold match_order. intros [= _ <- _ _].
  apply (book_inv_sides (order_side o)) in Hb as [Hown Hopp].
  set (st0 := mkMatch _ _ _ _ _).
  destruct (match_loop_inv o (order_side o) (side_levels (order_side o) b)
              (S (S (slot_count (side_levels (opposite (order_side o)) b)))) st0)
    as [Hopp' Hown']; [done|done|].
  apply (book_inv_sides (order_side o)).
  destruct (order_side o); simpl in *; done.
Qed.

End MatchInvariants.

(** ** Sharper membership facts for sorted maps *)

Lemma map_erase_elem s p m x :
  map_sorted (side_before s) m -> x ∈ map_erase p m -> x ∈ m /\ fst x <> p.
Proof.
  induction m as [|[k l] m IH]; simpl; intros Hs.
  - intros Hx. by apply elem_of_nil in Hx.
  - destruct (decide (k = p)) as [->|Hne].
    + intros Hx. split; [by right|].
      intros <-. eapply map_sorted_head_fresh; [exact Hs|].
      apply elem_of_keys. exists (snd x). by destruct x.
    + apply map_sorted_cons in Hs as [_ Hs].
      intros [->|Hx]%elem_of_cons; [split; [left|done]|].
      destruct (IH Hs Hx). split; [by right|done].
Qed.

Lemma map_store_elem_sorted s p v m x :
  map_sorted (side_before s) m -> x ∈ map_store p v m ->
  x = (p, v) \/ (x ∈ m /\ fst x <> p).
Proof.
  induction m as [|[k l] m IH]; simpl; intros Hs.
  - intros Hx. by apply elem_of_nil in Hx.
  - destruct (decide (k = p)) as [->|Hne].
    + intros [->|Hx]%elem_of_cons; [by left|]. right. split; [by right|].
      intros <-. eapply map_sorted_head_fresh; [exact Hs|].
      apply elem_of_keys. exists (snd x). by destruct x.
    + apply map_sorted_cons in Hs as [_ Hs].
      intros [->|Hx]%elem_of_cons; [right; split; [left|done]|].
      destruct (IH Hs Hx) as [?|[? ?]]; [by left|]. right. split; [by right|done].
Qed.

(** ** The level queue *)

Lemma remove_first_some i q q' r :
  remove_first i q = Some (q', r) ->
  exists q1 bo q2,
    q = q1 ++ bo :: q2 /\ q' = q1 ++ q2 /\ slot_id bo = i /\
    r = remaining_qty bo /\ i ∉ map slot_id q1.
Proof.
  revert q'. induction q as [|s q IH]; simpl; intros q'; [done|].
  destruct (decide (order_id (order s) = i)) as [Heq|Hne].
  - intros [= <- <-]. exists [], s, q. repeat split; try done.
    intros Hin. by apply elem_of_nil in Hin.
  - destruct (remove_first i q) as [[q'' r']|] eqn:Hr; [|done].
    intros [= <- <-].
    destruct (IH _ eq_refl) as (q1 & bo & q2 & -> & -> & Hid & Hrem & Hfresh).
    exists (s :: q1), bo, q2. repeat split; try done.
    simpl. intros [?|?]%elem_of_cons; [|done]. by apply Hne.
Qed.

Lemma remove_first_none i q : remove_first i q = None <-> i ∉ map slot_id q.
Proof.
  induction q as [|s q IH]; simpl.
  - split; [|done]. intros _ Hin. by apply elem_of_nil in Hin.
  - destruct (decide (order_id (order s) = i)) as [Heq|Hne].
    + split; [done|]. intros Hn. exfalso. apply Hn. rewrite <- Heq. left.
    + destruct (remove_first i q) as [[q'' r']|] eqn:Hr.
      * split; [done|]. intros Hn. exfalso.
        assert (Hq : i ∉ map slot_id q) by (intros ?; apply Hn; by right).
        apply IH in Hq. done.
      * split; [|done]. intros _ [?|Hin]%elem_of_cons; [by apply Hne|].
        by apply IH in Hin.
Qed.

(** Appending a fresh order leaves the queue as it was once the order is
    removed again. *)
Lemma remove_first_app_fresh i q bo :
  i ∉ map slot_id q -> slot_id bo = i ->
  remove_first i (q ++ [bo]) = Some (q, remaining_qty bo).
Proof.
  induction q as [|s q IH]; simpl; intros Hn Hid.
  - by rewrite decide_True.
  - rewrite decide_False.
    + rewrite IH; [done| |done]. intros Hin. apply Hn. by right.
    + intros Heq. apply Hn. rewrite <- Heq. left.
Qed.

Lemma level_inv_reindex ix ix' s p l :
  (forall bo, bo ∈ orders_ l -> ix' !! slot_id bo = ix !! slot_id bo) ->
  level_inv ix s p l -> level_inv ix' s p l.
Proof.
  intros Hix (Hne & Hnd & Hr & Hsl).
  split; [done|]. split; [done|]. split; [done|].
  rewrite Forall_forall in Hsl |- *. intros bo Hbo.
  eapply slot_inv_reindex; [by apply Hix|by apply Hsl].
Qed.

Lemma side_inv_intro ix s m :
  map_sorted (side_before s) m ->
  (forall p l, (p, l) ∈ m -> level_inv ix s p l) ->
  side_inv ix s m.
Proof.
  intros Hs Hl. split; [done|]. apply Forall_forall. intros [p l] Hin. by apply Hl.
Qed.

Lemma side_inv_sorted ix s m : side_inv ix s m -> map_sorted (side_before s) m.
Proof. by intros [? _]. Qed.

(** A slot indexed at price [p] rests in the level of that price. *)
Lemma side_inv_slot_at ix s m i p :
  side_inv ix s m -> ix !! i = Some (mkLoc s p) -> has_slot i m ->
  exists l, map_find p m = Some l /\ i ∈ slot_ids l.
Proof.
  intros Hi Hix (p' & l & bo & Hl & Hbo & Hid).
  pose proof (level_inv_slot _ _ _ _ _ (side_inv_level _ _ _ _ _ Hi Hl) Hbo)
    as (Hloc & _).
  rewrite Hid, Hix in Hloc. injection Hloc as ->.
  exists l. split.
  - eapply map_find_sorted; [by eapply side_inv_sorted|done].
  - apply list_elem_of_fmap. by exists bo.
Qed.

(** ** add_resting_order keeps the invariants *)

Lemma add_order_level_inv ix s p l o :
  NoDup (slot_ids l) ->
  Forall (slot_inv ix s p) (orders_ l) ->
  ix !! order_id o = None ->
  order_type o = Limit -> order_side o = s -> order_price o = p ->
  u64_range (order_qty o) ->
  level_inv (<[order_id o := mkLoc s p]> ix) s p (add_order (BookOrder_of o) l).
Proof.
  intros Hnd Hsl Hfresh Hty Hsd Hpr Hq.
  assert (Hne : forall bo, bo ∈ orders_ l -> slot_id bo <> order_id o).
  { intros bo Hbo Heq. rewrite Forall_forall in Hsl.
    destruct (Hsl _ Hbo) as (Hix & _). rewrite Heq in Hix. congruence. }
  split; [|split; [|split; [apply u64_in_range|]]]; simpl.
  - intros Heq. by apply app_eq_nil in Heq as [_ ?].
  - unfold slot_ids. simpl. rewrite map_app. simpl.
    apply NoDup_app. split; [done|]. split; [|apply NoDup_singleton].
    intros i Hin ->%list_elem_of_singleton.
    apply list_elem_of_fmap in Hin as (bo & Heq & Hbo).
    by apply (Hne bo).
  - apply Forall_app. split.
    + rewrite Forall_forall in Hsl |- *. intros bo Hbo.
      eapply slot_inv_reindex; [|by apply Hsl].
      apply lookup_insert_ne. intros Heq. by apply (Hne bo).
    + apply Forall_singleton. split; [apply lookup_insert_eq|]. done.
Qed.

Lemma add_resting_order_levels o b :
  add_resting_order o b =
  with_index (<[order_id o := mkLoc (order_side o) (order_price o)]> (order_index_ b))
    (with_side_levels (order_side o)
       (map_upsert (side_before (order_side o)) (order_price o)
                   (add_order (BookOrder_of o)) (side_levels (order_side o) b)) b).
Proof. unfold add_resting_order. by rewrite map_subscript_upsert. Qed.

Lemma add_resting_order_inv o b :
  book_inv b ->
  order_index_ b !! order_id o = None ->
  order_type o = Limit -> u64_range (order_qty o) ->
  book_inv (add_resting_order o b).
Proof.
  intros Hb Hfresh Hty Hq. rewrite add_resting_order_levels.
  apply (book_inv_sides (order_side o)) in Hb as [Hown Hopp].
  apply (book_inv_sides (order_side o)).
  rewrite !side_levels_with_index, side_levels_with_same, side_levels_with_other.
  simpl. rewrite ?order_index_with_side. split.
  - apply side_inv_intro.
    + apply map_upsert_sorted. by eapply side_inv_sorted.
    + intros p l Hin.
      apply map_upsert_elem in Hin; [|by eapply side_inv_sorted].
      destruct Hin as [Hin|[(l0 & [= -> ->] & Hin)|([= -> ->] & _)]].
      * eapply level_inv_reindex; [|by eapply side_inv_level].
        intros bo Hbo. apply lookup_insert_ne. intros Heq.
        eapply (side_inv_unindexed _ _ _ _ Hown Hfresh).
        by exists p, l, bo.
      * destruct (side_inv_level _ _ _ _ _ Hown Hin) as (_ & Hnd & _ & Hsl).
        by apply add_order_level_inv.
      * apply add_order_level_inv; try done. apply NoDup_nil_2.
  - by apply side_inv_insert.
Qed.

Section CancelInvariants.

Context {T : Type} `{TimeSource T}.

(** ** cancel keeps the invariants *)

Lemma cancel_unknown i b clk :
  order_index_ b !! i = None -> cancel i b clk = (false, b, None, clk).
Proof. intros Hn. unfold cancel. by rewrite Hn. Qed.

Lemma cancel_known i b clk loc :
  order_index_ b !! i = Some loc ->
  cancel i b clk =
  (true,
   with_index (delete i (order_index_ b))
     (with_side_levels (loc_side loc)
        (fst (cancel_levels i (loc_price loc) (side_levels (loc_side loc) b))) b),
   Some (mkCancel i
           (snd (cancel_levels i (loc_price loc) (side_levels (loc_side loc) b)))
           (fst (now_ns clk))),
   snd (now_ns clk)).
Proof.
  intros Hl. unfold cancel, cancel_levels. rewrite Hl.
  destruct (map_find _ _) as [l|]; [destruct (remove_order i l) as [[l' r]|]|];
    by destruct (now_ns clk).
Qed.

Lemma cancel_levels_inv ix s m i p :
  side_inv ix s m -> ix !! i = Some (mkLoc s p) ->
  side_inv (delete i ix) s (fst (cancel_levels i p m)).
Proof.
  intros Hi Hix. pose proof (side_inv_sorted _ _ _ Hi) as Hsorted.
  unfold cancel_levels.
  destruct (map_find p m) as [l|] eqn:Hfind.
  - pose proof (side_inv_level _ _ _ _ _ Hi (map_find_elem _ _ _ Hfind))
      as (Hne & Hnd & Hr & Hsl).
    assert (Hothers : forall p' l', (p', l') ∈ m -> p' <> p ->
              level_inv (delete i ix) s p' l').
    { intros p' l' Hin Hp'.
      eapply level_inv_reindex; [|by eapply side_inv_level].
      intros bo Hbo. apply lookup_delete_ne. intros Heq.
      pose proof (level_inv_slot _ _ _ _ _ (side_inv_level _ _ _ _ _ Hi Hin) Hbo)
        as (Hloc & _).
      rewrite <- Heq, Hix in Hloc. by injection Hloc. }
    unfold remove_order.
    destruct (remove_first i (orders_ l)) as [[q' r]|] eqn:Hrem; simpl.
    + destruct (remove_first_some _ _ _ _ Hrem)
        as (q1 & bo & q2 & Hq & -> & Hid & -> & Hfresh).
      unfold slot_ids in Hnd. rewrite Hq, map_app in Hnd. simpl in Hnd.
      apply NoDup_app in Hnd as (Hnd1 & Hdisj & Hnd2).
      apply NoDup_cons in Hnd2 as [Hbo2 Hnd2].
      rewrite Hq in Hsl. apply Forall_app in Hsl as [Hsl1 Hsl2].
      apply Forall_cons in Hsl2 as [_ Hsl2].
      unfold level_empty. simpl.
      destruct (q1 ++ q2) as [|s0 q0] eqn:Hq12.
      * apply side_inv_intro; [by apply map_erase_sorted|].
        intros p' l' [Hin Hp']%(map_erase_elem s); [|done]. by apply Hothers.
      * apply side_inv_intro; [by apply map_store_sorted|].
        intros p' l' [[= -> ->]|[Hin Hp']]%(map_store_elem_sorted s); [| |done].
        -- split; [done|]. rewrite <- Hq12.
           split; [|split; [apply u64_in_range|]]; simpl.
           ++ unfold slot_ids. simpl. rewrite map_app. apply NoDup_app.
              split; [done|]. split; [|done].
              intros x Hx1 Hx2. apply (Hdisj x Hx1). by right.
           ++ apply Forall_app. split.
              ** rewrite Forall_forall in Hsl1 |- *. intros x Hx.
                 eapply slot_inv_reindex; [|by apply Hsl1].
                 apply lookup_delete_ne. intros Heq. apply Hfresh.
                 apply list_elem_of_fmap. exists x. by split.
              ** rewrite Forall_forall in Hsl2 |- *. intros x Hx.
                 eapply slot_inv_reindex; [|by apply Hsl2].
                 apply lookup_delete_ne. intros Heq. apply Hbo2.
                 apply list_elem_of_fmap. exists x. split; [congruence|done].
        -- by apply Hothers.
    + apply remove_first_none in Hrem.
      unfold level_empty. destruct (orders_ l) eqn:Ho; [done|]. simpl.
      apply side_inv_delete; [|done].
      intros Hslot.
      destruct (side_inv_slot_at _ _ _ _ _ Hi Hix Hslot) as (lv & Hf0 & Hin0).
      rewrite Hfind in Hf0. injection Hf0 as <-.
      unfold slot_ids in Hin0. by rewrite Ho in Hin0.
  - simpl. apply side_inv_delete; [|done].
    intros Hslot.
    destruct (side_inv_slot_at _ _ _ _ _ Hi Hix Hslot) as (lv & Hf0 & _).
    congruence.
Qed.

Lemma cancel_inv i b clk ok b' ev clk' :
  book_inv b -> cancel i b clk = (ok, b', ev, clk') -> book_inv b'.
Proof.
  intros Hb. destruct (order_index_ b !! i) as [[s p]|] eqn:Hix.
  - rewrite (cancel_known _ _ _ _ Hix). intros [= _ <- _ _]. simpl.
    destruct (proj1 (book_inv_sides s b) Hb) as [Hown Hopp].
    apply (book_inv_sides s).
    rewrite !side_levels_with_index, side_levels_with_same, side_levels_with_other.
    simpl. rewrite ?order_index_with_side. split.
    + by apply cancel_levels_inv.
    + apply side_inv_delete; [|done].
      eapply side_inv_other_side; [exact Hopp|].
      rewrite opposite_involutive. exact Hix.
  - rewrite cancel_unknown by done. by intros [= _ <- _ _].
Qed.

End CancelInvariants.

Section OperationInvariants.

Context {T : Type} `{TimeSource T}.

(** ** What match_order leaves alone *)

Lemma match_loop_index_shrinks o fuel st i :
  ms_index st !! i = None -> ms_index (match_loop fuel o st) !! i = None.
Proof.
  apply (match_loop_invariant (fun st => ms_index st !! i = None)).
  intros st1 st2 Hn Hs.
  destruct (match_step_facts _ _ _ Hs)
    as [bp lvl rest mk q now fill rem trade _ _ _ _ _ _ _ Hres].
  destruct Hres as [(_ & -> & _)|(_ & -> & _)]; [|done].
  rewrite lookup_delete_None. by right.
Qed.

Lemma match_loop_qty_range o fuel st :
  u64_range (ms_qty st) -> u64_range (ms_qty (match_loop fuel o st)).
Proof.
  apply (match_loop_invariant (fun st => u64_range (ms_qty st))).
  intros st1 st2 _ Hs.
  destruct (match_step_facts _ _ _ Hs)
    as [bp lvl rest mk q now fill rem trade _ _ _ _ _ Hq _ _].
  rewrite Hq. apply u64_in_range.
Qed.

Lemma match_order_frame o b clk w b' trades clk' :
  match_order o b clk = (w, b', trades, clk') ->
  w = with_qty o (order_qty w) /\
  (u64_range (order_qty o) -> u64_range (order_qty w)) /\
  (forall i, order_index_ b !! i = None -> order_index_ b' !! i = None) /\
  side_levels (order_side o) b' = side_levels (order_side o) b.
Proof.
  unfold match_order. cbv zeta. set (st := match_loop _ _ _).
  intros [= <- <- _ _]. simpl.
  split; [done|]. split; [|split].
  - intros Hq. by apply match_loop_qty_range.
  - intros i Hi. by apply match_loop_index_shrinks.
  - by destruct (order_side o).
Qed.

(** ** add keeps the invariants *)

Lemma add_limit_phase_inv w b trades want_top clk ok b' trades' top clk' :
  book_inv b -> u64_range (order_qty w) ->
  order_index_ b !! order_id w = None ->
  add_limit_phase w b trades want_top clk = (ok, b', trades', top, clk') ->
  book_inv b'.
Proof.
  intros Hb Hq Hfresh. unfold add_limit_phase.
  destruct (would_cross w b).
  - destruct (match_order w b clk) as [[[w1 b1] t1] c1] eqn:Hm.
    destruct (match_order_frame _ _ _ _ _ _ _ Hm) as (Hw & Hq1 & Hix & _).
    pose proof (match_order_inv _ _ _ _ _ _ _ Hb Hm) as Hb1.
    destruct (snapshot want_top _ c1) as [tp c2].
    intros [= _ <- _ _ _].
    destruct ((0 <? order_qty w1) && is_limit w1) eqn:Hrest; [|done].
    apply andb_true_iff in Hrest as [_ Hlim].
    apply add_resting_order_inv; [done| | |by apply Hq1].
    + rewrite Hw. simpl. by apply Hix.
    + unfold is_limit in Hlim. by apply bool_decide_eq_true in Hlim.
  - destruct (snapshot want_top _ clk) as [tp c2].
    intros [= _ <- _ _ _].
    destruct ((0 <? order_qty w) && is_limit w) eqn:Hrest; [|done].
    apply andb_true_iff in Hrest as [_ Hlim].
    apply add_resting_order_inv; [done|done| |done].
    unfold is_limit in Hlim. by apply bool_decide_eq_true in Hlim.
Qed.

Lemma add_inv o want_top b clk ok b' trades top clk' :
  book_inv b -> u64_range (order_qty o) ->
  add o want_top b clk = (ok, b', trades, top, clk') -> book_inv b'.
Proof.
  intros Hb Hq. unfold add.
  destruct (bool_decide (is_Some (order_index_ b !! order_id o))) eqn:Hdup.
  { by intros [= _ <- _ _ _]. }
  apply bool_decide_eq_false in Hdup.
  assert (Hfresh : order_index_ b !! order_id o = None).
  { destruct (order_index_ b !! order_id o) eqn:E; [|done].
    exfalso. apply Hdup. by eexists. }
  destruct (is_market o || is_ioc o || is_fok o).
  - destruct (is_fok o && _).
    { by intros [= _ <- _ _ _]. }
    destruct (match_order o b clk) as [[[w1 b1] t1] c1] eqn:Hm.
    destruct (match_order_frame _ _ _ _ _ _ _ Hm) as (Hw & Hq1 & Hix & _).
    pose proof (match_order_inv _ _ _ _ _ _ _ Hb Hm) as Hb1.
    destruct ((order_qty w1 =? 0) || is_ioc w1 || is_fok w1).
    + destruct (snapshot want_top b1 c1) as [tp c2]. by intros [= _ <- _ _ _].
    + apply add_limit_phase_inv; [done|by apply Hq1|].
      rewrite Hw. simpl. by apply Hix.
  - by apply add_limit_phase_inv.
Qed.

(** ** replace keeps the invariants *)

Lemma find_order_some i l bo :
  find_order i l = Some bo -> bo ∈ orders_ l /\ slot_id bo = i.
Proof.
  unfold find_order. intros Hf.
  apply find_some in Hf as [Hin Hid].
  split; [by apply list_elem_of_In|]. by apply bool_decide_eq_true in Hid.
Qed.

Lemma replace_inv i new_price new_qty b clk ok b' trades ev clk' :
  book_inv b -> u64_range new_qty ->
  replace i new_price new_qty b clk = (ok, b', trades, ev, clk') -> book_inv b'.
Proof.
  intros Hb Hq. unfold replace.
  destruct (order_index_ b !! i) as [loc|] eqn:Hix.
  2:{ by intros [= _ <- _ _ _]. }
  destruct (match map_find _ _ with Some l => find_order i l | None => None end)
    as [bo|].
  2:{ by intros [= _ <- _ _ _]. }
  destruct (cancel i b clk) as [[[okc b1] evc] c1] eqn:Hc.
  pose proof (cancel_inv _ _ _ _ _ _ _ Hb Hc) as Hb1.
  destruct okc.
  2:{ by intros [= _ <- _ _ _]. }
  destruct (now_ns c1) as [now c2].
  destruct (add _ false b1 c2) as [[[[oka b2] t2] tp] c3] eqn:Ha.
  assert (Hb2 : book_inv b2) by (eapply add_inv; [exact Hb1| |exact Ha]; done).
  destruct oka; by intros [= _ <- _ _ _].
Qed.

(** ** Every reachable book satisfies the invariants *)

Lemma run_command_inv c b clk :
  book_inv b -> command_wf c -> book_inv (run_command c b clk).
Proof.
  intros Hb Hwf. destruct c as [o wt|i|i p q]; simpl.
  - destruct (add o wt b clk) as [[[[ok b'] tr] tp] c'] eqn:Ha.
    eapply add_inv; [exact Hb| |exact Ha]. by destruct Hwf as (_ & ? & _).
  - destruct (cancel i b clk) as [[[ok b'] ev] c'] eqn:Hc.
    by eapply cancel_inv.
  - destruct (replace i p q b clk) as [[[[ok b'] tr] ev] c'] eqn:Hr.
    eapply replace_inv; [exact Hb| |exact Hr]. by destruct Hwf as (_ & ? & _).
Qed.

Lemma reachable_by_weaken (ok ok' : Command -> Prop) b :
  (forall c, ok c -> ok' c) -> reachable_by ok b -> reachable_by ok' b.
Proof.
  intros Himp Hr. induction Hr as [|b c clk Hr IH Hc]; [constructor|].
  constructor; [done|by apply Himp].
Qed.

Lemma reachable_inv b : reachable b -> book_inv b.
Proof.
  intros Hr. induction Hr as [|b c clk Hr IH Hc]; [apply book_inv_new|].
  by apply run_command_inv.
Qed.

End OperationInvariants.

Lemma book_queue_cons p l m :
  book_queue ((p, l) :: m) = map (pair p) (orders_ l) ++ book_queue m.
Proof. reflexivity. Qed.

Lemma elem_of_book_queue p bo m :
  (p, bo) ∈ book_queue m <-> exists l, (p, l) ∈ m /\ bo ∈ orders_ l.
Proof.
  induction m as [|[k l] m IH].
  - split; [intros Hin; by apply elem_of_nil in Hin|].
    intros (l & Hin & _). by apply elem_of_nil in Hin.
  - rewrite book_queue_cons, elem_of_app, IH, list_elem_of_fmap. split.
    + intros [(bo' & [= -> ->] & Hbo)|(l' & Hin & Hbo)].
      * exists l. split; [left|done].
      * exists l'. split; [by right|done].
    + intros (l' & Hin & Hbo). apply elem_of_cons in Hin as [[= -> ->]|Hin].
      * left. by exists bo.
      * right. by exists l'.
Qed.

Lemma trades_follow_lookup o queue ts k t :
  trades_follow o queue ts -> ts !! k = Some t ->
  exists p bo,
    queue !! k = Some (p, bo) /\
    taker_id t = order_id o /\
    maker_id t = slot_id bo /\
    trade_price t = p /\
    (is_market o = false ->
     price_breaks (order_side o) p (order_price o) = false) /\
    trade_qty t <= remaining_qty bo /\
    ((S k < length ts)%nat -> remaining_qty bo < 2 ^ 64 ->
     trade_qty t = remaining_qty bo).
Proof.
  revert queue k. induction ts as [|t0 ts IH]; intros queue k; [done|].
  destruct queue as [|[p bo] queue]; simpl; [done|].
  intros (Htk & Hmk & Hp & Hbr & Hle & Hfull & Hrest).
  destruct k as [|k]; simpl.
  - intros [= <-]. exists p, bo. repeat split; try done.
    intros Hlen. apply Hfull. destruct ts; simpl in *; [lia|done].
  - intros Hk. destruct (IH _ _ Hrest Hk)
      as (p' & bo' & Hq & ? & ? & ? & ? & ? & Hf').
    exists p', bo'. repeat split; try done.
    intros Hlen. apply Hf'. lia.
Qed.

Section Trace.

Context {T : Type} `{TimeSource T}.

(** ** The trades of a matching run *)

Lemma match_loop_trace o fuel st :
  exists ts,
    ms_trades (match_loop fuel o st) = ms_trades st ++ ts /\
    trades_follow o (book_queue (ms_levels st)) ts /\
    (ts = [] -> match_loop fuel o st = st).
Proof.
  revert st. induction fuel as [|fuel IH]; intros st; simpl.
  { exists []. rewrite app_nil_r. simpl. by repeat split. }
  destruct (match_step o st) as [st'|] eqn:Hs.
  2:{ exists []. rewrite app_nil_r. simpl. by repeat split. }
  destruct (match_step_facts _ _ _ Hs)
    as [bp lvl rest mk q now fill rem trade Hopen Hlv Hord Hcross _ Hqty Htr Hres].
  destruct (IH st') as (ts & Hts & Hfollow & _).
  exists (trade :: ts). split; [|split; [|done]].
  { rewrite Hts, Htr, <- app_assoc. done. }
  rewrite Hlv, book_queue_cons, Hord. simpl.
  split; [done|]. split; [done|]. split; [done|]. split; [done|].
  split; [apply Z.le_min_r|].
  destruct Hres as [(Hz & _ & Hl)|(Hnz & _ & Hl)].
  - split.
    + intros _ Hr. by apply fill_all_of_maker.
    + rewrite Hl in Hfollow. by destruct q.
  - assert (Hclosed : ms_qty st' = 0).
    { rewrite Hqty. by apply fill_all_of_taker. }
    rewrite match_loop_closed in Hts by done.
    assert (ts = []) as ->.
    { apply (app_inv_head (ms_trades st')). by rewrite app_nil_r. }
    split; [done|]. done.
Qed.

(** Whether the loop runs another iteration depends on the taker's open
    quantity and on the opposite side only. *)
Lemma match_step_none_agree o st st' :
  ms_qty st = ms_qty st' -> ms_levels st = ms_levels st' ->
  match_step o st = None -> match_step o st' = None.
Proof.
  unfold match_step. intros <- <-.
  destruct (negb (0 <? ms_qty st)); [done|].
  destruct (ms_levels st) as [|[bp lvl] rest]; [done|].
  destruct (negb (is_market o) && _); [done|].
  destruct (front lvl); [|done].
  destruct (now_ns (ms_clock st)), (now_ns (ms_clock st')).
  by destruct (_ =? 0).
Qed.

Lemma match_order_final o b clk :
  match_order o b clk =
  (with_qty o (ms_qty (match_final o b clk)),
   with_index (ms_index (match_final o b clk))
     (with_side_levels (opposite (order_side o))
        (ms_levels (match_final o b clk)) b),
   ms_trades (match_final o b clk), ms_clock (match_final o b clk)).
Proof. reflexivity. Qed.

Lemma match_final_exited o b clk : match_step o (match_final o b clk) = None.
Proof. apply match_loop_exits. simpl. lia. Qed.

Lemma match_order_trades o b clk w b' trades clk' :
  match_order o b clk = (w, b', trades, clk') ->
  trades_follow o (book_queue (side_levels (opposite (order_side o)) b)) trades.
Proof.
  rewrite match_order_final. intros [= _ _ <- _].
  unfold match_final.
  destruct (match_loop_trace o
              (S (S (slot_count (side_levels (opposite (order_side o)) b))))
              (mkMatch (order_qty o) (side_levels (opposite (order_side o)) b)
                       (order_index_ b) [] clk)) as (ts & -> & Hf & _).
  done.
Qed.

(** A run that trades nothing changes nothing. *)
Lemma match_order_no_trades o b clk w b' clk' :
  match_order o b clk = (w, b', [], clk') -> w = o /\ b' = b /\ clk' = clk.
Proof.
  rewrite match_order_final. unfold match_final.
  set (st0 := mkMatch _ _ _ _ _). set (fuel := S (S _)).
  destruct (match_loop_trace o fuel st0) as (ts & Hts & _ & Hsame).
  set (stf := match_loop fuel o st0) in *.
  intros [= <- <- Hnil <-]. rewrite Hts in Hnil. simpl in Hnil. subst ts.
  rewrite (Hsame eq_refl). simpl. split; [by destruct o|]. split; [|done].
  by destruct (order_side o), b.
Qed.

(** Running [match_order] again right after a run does nothing. *)
Lemma match_order_again o b clk w b' trades clk' :
  match_order o b clk = (w, b', trades, clk') ->
  match_order w b' clk' = (w, b', [], clk').
Proof.
  rewrite match_order_final. intros [= <- <- _ <-].
  pose proof (match_final_exited o b clk) as Hexit.
  set (st := match_final o b clk) in *.
  unfold match_order. simpl order_side. simpl order_qty.
  rewrite !side_levels_with_index, side_levels_with_same. simpl order_index_.
  set (st2 := mkMatch _ _ _ _ _).
  assert (Hnone : match_step (with_qty o (ms_qty st)) st2 = None).
  { assert (Hsame : forall x, match_step (with_qty o (ms_qty st)) x = match_step o x).
    { intros x. reflexivity. }
    rewrite Hsame. by eapply match_step_none_agree; [| |exact Hexit]. }
  simpl match_loop. rewrite Hnone. simpl.
  f_equal. f_equal. f_equal. by destruct (order_side o), b.
Qed.

End Trace.

Lemma is_limit_type o : is_limit o = true <-> order_type o = Limit.
Proof. unfold is_limit. apply bool_decide_eq_true. Qed.

Lemma is_limit_not o : is_limit o = false <-> order_type o <> Limit.
Proof. unfold is_limit. apply bool_decide_eq_false. Qed.

Lemma limit_flags o :
  order_type o = Limit ->
  is_market o = false /\ is_ioc o = false /\ is_fok o = false /\ is_limit o = true.
Proof. unfold is_market, is_ioc, is_fok, is_limit. intros ->. done. Qed.

Section AddCases.

Context {T : Type} `{TimeSource T}.

(** ** The outcomes of add *)

Lemma add_limit_phase_crossing w b trades want_top clk w1 b1 t1 c1 :
  would_cross w b = true ->
  match_order w b clk = (w1, b1, t1, c1) ->
  exists top clk',
    add_limit_phase w b trades want_top clk =
    (true,
     if (0 <? order_qty w1) && is_limit w then add_resting_order w1 b1 else b1,
     trades ++ t1, top, clk').
Proof.
  intros Hc Hm. unfold add_limit_phase. rewrite Hc, Hm.
  destruct (match_order_frame _ _ _ _ _ _ _ Hm) as (Hw & _).
  assert (Hl : is_limit w1 = is_limit w) by (by rewrite Hw).
  rewrite Hl.
  destruct (snapshot want_top _ c1) as [tp c2]. by exists tp, c2.
Qed.

Lemma add_limit_phase_passive w b trades want_top clk :
  would_cross w b = false ->
  exists top clk',
    add_limit_phase w b trades want_top clk =
    (true,
     if (0 <? order_qty w) && is_limit w then add_resting_order w b else b,
     trades, top, clk').
Proof.
  intros Hc. unfold add_limit_phase. rewrite Hc.
  destruct (snapshot want_top _ clk) as [tp c2]. by exists tp, c2.
Qed.

Lemma would_cross_market o b : is_market o = true -> would_cross o b = true.
Proof. unfold would_cross. by intros ->. Qed.

Lemma add_cases o want_top b clk ok b' trades top clk' :
  add o want_top b clk = (ok, b', trades, top, clk') ->
  (ok = false /\ b' = b /\ trades = [] /\
   (is_Some (order_index_ b !! order_id o) \/ order_type o = FOK))
  \/
  (ok = true /\ order_index_ b !! order_id o = None /\
   ((exists w b1 c1,
       match_order o b clk = (w, b1, trades, c1) /\
       (order_type o <> Limit \/ would_cross o b = true) /\
       b' = if (0 <? order_qty w) && is_limit o
            then add_resting_order w b1 else b1)
    \/
    (order_type o = Limit /\ would_cross o b = false /\ trades = [] /\
     b' = if 0 <? order_qty o then add_resting_order o b else b))).
Proof.
  unfold add.
  destruct (bool_decide (is_Some (order_index_ b !! order_id o))) eqn:Hdup.
  { apply bool_decide_eq_true in Hdup. intros [= <- <- <- _ _].
    left. repeat split; try done. by left. }
  apply bool_decide_eq_false in Hdup.
  assert (Hfresh : order_index_ b !! order_id o = None).
  { destruct (order_index_ b !! order_id o) eqn:E; [|done].
    exfalso. apply Hdup. by eexists. }
  destruct (is_market o || is_ioc o || is_fok o) eqn:Hagg.
  - assert (Hnl : order_type o <> Limit).
    { intros Hl. destruct (limit_flags o Hl) as (Hm & Hi & Hf & _).
      by rewrite Hm, Hi, Hf in Hagg. }
    assert (Hlim : is_limit o = false) by (by apply is_limit_not).
    destruct (is_fok o && _) eqn:Hrej.
    { intros [= <- <- <- _ _]. left. repeat split; try done. right.
      apply andb_true_iff in Hrej as [Hf _]. unfold is_fok in Hf.
      by apply bool_decide_eq_true in Hf. }
    destruct (match_order o b clk) as [[[w b1] t1] c1] eqn:Hm.
    destruct (match_order_frame _ _ _ _ _ _ _ Hm) as (Hw & _).
    assert (Hfl : is_ioc w = is_ioc o /\ is_fok w = is_fok o /\
                  is_market w = is_market o /\ is_limit w = is_limit o).
    { by rewrite Hw. }
    destruct Hfl as (Hi & Hf & Hmk & Hl).
    destruct ((order_qty w =? 0) || is_ioc w || is_fok w) eqn:Hdone.
    + destruct (snapshot want_top b1 c1) as [tp c2].
      intros [= <- <- <- _ _]. right. split; [done|]. split; [done|]. left.
      exists w, b1, c1. split; [done|]. split; [by left|].
      by rewrite Hlim, andb_false_r.
    + assert (Hmarket : is_market o = true).
      { rewrite Hi, Hf in Hdone.
        destruct (is_ioc o), (is_fok o), (is_market o); try done.
        all: by rewrite ?orb_true_r in Hdone. }
      pose proof (match_order_again _ _ _ _ _ _ _ Hm) as Hagain.
      destruct (add_limit_phase_crossing w b1 t1 want_top c1 w b1 [] c1)
        as (tp & c2 & ->); [apply would_cross_market; congruence|done|].
      rewrite Hl, Hlim, andb_false_r, app_nil_r.
      intros [= <- <- <- _ _]. right. split; [done|]. split; [done|]. left.
      exists w, b1, c1. split; [done|]. split; [by left|].
      by rewrite andb_false_r.
  - assert (Hl : order_type o = Limit).
    { unfold is_market, is_ioc, is_fok in Hagg.
      destruct (order_type o); try done. }
    assert (Hlim : is_limit o = true) by (by apply is_limit_type).
    destruct (would_cross o b) eqn:Hc.
    + destruct (match_order o b clk) as [[[w b1] t1] c1] eqn:Hm.
      destruct (add_limit_phase_crossing o b [] want_top clk w b1 t1 c1)
        as (tp & c2 & ->); [done|done|].
      intros [= <- <- <- _ _]. right. split; [done|]. split; [done|]. left.
      exists w, b1, c1. split; [done|]. split; [by right|done].
    + destruct (add_limit_phase_passive o b [] want_top clk)
        as (tp & c2 & ->); [done|].
      rewrite Hlim, andb_true_r.
      intros [= <- <- <- _ _]. right. split; [done|]. split; [done|]. right.
      done.
Qed.

(** A limit order with a fresh id is always accepted. *)
Lemma add_limit_accepted o want_top b clk :
  order_type o = Limit -> order_index_ b !! order_id o = None ->
  exists b' trades top clk',
    add o want_top b clk = (true, b', trades, top, clk').
Proof.
  intros Hl Hfresh.
  destruct (add o want_top b clk) as [[[[ok b'] tr] tp] c'] eqn:Ha.
  destruct (add_cases _ _ _ _ _ _ _ _ _ Ha)
    as [(_ & _ & _ & [Hd|Hf])|(-> & _)].
  - rewrite Hfresh in Hd. by destruct Hd.
  - congruence.
  - by exists b', tr, tp, c'.
Qed.

End AddCases.

Section RestingAndFailure.

Context {T : Type} `{TimeSource T}.

(** ** Orders that never rest *)

(** C3: an accepted Market, IOC or FOK order leaves no trace in the book:
    after [add] its id is not in the order index and no slot on either side
    carries it; every slot that rests is a Limit order. *)
Theorem non_limit_orders_never_rest o want_top b clk b' trades top clk' :
  reachable b ->
  order_type o <> Limit ->
  add o want_top b clk = (true, b', trades, top, clk') ->
  order_index_ b' !! order_id o = None /\
  ~ has_slot (order_id o) (bids_ b') /\
  ~ has_slot (order_id o) (asks_ b') /\
  forall s p l bo,
    (p, l) ∈ side_levels s b' -> bo ∈ orders_ l -> order_type (order bo) = Limit.
Proof.
  intros Hr Hnl Ha. pose proof (reachable_inv _ Hr) as Hb.
  destruct (add_cases _ _ _ _ _ _ _ _ _ Ha)
    as [(? & _)|(_ & Hfresh & [(w & b1 & c1 & Hm & _ & Hb')|(Hl & _)])];
    [done| |done].
  apply is_limit_not in Hnl. rewrite Hnl, andb_false_r in Hb'. subst b'.
  pose proof (match_order_inv _ _ _ _ _ _ _ Hb Hm) as [Hbids Hasks].
  destruct (match_order_frame _ _ _ _ _ _ _ Hm) as (_ & _ & Hix & _).
  specialize (Hix _ Hfresh).
  split; [done|]. split; [by eapply side_inv_unindexed|].
  split; [by eapply side_inv_unindexed|].
  intros s p l bo Hl Hbo.
  assert (Hs : side_inv (order_index_ b1) s (side_levels s b1)) by (by destruct s).
  by destruct (level_inv_slot _ _ _ _ _ (side_inv_level _ _ _ _ _ Hs Hl) Hbo)
    as (_ & ? & _).
Qed.

(** ** Failed operations *)

Lemma cancel_true_iff i b clk :
  fst (fst (fst (cancel i b clk))) = true <-> is_Some (order_index_ b !! i).
Proof.
  destruct (order_index_ b !! i) as [loc|] eqn:Hix.
  - rewrite (cancel_known _ _ _ _ Hix). simpl. split; [by eexists|done].
  - rewrite cancel_unknown by done. simpl. split; [done|]. by intros [? ?].
Qed.

(** C4: on a reachable book, an operation that returns [false] has left
    the book (bids, asks, order index) exactly as it was.  For [replace]
    this covers every [false] return: the resubmission of a resting order
    is the submission of a Limit order with a freed id, which [add] always
    accepts. *)
Theorem failed_operation_leaves_book_unchanged b :
  reachable b ->
  (forall o want_top clk b' trades top clk',
     add o want_top b clk = (false, b', trades, top, clk') -> b' = b) /\
  (forall i clk b' ev clk',
     cancel i b clk = (false, b', ev, clk') -> b' = b) /\
  (forall i new_price new_qty clk b' trades ev clk',
     replace i new_price new_qty b clk = (false, b', trades, ev, clk') -> b' = b).
Proof.
  intros Hr. pose proof (reachable_inv _ Hr) as Hb.
  split; [|split].
  - intros o wt clk b' tr tp clk' Ha.
    by destruct (add_cases _ _ _ _ _ _ _ _ _ Ha) as [(_ & ? & _)|(? & _)].
  - intros i clk b' ev clk'.
    destruct (order_index_ b !! i) as [loc|] eqn:Hix.
    + by rewrite (cancel_known _ _ _ _ Hix).
    + rewrite cancel_unknown by done. by intros [= <- _ _].
  - intros i p q clk b' tr ev clk'. unfold replace.
    destruct (order_index_ b !! i) as [loc|] eqn:Hix.
    2:{ by intros [= <- _ _ _]. }
    destruct (map_find _ _) as [l|] eqn:Hfind.
    2:{ by intros [= <- _ _ _]. }
    destruct (find_order i l) as [bo|] eqn:Hfo.
    2:{ by intros [= <- _ _ _]. }
    rewrite (cancel_known _ _ _ _ Hix).
    destruct (now_ns (snd (now_ns clk))) as [now c2].
    set (new_order := with_ts _ _). set (b1 := with_index _ _).
    apply find_order_some in Hfo as [Hbo Hid].
    apply map_find_elem in Hfind.
    assert (Hside :
      side_inv (order_index_ b) (loc_side loc) (side_levels (loc_side loc) b)).
    { destruct Hb. by destruct (loc_side loc). }
    destruct (level_inv_slot _ _ _ _ _ (side_inv_level _ _ _ _ _ Hside Hfind) Hbo)
      as (_ & Hty & _).
    destruct (add_limit_accepted new_order false b1 c2)
      as (b2 & t2 & tp & c3 & ->); [done| |done].
    subst new_order b1. simpl. unfold slot_id in Hid. rewrite Hid.
    apply lookup_delete_eq.
Qed.

(** ** Execution price *)

Lemma price_breaks_within s p limit :
  price_breaks s p limit = false <-> price_within s p limit.
Proof. destruct s; simpl; lia. Qed.

(** C6: every trade that [add] emits is priced at the level where its maker
    rests on the opposite side (for a book that satisfies the invariants
    this is the maker's own order price), whatever the taker's limit is;
    for a taker with a limit price (any type but Market) that price is no
    worse than the limit: at most the limit for a buy, at least the limit
    for a sell. *)
Theorem trade_price_is_resting_price o want_top b clk ok b' trades top clk' t :
  add o want_top b clk = (ok, b', trades, top, clk') ->
  t ∈ trades ->
  (exists l bo,
     (trade_price t, l) ∈ side_levels (opposite (order_side o)) b /\
     bo ∈ orders_ l /\ slot_id bo = maker_id t /\
     (book_inv b -> order_price (order bo) = trade_price t)) /\
  (is_market o = false ->
   price_within (order_side o) (trade_price t) (order_price o)).
Proof.
  intros Ha Ht.
  destruct (add_cases _ _ _ _ _ _ _ _ _ Ha)
    as [(_ & _ & -> & _)|(_ & _ & [(w & b1 & c1 & Hm & _)|(_ & _ & -> & _)])].
  { by apply elem_of_nil in Ht. }
  2:{ by apply elem_of_nil in Ht. }
  apply match_order_trades in Hm.
  apply list_elem_of_lookup in Ht as [k Hk].
  destruct (trades_follow_lookup _ _ _ _ _ Hm Hk)
    as (p & bo & Hq & _ & Hmk & Hp & Hbr & _).
  apply list_elem_of_lookup_2 in Hq.
  apply elem_of_book_queue in Hq as (l & Hl & Hbo).
  subst p. split.
  - exists l, bo. split; [done|]. split; [done|]. split; [done|].
    intros Hb.
    assert (Hs : side_inv (order_index_ b) (opposite (order_side o))
                   (side_levels (opposite (order_side o)) b)).
    { destruct Hb. by destruct (order_side o). }
    by destruct (level_inv_slot _ _ _ _ _ (side_inv_level _ _ _ _ _ Hs Hl) Hbo)
      as (_ & _ & _ & ? & _).
  - intros Hnm. apply price_breaks_within. by apply Hbr.
Qed.

End RestingAndFailure.

(** ** Slots of one side have distinct ids *)

Lemma queue_ids_level p q : queue_ids (map (pair p) q) = map slot_id q.
Proof. unfold queue_ids. rewrite map_map. done. Qed.

Lemma queue_ids_app q1 q2 : queue_ids (q1 ++ q2) = queue_ids q1 ++ queue_ids q2.
Proof. apply map_app. Qed.

Lemma elem_of_queue_ids i m :
  i ∈ queue_ids (book_queue m) <-> has_slot i m.
Proof.
  unfold queue_ids, has_slot. rewrite list_elem_of_fmap. split.
  - intros ([p bo] & -> & Hin). apply elem_of_book_queue in Hin as (l & ? & ?).
    by exists p, l, bo.
  - intros (p & l & bo & Hl & Hbo & <-). exists (p, bo). split; [done|].
    apply elem_of_book_queue. by exists l.
Qed.

Lemma side_inv_queue_nodup ix s m :
  side_inv ix s m -> NoDup (queue_ids (book_queue m)).
Proof.
  induction m as [|[p l] m IH]; intros Hi; [constructor|].
  apply side_inv_cons in Hi as (Hbefore & Hlvl & Hrest).
  rewrite book_queue_cons, queue_ids_app, queue_ids_level.
  apply NoDup_app. split; [by destruct Hlvl as (_ & ? & _)|]. split; [|by apply IH].
  intros i Hin Hin'.
  apply list_elem_of_fmap in Hin as (bo & -> & Hbo).
  destruct (level_inv_slot _ _ _ _ _ Hlvl Hbo) as (Hix & _).
  apply elem_of_queue_ids in Hin'.
  destruct (side_inv_located _ _ _ _ Hrest Hin') as (p' & Hp' & Hk).
  rewrite Hix in Hp'. injection Hp' as <-.
  rewrite Forall_forall in Hbefore. specialize (Hbefore _ Hk).
  by rewrite side_before_irrefl in Hbefore.
Qed.

Lemma book_queue_app m1 m2 : book_queue (m1 ++ m2) = book_queue m1 ++ book_queue m2.
Proof. unfold book_queue. apply flat_map_app. Qed.


Section FifoAndRoundTrip.

Context {T : Type} `{TimeSource T}.

(** ** FIFO priority *)


(** ** Submit then cancel *)

Lemma cancel_add_resting_order o b clk ok b' ev clk' :
  book_inv b -> order_index_ b !! order_id o = None ->
  cancel (order_id o) (add_resting_order o b) clk = (ok, b', ev, clk') ->
  b' = b.
Proof.
  intros Hb Hfresh. rewrite add_resting_order_levels.
  set (s := order_side o). set (p := order_price o). set (i := order_id o).
  set (m := side_levels s b).
  assert (Hs : side_inv (order_index_ b) s m).
  { destruct Hb. subst m. by destruct s. }
  pose proof (side_inv_sorted _ _ _ Hs) as Hsorted.
  erewrite cancel_known; [|simpl; apply lookup_insert_eq].
  simpl loc_side. simpl loc_price. simpl order_index_.
  rewrite side_levels_with_index, side_levels_with_same.
  intros [= _ <- _ _].
  rewrite delete_insert_id by done.
  assert (Hm : fst (cancel_levels i p
                 (map_upsert (side_before s) p (add_order (BookOrder_of o)) m)) = m).
  { unfold cancel_levels. rewrite map_find_upsert by done.
    set (l0 := default BookLevel_default (map_find p m)).
    assert (Hl0 : (i ∉ map slot_id (orders_ l0)) /\ u64_range (total_qty_ l0) /\
                  (orders_ l0 = [] -> map_find p m = None)).
    { subst l0. destruct (map_find p m) as [l|] eqn:Hf; simpl.
      - apply map_find_elem in Hf.
        destruct (side_inv_level _ _ _ _ _ Hs Hf) as (Hne & _ & Hr & Hsl).
        split; [|done].
        intros Hin. apply list_elem_of_fmap in Hin as (bo & Hid & Hbo).
        rewrite Forall_forall in Hsl. destruct (Hsl _ Hbo) as (Hix & _).
        rewrite <- Hid in Hix. subst i. congruence.
      - split; [intros Hin; by apply elem_of_nil in Hin|].
        split; [done|]. done. }
    destruct Hl0 as (Hnotin & Hrange & Hempty).
    unfold remove_order, add_order. simpl.
    rewrite (remove_first_app_fresh i) by done. simpl.
    rewrite u64_add_sub by done.
    unfold level_empty. simpl.
    destruct (orders_ l0) as [|s0 q0] eqn:Ho.
    - simpl. apply map_erase_upsert_fresh.
      apply (proj1 (map_find_none _ _)). by apply Hempty.
    - simpl. apply map_store_upsert_present; [done|].
      subst l0. destruct (map_find p m) as [l|] eqn:Hf; simpl in *.
      + rewrite <- Ho. by destruct l.
      + done. }
  rewrite Hm. subst m s. by destruct (order_side o), b.
Qed.

(** C7, as amended: on a reachable book, if [o]'s id is not in the order
    index and the submission of [o] trades nothing, then cancelling [o.id]
    right after the submission gives back the book (bids, asks, order
    index) of before the submission. *)
Theorem submit_cancel_round_trip
    o want_top b clk ok b1 top clk1 clk2 ok2 b2 ev clk3 :
  reachable b ->
  order_index_ b !! order_id o = None ->
  add o want_top b clk = (ok, b1, [], top, clk1) ->
  cancel (order_id o) b1 clk2 = (ok2, b2, ev, clk3) ->
  b2 = b.
Proof.
  intros Hr Hfresh Ha Hc. pose proof (reachable_inv _ Hr) as Hb.
  assert (Hunknown : forall ok' b' ev' c',
            cancel (order_id o) b clk2 = (ok', b', ev', c') -> b' = b).
  { intros ok' b' ev' c'. rewrite cancel_unknown by done. by intros [= _ <- _ _]. }
  destruct (add_cases _ _ _ _ _ _ _ _ _ Ha)
    as [(_ & -> & _)|(_ & _ & [(w & b0 & c1 & Hm & _ & ->)|(_ & _ & _ & ->)])].
  - by eapply Hunknown.
  - apply match_order_no_trades in Hm as (-> & -> & _).
    destruct ((0 <? order_qty o) && is_limit o).
    + by eapply cancel_add_resting_order.
    + by eapply Hunknown.
  - destruct (0 <? order_qty o).
    + by eapply cancel_add_resting_order.
    + by eapply Hunknown.
Qed.

End FifoAndRoundTrip.

(** ** Crossing *)

Lemma uncrossed_sides s b :
  uncrossed b <-> sides_apart s (side_levels s b) (side_levels (opposite s) b).
Proof.
  unfold uncrossed, sides_apart. destruct s; simpl.
  - split; intros Hu x y Hx Hy.
    + apply Z.ltb_lt. by apply Hu.
    + apply Z.ltb_lt. by apply Hu.
  - split; intros Hu x y Hx Hy.
    + apply Z.ltb_lt. by apply Hu.
    + apply Z.ltb_lt. by apply Hu.
Qed.

Lemma no_sentinel_sides s b :
  no_sentinel_level b <->
  (INVALID_PRICE ∉ keys (side_levels s b)) /\
  (INVALID_PRICE ∉ keys (side_levels (opposite s) b)).
Proof. unfold no_sentinel_level. destruct s; simpl; tauto. Qed.

Lemma sides_apart_subkeys s own opp own' opp' :
  keys own' ⊆ keys own -> keys opp' ⊆ keys opp ->
  sides_apart s own opp -> sides_apart s own' opp'.
Proof. intros Ho Hp Hs po pp Hpo Hpp. apply Hs; [by apply Ho|by apply Hp]. Qed.

(** Prices further down the opposite side are further away. *)
Lemma price_breaks_deeper s best deeper limit :
  price_breaks s best limit = true ->
  side_before (opposite s) best deeper = true ->
  price_breaks s deeper limit = true.
Proof. destruct s; simpl; lia. Qed.

Lemma out_of_reach_all s limit opp :
  map_sorted (side_before (opposite s)) opp -> out_of_reach s limit opp ->
  forall pp, pp ∈ keys opp -> price_breaks s pp limit = true.
Proof.
  destruct opp as [|[bp l] rest]; simpl; intros Hs Hout pp Hin.
  - by apply elem_of_nil in Hin.
  - apply map_sorted_cons in Hs as [Hf _].
    apply elem_of_cons in Hin as [->|Hin]; [done|].
    eapply price_breaks_deeper; [exact Hout|].
    rewrite Forall_forall in Hf. by apply Hf.
Qed.

Lemma priced_inv_new : priced_inv LimitBook_new.
Proof.
  split; [apply book_inv_new| |].
  - intros pb pa Hb. by apply elem_of_nil in Hb.
  - split; intros Hin; by apply elem_of_nil in Hin.
Qed.

(** Removing levels keeps a book uncrossed. *)
Lemma priced_inv_shrink s b b' :
  book_inv b' ->
  keys (side_levels s b') ⊆ keys (side_levels s b) ->
  keys (side_levels (opposite s) b') ⊆ keys (side_levels (opposite s) b) ->
  priced_inv b -> priced_inv b'.
Proof.
  intros Hb' Hown Hopp [_ Hu Hn]. split; [done| |].
  - apply (uncrossed_sides s). apply (uncrossed_sides s) in Hu.
    by eapply sides_apart_subkeys.
  - apply (no_sentinel_sides s). apply (no_sentinel_sides s) in Hn as [H1 H2].
    split; intros Hin; [apply H1; by apply Hown|apply H2; by apply Hopp].
Qed.

Lemma add_resting_order_priced o b :
  priced_inv b ->
  order_index_ b !! order_id o = None ->
  order_type o = Limit -> u64_range (order_qty o) ->
  order_price o <> INVALID_PRICE ->
  out_of_reach (order_side o) (order_price o)
               (side_levels (opposite (order_side o)) b) ->
  priced_inv (add_resting_order o b).
Proof.
  intros [Hb Hu Hn] Hfresh Hty Hq Hp Hout.
  split; [by apply add_resting_order_inv| |].
  - apply (uncrossed_sides (order_side o)).
    apply (uncrossed_sides (order_side o)) in Hu.
    rewrite add_resting_order_levels.
    rewrite !side_levels_with_index, side_levels_with_same, side_levels_with_other.
    intros po pp Hpo Hpp.
    apply map_upsert_keys in Hpo. apply elem_of_cons in Hpo as [->|Hpo].
    + eapply out_of_reach_all; [|exact Hout|exact Hpp].
      destruct Hb as [[? _] [? _]]. by destruct (order_side o).
    + by apply Hu.
  - apply (no_sentinel_sides (order_side o)).
    apply (no_sentinel_sides (order_side o)) in Hn as [H1 H2].
    rewrite add_resting_order_levels.
    rewrite !side_levels_with_index, side_levels_with_same, side_levels_with_other.
    split; [|done]. intros Hin.
    apply map_upsert_keys in Hin. apply elem_of_cons in Hin as [Heq|Hin]; [|done].
    by apply Hp.
Qed.

Section Crossing.

Context {T : Type} `{TimeSource T}.

Lemma match_loop_keys o fuel st :
  keys (ms_levels (match_loop fuel o st)) ⊆ keys (ms_levels st).
Proof.
  apply (match_loop_invariant
           (fun st' => keys (ms_levels st') ⊆ keys (ms_levels st))); [|done].
  intros st1 st2 Hsub Hs.
  destruct (match_step_facts _ _ _ Hs)
    as [bp lvl rest mk q now fill rem trade _ Hlv _ _ _ _ _ Hres].
  etrans; [|exact Hsub]. rewrite Hlv.
  destruct Hres as [(_ & _ & ->)|(_ & _ & ->)]; [|done].
  destruct q; [|done]. intros x Hx. by right.
Qed.

(** Why the loop exits. *)
Lemma match_step_none o st :
  match_step o st = None ->
  ms_qty st <= 0 \/
  match ms_levels st with
  | [] => True
  | (best, level) :: _ =>
      (is_market o = false /\
       price_breaks (order_side o) best (order_price o) = true) \/
      orders_ level = []
  end.
Proof.
  unfold match_step. destruct (0 <? ms_qty st) eqn:Hq; simpl.
  2:{ intros _. left. lia. }
  intros Hs. right.
  destruct (ms_levels st) as [|[bp lvl] rest]; [done|].
  destruct (is_market o); simpl in Hs.
  - right. unfold front in Hs. destruct (orders_ lvl); [done|]. simpl in Hs.
    destruct (now_ns (ms_clock st)). by destruct (_ =? 0).
  - destruct (price_breaks (order_side o) bp (order_price o)); [by left|].
    right. unfold front in Hs. destruct (orders_ lvl); [done|]. simpl in Hs.
    destruct (now_ns (ms_clock st)). by destruct (_ =? 0).
Qed.

Lemma match_order_keys o b clk w b' trades clk' :
  match_order o b clk = (w, b', trades, clk') ->
  keys (side_levels (opposite (order_side o)) b')
    ⊆ keys (side_levels (opposite (order_side o)) b).
Proof.
  rewrite match_order_final. intros [= _ <- _ _].
  rewrite side_levels_with_index, side_levels_with_same.
  apply match_loop_keys.
Qed.

(** A limit order that leaves the loop with open quantity has nothing left
    to cross. *)
Lemma match_order_out_of_reach o b clk w b' trades clk' :
  book_inv b -> is_market o = false ->
  match_order o b clk = (w, b', trades, clk') ->
  0 < order_qty w ->
  out_of_reach (order_side o) (order_price o)
               (side_levels (opposite (order_side o)) b').
Proof.
  intros Hb Hnm Hm Hq.
  pose proof (match_order_inv _ _ _ _ _ _ _ Hb Hm) as Hb'.
  revert Hm Hb' Hq. rewrite match_order_final. intros [= <- <- _ _] Hb' Hq.
  simpl in Hq. rewrite side_levels_with_index, side_levels_with_same.
  apply (book_inv_sides (order_side o)) in Hb' as [_ Hopp].
  rewrite side_levels_with_index, side_levels_with_same in Hopp.
  simpl in Hopp.
  destruct (match_step_none _ _ (match_final_exited o b clk)) as [?|Hexit]; [lia|].
  unfold out_of_reach.
  destruct (ms_levels (match_final o b clk)) as [|[bp lvl] rest]; [done|].
  destruct Hexit as [[_ ?]|Hempty]; [done|].
  apply side_inv_cons in Hopp as (_ & (Hne & _) & _). done.
Qed.

Lemma would_cross_false_out_of_reach o b :
  is_market o = false ->
  INVALID_PRICE ∉ keys (side_levels (opposite (order_side o)) b) ->
  would_cross o b = false ->
  out_of_reach (order_side o) (order_price o)
               (side_levels (opposite (order_side o)) b).
Proof.
  intros Hnm Hn. unfold would_cross, best_price, out_of_reach. rewrite Hnm.
  destruct (side_levels (opposite (order_side o)) b) as [|[bp l] rest]; [done|].
  destruct (bp =? INVALID_PRICE) eqn:Hs.
  { apply Z.eqb_eq in Hs. exfalso. apply Hn. rewrite <- Hs. left. }
  destruct (order_side o); simpl; lia.
Qed.

Lemma add_priced o want_top b clk ok b' trades top clk' :
  priced_inv b -> u64_range (order_qty o) ->
  (order_type o = Limit -> order_price o <> INVALID_PRICE) ->
  add o want_top b clk = (ok, b', trades, top, clk') -> priced_inv b'.
Proof.
  intros Hpi Hq Hp Ha.
  destruct (add_cases _ _ _ _ _ _ _ _ _ Ha)
    as [(_ & -> & _)|(_ & Hfresh &
         [(w & b1 & c1 & Hm & _ & ->)|(Hl & Hc & _ & ->)])]; [done| |].
  - pose proof (pi_book _ Hpi) as Hb.
    destruct (match_order_frame _ _ _ _ _ _ _ Hm) as (Hw & Hq1 & Hix & Hown).
    assert (Hpi1 : priced_inv b1).
    { apply (priced_inv_shrink (order_side o) b); [|by rewrite Hown| |done].
      - by eapply match_order_inv.
      - by eapply match_order_keys. }
    destruct ((0 <? order_qty w) && is_limit o) eqn:Hrest; [|done].
    apply andb_true_iff in Hrest as [Hpos Hlim].
    apply Z.ltb_lt in Hpos. apply is_limit_type in Hlim.
    destruct (limit_flags _ Hlim) as (Hnm & _).
    pose proof (match_order_out_of_reach _ _ _ _ _ _ _ Hb Hnm Hm Hpos) as Hout.
    rewrite Hw. apply add_resting_order_priced; simpl; try done.
    + by apply Hix.
    + rewrite Hw in Hq1. by apply Hq1.
    + by apply Hp.
  - destruct (0 <? order_qty o); [|done].
    destruct (limit_flags _ Hl) as (Hnm & _).
    apply add_resting_order_priced; try done; [by apply Hp|].
    apply would_cross_false_out_of_reach; [done| |done].
    by apply (no_sentinel_sides (order_side o)), pi_sentinel.
Qed.

Lemma cancel_levels_keys i p m : keys (fst (cancel_levels i p m)) ⊆ keys m.
Proof.
  unfold cancel_levels. destruct (map_find p m) as [l|]; [|done].
  destruct (remove_order i l) as [[l' r]|]; simpl.
  - destruct (level_empty l').
    + apply keys_subseteq, map_erase_subseteq.
    + by rewrite map_store_keys.
  - destruct (level_empty l); [|done].
    apply keys_subseteq, map_erase_subseteq.
Qed.

Lemma cancel_priced i b clk ok b' ev clk' :
  priced_inv b -> cancel i b clk = (ok, b', ev, clk') -> priced_inv b'.
Proof.
  intros Hpi Hc. pose proof (cancel_inv _ _ _ _ _ _ _ (pi_book _ Hpi) Hc) as Hb'.
  revert Hc. destruct (order_index_ b !! i) as [[s p]|] eqn:Hix.
  - rewrite (cancel_known _ _ _ _ Hix). simpl. intros [= _ <- _ _].
    apply (priced_inv_shrink s b); [| | |done].
    + done.
    + rewrite side_levels_with_index, side_levels_with_same.
      apply cancel_levels_keys.
    + by rewrite side_levels_with_index, side_levels_with_other.
  - rewrite cancel_unknown by done. by intros [= _ <- _ _].
Qed.

Lemma replace_priced i new_price new_qty b clk ok b' trades ev clk' :
  priced_inv b -> u64_range new_qty -> new_price <> INVALID_PRICE ->
  replace i new_price new_qty b clk = (ok, b', trades, ev, clk') ->
  priced_inv b'.
Proof.
  intros Hpi Hq Hp. unfold replace.
  destruct (order_index_ b !! i) as [loc|] eqn:Hix.
  2:{ by intros [= _ <- _ _ _]. }
  destruct (match map_find _ _ with Some l => find_order i l | None => None end)
    as [bo|].
  2:{ by intros [= _ <- _ _ _]. }
  destruct (cancel i b clk) as [[[okc b1] evc] c1] eqn:Hc.
  pose proof (cancel_priced _ _ _ _ _ _ _ Hpi Hc) as Hpi1.
  destruct okc.
  2:{ by intros [= _ <- _ _ _]. }
  destruct (now_ns c1) as [now c2].
  destruct (add _ false b1 c2) as [[[[oka b2] t2] tp] c3] eqn:Ha.
  assert (Hpi2 : priced_inv b2).
  { eapply add_priced; [exact Hpi1| | |exact Ha]; done. }
  destruct oka; by intros [= _ <- _ _ _].
Qed.

Lemma reachable_priced_inv b : reachable_priced b -> priced_inv b.
Proof.
  intros Hr. induction Hr as [|b c clk Hr IH [Hwf Hp]]; [apply priced_inv_new|].
  destruct c as [o wt|i|i p q]; simpl in *.
  - destruct (add o wt b clk) as [[[[ok b'] tr] tp] c'] eqn:Ha.
    eapply add_priced; [exact IH| |exact Hp|exact Ha]. by destruct Hwf as (_ & ? & _).
  - destruct (cancel i b clk) as [[[ok b'] ev] c'] eqn:Hc.
    by eapply cancel_priced.
  - destruct (replace i p q b clk) as [[[[ok b'] tr] ev] c'] eqn:Hrp.
    eapply replace_priced; [exact IH| |exact Hp|exact Hrp].
    by destruct Hwf as (_ & ? & _).
Qed.

Lemma map_upsert_has_key before p f m : p ∈ keys (map_upsert before p f m).
Proof.
  induction m as [|[k l] m IH]; simpl; [left|].
  destruct (decide (k = p)) as [->|Hne]; simpl; [left|].
  destruct (before p k); simpl; [left|by right].
Qed.

Lemma add_resting_order_key o b :
  order_price o ∈ keys (side_levels (order_side o) (add_resting_order o b)).
Proof.
  rewrite add_resting_order_levels, side_levels_with_index, side_levels_with_same.
  apply map_upsert_has_key.
Qed.

(** An accepted order that is in the index after [add] rests at its own
    price on its own side. *)
Lemma add_rested_key o want_top b clk b' trades top clk' :
  add o want_top b clk = (true, b', trades, top, clk') ->
  is_Some (order_index_ b' !! order_id o) ->
  order_price o ∈ keys (side_levels (order_side o) b').
Proof.
  intros Ha Hin.
  destruct (add_cases _ _ _ _ _ _ _ _ _ Ha)
    as [(? & _)|(_ & Hfresh &
         [(w & b1 & c1 & Hm & _ & ->)|(_ & _ & _ & ->)])]; [done| |].
  - destruct (match_order_frame _ _ _ _ _ _ _ Hm) as (Hw & _ & Hix & _).
    destruct ((0 <? order_qty w) && is_limit o).
    + pose proof (add_resting_order_key w b1) as Hk.
      assert (Hp : order_price w = order_price o) by (by rewrite Hw).
      assert (Hs : order_side w = order_side o) by (by rewrite Hw).
      by rewrite Hp, Hs in Hk.
    + rewrite (Hix _ Hfresh) in Hin. by destruct Hin.
  - destruct (0 <? order_qty o); [apply add_resting_order_key|].
    rewrite Hfresh in Hin. by destruct Hin.
Qed.

Lemma reachable_priced_reachable b : reachable_priced b -> reachable b.
Proof. apply reachable_by_weaken. by intros c [? _]. Qed.

(** C2, as amended: a book reached from the empty book by public
    operations whose resting prices are never [INVALID_PRICE] (the tick
    count [-1] that [best_price] returns for an empty side) is not
    crossed: whenever both sides are non-empty, the best bid is below the
    best ask; indeed every bid price is below every ask price.  In
    particular, when a limit order submitted to such a book comes to rest,
    no price left on the opposite side is within its limit. *)
Theorem reachable_book_not_crossed b :
  reachable_priced b ->
  (bids_ b <> [] -> asks_ b <> [] -> best_price Buy b < best_price Sell b) /\
  uncrossed b /\
  (forall o want_top clk b' trades top clk' pp,
     order_wf o -> order_type o = Limit -> order_price o <> INVALID_PRICE ->
     add o want_top b clk = (true, b', trades, top, clk') ->
     is_Some (order_index_ b' !! order_id o) ->
     pp ∈ keys (side_levels (opposite (order_side o)) b') ->
     ~ price_within (order_side o) pp (order_price o)).
Proof.
  intros Hr. pose proof (reachable_priced_inv _ Hr) as Hpi.
  destruct Hpi as [Hb Hu Hn].
  split; [|split; [done|]].
  - intros Hbids Hasks. unfold best_price. simpl.
    destruct (bids_ b) as [|[pb lb] bids] eqn:Hbd; [done|].
    destruct (asks_ b) as [|[pa la] asks] eqn:Hak; [done|].
    apply Hu; [rewrite Hbd|rewrite Hak]; left.
  - intros o wt clk b' tr tp clk' pp (_ & Hq & _) Hl Hp Ha Hin Hpp Hwithin.
    assert (Hpi' : priced_inv b').
    { eapply add_priced; [|exact Hq| |exact Ha]; [by split|done]. }
    pose proof (add_rested_key _ _ _ _ _ _ _ _ Ha Hin) as Hk.
    pose proof (proj1 (uncrossed_sides (order_side o) b') (pi_uncrossed _ Hpi')
                  _ _ Hk Hpp) as Hbrk.
    apply price_breaks_within in Hwithin. congruence.
Qed.

End Crossing.

(** ** Fill-or-kill with sound level totals *)

Lemma traded_qty_app t1 t2 : traded_qty (t1 ++ t2) = traded_qty t1 + traded_qty t2.
Proof.
  unfold traded_qty. induction t1 as [|t t1 IH]; simpl; [done|]. rewrite IH. lia.
Qed.

Lemma traded_qty_singleton t : traded_qty [t] = trade_qty t.
Proof. unfold traded_qty. simpl. lia. Qed.

Lemma level_sum_nonneg ix s p l : level_inv ix s p l -> 0 <= level_sum l.
Proof.
  intros (_ & _ & _ & Hsl). unfold level_sum.
  induction Hsl as [|bo q (_ & _ & _ & _ & Hr) _ IH]; simpl; [done|].
  destruct Hr. lia.
Qed.

Lemma reach_qty_nonneg ix s o m : side_inv ix s m -> 0 <= reach_qty o m.
Proof.
  induction m as [|[p l] m IH]; simpl; intros Hi; [done|].
  apply side_inv_cons in Hi as (_ & Hl & Hm).
  destruct (negb (is_market o) && _); [done|].
  pose proof (level_sum_nonneg _ _ _ _ Hl). specialize (IH Hm). lia.
Qed.

(** The pre-scan never counts more than rests within the limit, when the
    level totals are sound. *)
Lemma fok_scan_bound ix s o m avail :
  side_inv ix s m -> totals_sound m -> 0 <= avail ->
  fok_scan o m avail <= avail + reach_qty o m.
Proof.
  revert avail. induction m as [|[p l] m IH]; simpl; intros avail Hi Ht Ha; [lia|].
  apply side_inv_cons in Hi as (_ & Hl & Hm).
  apply Forall_cons in Ht as [Htl Htm]. simpl in Htl.
  destruct Hl as (Hne & Hnd & Hr & Hsl).
  rewrite andb_comm.
  destruct (negb (is_market o) && _); [lia|].
  pose proof (reach_qty_nonneg _ _ o _ Hm) as Hnn.
  assert (Hu : 0 <= u64 (avail + total_qty_ l) <= avail + total_qty_ l).
  { unfold u64. destruct Hr.
    split; [apply Z.mod_pos_bound; lia|apply Z.mod_le; lia]. }
  destruct (order_qty o <=? u64 (avail + total_qty_ l)); [lia|].
  specialize (IH (u64 (avail + total_qty_ l)) Hm Htm ltac:(lia)). lia.
Qed.

Section FillOrKill.

Context {T : Type} `{TimeSource T}.

(** While the loop runs, what it has traded and what is still open add up
    to the same quantity, and the open quantity stays within what rests in
    reach. *)
Lemma match_step_accounts o s st st' :
  side_inv (ms_index st) (opposite s) (ms_levels st) ->
  u64_range (ms_qty st) -> ms_qty st <= reach_qty o (ms_levels st) ->
  match_step o st = Some st' ->
  traded_qty (ms_trades st') + ms_qty st' = traded_qty (ms_trades st) + ms_qty st /\
  u64_range (ms_qty st') /\ ms_qty st' <= reach_qty o (ms_levels st').
Proof.
  intros Hi Hrange Hq Hs.
  destruct (match_step_inv o s [] st st' Hi (side_inv_nil _ _) Hs) as [Hi' _].
  pose proof (reach_qty_nonneg _ _ o _ Hi') as Hnn'.
  destruct (match_step_facts _ _ _ Hs)
    as [bp lvl rest mk q now fill rem trade Hopen Hlv Hord Hcross _ Hqty Htr Hres].
  rewrite Hlv in Hi, Hq. apply side_inv_cons in Hi as (_ & Hl & Hrest).
  destruct Hl as (_ & _ & _ & Hsl). rewrite Hord in Hsl.
  apply Forall_cons in Hsl as [(_ & _ & _ & _ & Hr) Hsl].
  assert (Hbrk : negb (is_market o) &&
                 price_breaks (order_side o) bp (order_price o) = false).
  { destruct (is_market o); [done|]. simpl. by apply Hcross. }
  simpl in Hq. rewrite Hbrk in Hq. unfold level_sum in Hq.
  rewrite Hord in Hq. simpl in Hq.
  destruct Hr as [Hr0 Hr1]. destruct Hrange as [Hq0 Hq1].
  assert (Hfill : 0 <= fill <= ms_qty st /\ fill <= remaining_qty mk)
    by (subst fill; lia).
  assert (Hqty' : ms_qty st' = ms_qty st - fill).
  { rewrite Hqty. apply u64_id. unfold u64_range. lia. }
  split; [|split].
  - rewrite Htr, traded_qty_app, traded_qty_singleton, Hqty'. subst trade.
    simpl. lia.
  - unfold u64_range. lia.
  - destruct Hres as [(Hz & _ & Hl')|(Hnz & _ & _)].
    + assert (Hall : fill = remaining_qty mk).
      { subst fill rem. by apply fill_all_of_maker. }
      rewrite Hl'. destruct q as [|m2 q]; simpl in Hq |- *; [lia|].
      rewrite Hbrk. unfold level_sum. simpl. lia.
    + assert (Hzero : ms_qty st' = 0).
      { rewrite Hqty. subst fill rem. by apply fill_all_of_taker. }
      lia.
Qed.

Lemma match_loop_accounts o s fuel st :
  side_inv (ms_index st) (opposite s) (ms_levels st) ->
  u64_range (ms_qty st) -> ms_qty st <= reach_qty o (ms_levels st) ->
  traded_qty (ms_trades (match_loop fuel o st)) + ms_qty (match_loop fuel o st) =
    traded_qty (ms_trades st) + ms_qty st /\
  side_inv (ms_index (match_loop fuel o st)) (opposite s)
           (ms_levels (match_loop fuel o st)) /\
  u64_range (ms_qty (match_loop fuel o st)) /\
  ms_qty (match_loop fuel o st) <= reach_qty o (ms_levels (match_loop fuel o st)).
Proof.
  intros Hi Hr Hq.
  apply (match_loop_invariant
           (fun st' =>
              traded_qty (ms_trades st') + ms_qty st' =
                traded_qty (ms_trades st) + ms_qty st /\
              side_inv (ms_index st') (opposite s) (ms_levels st') /\
              u64_range (ms_qty st') /\
              ms_qty st' <= reach_qty o (ms_levels st'))); [|done].
  intros st1 st2 (Hsum & Hi1 & Hr1 & Hq1) Hs.
  destruct (match_step_accounts _ _ _ _ Hi1 Hr1 Hq1 Hs) as (Hsum2 & Hr2 & Hq2).
  destruct (match_step_inv o s [] st1 st2 Hi1 (side_inv_nil _ _) Hs) as [Hi2 _].
  split; [lia|done].
Qed.

(** When enough rests within its limit, the order leaves the loop filled. *)
Lemma match_order_fills o b clk w b' trades clk' :
  book_inv b -> u64_range (order_qty o) ->
  order_qty o <= reach_qty o (side_levels (opposite (order_side o)) b) ->
  match_order o b clk = (w, b', trades, clk') ->
  order_qty w = 0 /\ traded_qty trades = order_qty o.
Proof.
  intros Hb Hr Hq. rewrite match_order_final. intros [= <- _ <- _]. simpl.
  apply (book_inv_sides (order_side o)) in Hb as [_ Hopp].
  destruct (match_loop_accounts o (order_side o)
              (S (S (slot_count (side_levels (opposite (order_side o)) b))))
              (mkMatch (order_qty o) (side_levels (opposite (order_side o)) b)
                       (order_index_ b) [] clk))
    as (Hsum & Hi & Hrf & Hqf); [done|done|done|].
  fold (match_final o b clk) in Hsum, Hi, Hrf, Hqf. simpl in Hsum.
  assert (Hzero : ms_qty (match_final o b clk) = 0).
  { destruct (match_step_none _ _ (match_final_exited o b clk)) as [Hle|Hexit].
    - destruct Hrf. lia.
    - destruct (ms_levels (match_final o b clk)) as [|[bp lvl] rest] eqn:Hl.
      + simpl in Hqf. destruct Hrf. lia.
      + apply side_inv_cons in Hi as (_ & (Hne & _) & _).
        destruct Hexit as [[Hnm Hbrk]|Hempty]; [|done].
        simpl in Hqf. rewrite Hnm, Hbrk in Hqf. simpl in Hqf.
        destruct Hrf. lia. }
  split; [done|]. lia.
Qed.

(** With level totals that do not overstate their queues, an accepted FOK
    order trades exactly its quantity: the departure recorded for C1 comes
    from the stale totals alone. *)
Lemma fok_fills_with_sound_totals o want_top b clk b' trades top clk' :
  book_inv b -> u64_range (order_qty o) ->
  totals_sound (side_levels (opposite (order_side o)) b) ->
  order_type o = FOK ->
  add o want_top b clk = (true, b', trades, top, clk') ->
  traded_qty trades = order_qty o.
Proof.
  intros Hb Hr Hsound Hfok Ha.
  assert (Hscan : order_qty o <=
            fok_scan o (side_levels (opposite (order_side o)) b) 0).
  { revert Ha. unfold add.
    destruct (bool_decide _); [done|].
    assert (Hf : is_fok o = true) by (unfold is_fok; by rewrite Hfok).
    rewrite Hf, orb_true_r. simpl.
    destruct (_ <? _) eqn:Hlt; [done|]. intros _. lia. }
  destruct (add_cases _ _ _ _ _ _ _ _ _ Ha)
    as [(? & _)|(_ & _ & [(w & b1 & c1 & Hm & _)|(Hl & _)])]; [done| |congruence].
  eapply match_order_fills; [exact Hb|exact Hr| |exact Hm].
  apply (book_inv_sides (order_side o)) in Hb as [_ Hopp].
  pose proof (fok_scan_bound _ _ o _ 0 Hopp Hsound ltac:(lia)). lia.
Qed.

End FillOrKill.

(** ** next_power_of_two *)

Lemma smear_testbit s n i :
  0 <= s -> 0 <= i ->
  Z.testbit (smear s n) i = Z.testbit n i || Z.testbit n (i + s).
Proof.
  intros Hs Hi. unfold smear. rewrite Z.lor_spec, Z.shiftr_spec by done. done.
Qed.

Lemma smear_filled k w s n :
  0 <= k -> 0 <= s <= w -> filled k w n -> filled k (w + s) (smear s n).
Proof.
  intros Hk Hs [Hhi Hlo]. split.
  - intros i Hi. rewrite smear_testbit by lia.
    rewrite (Hhi i), (Hhi (i + s)) by lia. done.
  - intros i Hi Hw. rewrite smear_testbit by lia.
    destruct (Z_lt_le_dec (k - w) i) as [Hin|Hout].
    + by rewrite (Hlo i) by lia.
    + rewrite (Hlo (i + s)) by lia. apply orb_true_r.
Qed.

Lemma filled_log2 m : 0 < m -> filled (Z.log2 m) 1 m.
Proof.
  intros Hm. split.
  - intros i Hi. by apply Z.bits_above_log2; lia.
  - intros i Hi Hw. replace i with (Z.log2 m) by lia. by apply Z.bit_log2.
Qed.

Lemma filled_ones k w n : 0 <= k < w -> filled k w n -> n = Z.ones (k + 1).
Proof.
  intros Hk [Hhi Hlo]. apply Z.bits_inj'. intros i Hi.
  destruct (Z_lt_le_dec k i) as [Habove|Hbelow].
  - rewrite Hhi by done. symmetry. apply Z.ones_spec_high. lia.
  - rewrite Hlo by lia. symmetry. apply Z.ones_spec_low. lia.
Qed.

Lemma smear_cascade m :
  0 < m < 2 ^ 63 ->
  smear 32 (smear 16 (smear 8 (smear 4 (smear 2 (smear 1 m))))) =
  2 ^ (Z.log2 m + 1) - 1.
Proof.
  intros Hm.
  assert (Hk : 0 <= Z.log2 m < 63).
  { split; [apply Z.log2_nonneg|]. apply Z.log2_lt_pow2; lia. }
  rewrite Z.sub_1_r, <- Z.ones_equiv.
  apply (filled_ones (Z.log2 m) 64); [lia|].
  apply (smear_filled _ 32 32); [lia|lia|].
  apply (smear_filled _ 16 16); [lia|lia|].
  apply (smear_filled _ 8 8); [lia|lia|].
  apply (smear_filled _ 4 4); [lia|lia|].
  apply (smear_filled _ 2 2); [lia|lia|].
  apply (smear_filled _ 1 1); [lia|lia|].
  apply filled_log2. lia.
Qed.

Lemma pow2_u64 k : 0 <= k < 64 -> u64 (2 ^ k) = 2 ^ k.
Proof.
  intros Hk. apply u64_id. split; [apply Z.pow_nonneg; lia|].
  apply Z.pow_lt_mono_r; lia.
Qed.

(** For a request of at most [2^63], the result is the least power of two
    that is not below the request. *)
Lemma next_power_of_two_spec n :
  0 <= n <= 2 ^ 63 ->
  exists k,
    0 <= k <= 63 /\ next_power_of_two n = 2 ^ k /\ n <= 2 ^ k /\
    forall j, 0 <= j -> n <= 2 ^ j -> 2 ^ k <= 2 ^ j.
Proof.
  intros Hn. unfold next_power_of_two.
  destruct (n =? 0) eqn:Hz.
  { apply Z.eqb_eq in Hz. subst n. exists 0. split; [lia|]. split; [done|].
    split; [lia|]. intros j Hj _. apply Z.pow_le_mono_r; lia. }
  apply Z.eqb_neq in Hz.
  rewrite (u64_id (n - 1)) by (unfold u64_range; lia).
  destruct (Z.eq_dec n 1) as [->|Hn1].
  { exists 0. split; [lia|]. split; [done|]. split; [lia|].
    intros j Hj _. apply Z.pow_le_mono_r; lia. }
  assert (Hm : 0 < n - 1 < 2 ^ 63) by lia.
  rewrite smear_cascade by done.
  assert (Hk : 0 <= Z.log2 (n - 1) < 63).
  { split; [apply Z.log2_nonneg|]. apply Z.log2_lt_pow2; lia. }
  destruct (Z.log2_spec (n - 1)) as [Hlo Hhi]; [lia|].
  rewrite <- Z.add_1_r in Hhi.
  exists (Z.log2 (n - 1) + 1). split; [lia|]. split; [|split; [lia|]].
  - replace (2 ^ (Z.log2 (n - 1) + 1) - 1 + 1) with (2 ^ (Z.log2 (n - 1) + 1)) by lia.
    apply pow2_u64. lia.
  - intros j Hj Hle. apply Z.pow_le_mono_r; [lia|].
    assert (Z.log2 (n - 1) < j); [|lia].
    apply (Z.pow_lt_mono_r_iff 2); lia.
Qed.

(** ** RingBuffer *)

Section RingBufferFacts.

Context {A : Type} (dflt : A).

Lemma pow2_pos e : 0 <= e -> 0 < 2 ^ e.
Proof. intros He. apply Z.pow_pos_nonneg; lia. Qed.

Lemma pow2_le_63 e : 0 <= e <= 63 -> 2 ^ e <= 2 ^ 63.
Proof. intros He. apply Z.pow_le_mono_r; lia. Qed.

Lemma RingBuffer_new_wf n :
  0 <= n <= 2 ^ 63 -> ring_wf (RingBuffer_new dflt n).
Proof.
  intros Hn. destruct (next_power_of_two_spec n Hn) as (k & Hk & Hc & _).
  exists k. unfold RingBuffer_new. simpl. rewrite Hc.
  pose proof (pow2_pos k ltac:(lia)). pose proof (pow2_le_63 k Hk).
  split; [done|]. split; [done|]. split; [|lia].
  apply u64_id. unfold u64_range. lia.
Qed.

(** The index after [i], as [push] and [pop] compute it. *)
Lemma ring_next e i :
  0 <= e <= 63 -> 0 <= i < 2 ^ e ->
  Z.land (u64 (i + 1)) (2 ^ e - 1) = (i + 1) mod 2 ^ e.
Proof.
  intros He Hi. pose proof (pow2_le_63 e He).
  rewrite u64_id by (unfold u64_range; lia).
  rewrite Z.sub_1_r, <- Z.ones_equiv. apply Z.land_ones. lia.
Qed.

Lemma push_result (item : A) (rb : RingBuffer A) :
  ring_wf rb ->
  push item rb =
  if (tail_ rb + 1) mod capacity_ rb =? head_ rb then (false, rb)
  else (true,
        mkRing (capacity_ rb) (mask_ rb)
               (<[Z.to_nat (tail_ rb) := item]> (buffer_ rb))
               (head_ rb) ((tail_ rb + 1) mod capacity_ rb)).
Proof.
  intros (e & He & Hc & Hm & Hh & Ht). unfold push.
  rewrite Hm, ring_next, Hc by done. done.
Qed.

Lemma push_wf (item : A) (rb : RingBuffer A) : ring_wf rb -> ring_wf (snd (push item rb)).
Proof.
  intros Hwf. rewrite push_result by done.
  destruct Hwf as (e & He & Hc & Hm & Hh & Ht).
  destruct (_ =? _); simpl; [by exists e|].
  exists e. simpl. rewrite Hc. repeat split; try done; try lia.
  all: apply Z.mod_pos_bound, pow2_pos; lia.
Qed.

(** From an empty buffer, pushes succeed while fewer than [capacity - 1]
    items are stored. *)
Lemma push_all_fits (items : list A) (rb : RingBuffer A) :
  ring_wf rb -> head_ rb = 0 ->
  tail_ rb + Z.of_nat (length items) < capacity_ rb ->
  Forall (eq true) (fst (push_all items rb)) /\
  ring_wf (snd (push_all items rb)) /\
  capacity_ (snd (push_all items rb)) = capacity_ rb /\
  head_ (snd (push_all items rb)) = 0 /\
  tail_ (snd (push_all items rb)) = tail_ rb + Z.of_nat (length items).
Proof.
  revert rb. induction items as [|x items IH]; intros rb Hwf Hh Hlen; simpl.
  { repeat split; try done. lia. }
  pose proof (push_wf x rb Hwf) as Hwf1.
  rewrite push_result in * by done.
  destruct Hwf as (e & He & Hc & Hm & Hhd & Htl).
  simpl length in Hlen. rewrite Nat2Z.inj_succ in Hlen.
  rewrite Z.mod_small in * by lia.
  rewrite Hh in *.
  destruct (tail_ rb + 1 =? 0) eqn:Hfull; [lia|].
  simpl in Hwf1.
  set (rb1 := mkRing _ _ _ _ _) in *.
  destruct (IH rb1) as (Hoks & Hwf2 & Hcap & Hh2 & Ht2); [done|done|simpl; lia|].
  destruct (push_all items rb1) as [oks rb2]. simpl in *.
  split; [by constructor|]. split; [done|]. split; [done|]. split; [done|].
  rewrite Nat2Z.inj_succ. lia.
Qed.

(** With [capacity - 1] items stored since the buffer was empty, the next
    push fails. *)
Lemma push_full (item : A) (rb : RingBuffer A) :
  ring_wf rb -> head_ rb = 0 -> tail_ rb = capacity_ rb - 1 ->
  push item rb = (false, rb).
Proof.
  intros Hwf Hh Ht. rewrite push_result by done.
  destruct Hwf as (e & He & Hc & _).
  rewrite Ht, Hh. replace (capacity_ rb - 1 + 1) with (capacity_ rb) by lia.
  rewrite Z.mod_same by (rewrite Hc; pose proof (pow2_pos e); lia). done.
Qed.

End RingBufferFacts.

(** C10, as amended: for a requested capacity [n] of at most [2^63], the
    constructed buffer reports as capacity the least power of two that is
    at least [n] (1 for [n = 0]), and holds one element less: from the
    empty buffer and with no pops, [capacity - 1] pushes succeed and the
    push after them returns false.  For the default [ring_size] of 10000
    the engine's buffer has capacity 16384, so it holds 16383 events. *)
Theorem ring_buffer_capacity {A : Type} (dflt : A) (n : Z) :
  0 <= n <= 2 ^ 63 ->
  let rb := RingBuffer_new dflt n in
  (exists k, 0 <= k <= 63 /\ capacity rb = 2 ^ k) /\
  n <= capacity rb /\
  (forall j, 0 <= j -> n <= 2 ^ j -> capacity rb <= 2 ^ j) /\
  (n = 0 -> capacity rb = 1) /\
  (forall items x,
     Z.of_nat (length items) = capacity rb - 1 ->
     Forall (eq true) (fst (push_all items rb)) /\
     fst (push x (snd (push_all items rb))) = false) /\
  capacity (RingBuffer_new EngineEvent_default
              (ring_size_cfg EngineConfig_default)) - 1 = 16383.
Proof.
  intros Hn rb. pose proof (RingBuffer_new_wf dflt n Hn) as Hwf.
  destruct (next_power_of_two_spec n Hn) as (k & Hk & Hc & Hge & Hleast).
  assert (Hcap : capacity rb = 2 ^ k) by done.
  split; [by exists k|]. split; [by rewrite Hcap|].
  split; [intros j; rewrite Hcap; apply Hleast|].
  split; [by intros ->|]. split; [|done].
  intros items x Hlen.
  destruct (push_all_fits items rb) as (Hoks & Hwf' & Hcap' & Hh' & Ht');
    [done|done|unfold capacity in Hlen; simpl in *; lia|].
  split; [done|]. rewrite push_full; [done|done|done|].
  rewrite Ht', Hcap'. unfold capacity in Hlen. simpl in *. lia.
Qed.

(** ** Draining the event channel *)

Section Drain.

Context {A : Type} (dflt : A).

Lemma ring_size_wf (rb : RingBuffer A) e :
  0 <= e <= 63 -> mask_ rb = 2 ^ e - 1 ->
  0 <= head_ rb < 2 ^ e -> 0 <= tail_ rb < 2 ^ e ->
  ring_size rb = (tail_ rb - head_ rb) mod 2 ^ e.
Proof.
  intros He Hm Hh Ht. unfold ring_size. rewrite Hm.
  rewrite Z.sub_1_r, <- Z.ones_equiv, Z.land_ones by lia.
  unfold u64.
  replace (2 ^ 64) with (2 ^ e * 2 ^ (64 - e)).
  2:{ rewrite <- Z.pow_add_r by lia. f_equal. lia. }
  rewrite Z.rem_mul_r; try (apply Z.pow_nonzero; lia);
    try (apply Z.pow_pos_nonneg; lia).
  rewrite Z.mul_comm, Z.mod_add by (apply Z.pow_nonzero; lia).
  apply Z.mod_mod. apply Z.pow_nonzero; lia.
Qed.

Lemma pop_wf (rb rb' : RingBuffer A) x :
  ring_wf rb -> pop dflt rb = Some (x, rb') ->
  ring_wf rb' /\ ring_size rb' = ring_size rb - 1.
Proof.
  intros (e & He & Hc & Hm & Hh & Ht). unfold pop.
  destruct (head_ rb =? tail_ rb) eqn:Heq; [done|]. intros [= _ <-].
  apply Z.eqb_neq in Heq.
  pose proof (pow2_pos e ltac:(lia)) as Hpos.
  assert (Hnext : 0 <= (head_ rb + 1) mod 2 ^ e < 2 ^ e)
    by (apply Z.mod_pos_bound; lia).
  split.
  - exists e. simpl. rewrite Hm, ring_next by done. done.
  - rewrite (ring_size_wf rb e), (ring_size_wf _ e); simpl; try done.
    2:{ rewrite Hm, ring_next by done. done. }
    rewrite Hm, ring_next by done.
    destruct (Z_lt_le_dec (head_ rb + 1) (2 ^ e)) as [Hlt|Hge].
    + rewrite (Z.mod_small (head_ rb + 1)) by lia.
      destruct (Z_lt_le_dec (head_ rb) (tail_ rb)).
      * rewrite !Z.mod_small by lia. lia.
      * rewrite <- (Z.mod_add (tail_ rb - (head_ rb + 1)) 1) by lia.
        rewrite <- (Z.mod_add (tail_ rb - head_ rb) 1) by lia.
        rewrite !Z.mod_small by lia. lia.
    + replace (head_ rb + 1) with (2 ^ e) by lia.
      rewrite Z.mod_same by lia.
      rewrite <- (Z.mod_add (tail_ rb - head_ rb) 1) by lia.
      rewrite !Z.mod_small by lia. lia.
Qed.

Lemma ring_size_nonneg (rb : RingBuffer A) : ring_wf rb -> 0 <= ring_size rb.
Proof.
  intros (e & He & Hc & Hm & Hh & Ht).
  rewrite (ring_size_wf rb e) by done.
  apply Z.mod_pos_bound, pow2_pos. lia.
Qed.

(** Run for one round more than the buffer holds elements, the drain loop
    has found the buffer empty. *)
Lemma drain_empties fuel (rb : RingBuffer A) :
  ring_wf rb -> (Z.to_nat (ring_size rb) < fuel)%nat ->
  pop dflt (snd (drain dflt fuel rb)) = None /\
  Z.of_nat (length (fst (drain dflt fuel rb))) = ring_size rb.
Proof.
  revert rb. induction fuel as [|fuel IH]; intros rb Hwf Hf; [lia|].
  pose proof (ring_size_nonneg rb Hwf) as Hnn.
  simpl. destruct (pop dflt rb) as [[x rb1]|] eqn:Hp.
  - destruct (pop_wf _ _ _ Hwf Hp) as [Hwf1 Hsz].
    pose proof (ring_size_nonneg rb1 Hwf1) as Hnn1.
    destruct (IH rb1 Hwf1) as [Hnone Hlen]; [lia|].
    destruct (drain dflt fuel rb1) as [xs rb2]. simpl in *.
    split; [done|]. lia.
  - simpl. split; [done|].
    unfold pop in Hp. destruct (head_ rb =? tail_ rb) eqn:Heq; [|done].
    apply Z.eqb_eq in Heq.
    destruct Hwf as (e & He & Hc & Hm & Hh & Ht).
    rewrite (ring_size_wf rb e) by done.
    rewrite Heq, Z.sub_diag, Zmod_0_l. done.
Qed.

End Drain.

(** ** The engine facade *)

Section EngineClaims.

Context {T : Type} `{TimeSource T}.

Lemma poll_events_buffer (me me' : MatchingEngine T) :
  event_buffer_ me' = event_buffer_ me -> delivered me' = delivered me.
Proof.
  unfold delivered, poll_events. intros ->. by destruct (drain _ _ _).
Qed.

(** The channel of an engine stays well formed, so that [poll_events]
    finds it empty within the rounds it runs for. *)
Lemma emit_event_wf e rb : ring_wf rb -> ring_wf (emit_event e rb).
Proof. apply push_wf. Qed.

Lemma emit_events_wf es rb : ring_wf rb -> ring_wf (emit_events es rb).
Proof.
  unfold emit_events. revert rb.
  induction es as [|e es IH]; intros rb Hwf; simpl; [done|].
  apply IH. by apply emit_event_wf.
Qed.

Lemma MatchingEngine_new_wf config (clk : T) :
  0 <= ring_size_cfg config <= 2 ^ 63 ->
  ring_wf (event_buffer_ (MatchingEngine_new config clk)).
Proof. apply RingBuffer_new_wf. Qed.

Lemma submit_wf o (me : MatchingEngine T) :
  ring_wf (event_buffer_ me) -> ring_wf (event_buffer_ (snd (submit o me))).
Proof.
  intros Hwf. unfold submit.
  destruct (add o true (book_ me) (time_source_ me)) as [[[[ok b] tr] tp] clk].
  destruct (now_ns clk) as [now clk']. destruct ok; simpl.
  - by apply emit_event_wf, emit_events_wf, emit_event_wf.
  - by apply emit_event_wf.
Qed.

Lemma engine_cancel_wf i (me : MatchingEngine T) :
  ring_wf (event_buffer_ me) -> ring_wf (event_buffer_ (snd (engine_cancel i me))).
Proof.
  intros Hwf. unfold engine_cancel.
  destruct (cancel i (book_ me) (time_source_ me)) as [[[ok b] ev] clk].
  destruct ok; [|done].
  destruct (best_bid_ask b clk) as [[? top] clk']. simpl.
  by apply emit_event_wf, emit_event_wf.
Qed.

Lemma engine_replace_wf i p q (me : MatchingEngine T) :
  ring_wf (event_buffer_ me) ->
  ring_wf (event_buffer_ (snd (engine_replace i p q me))).
Proof.
  intros Hwf. unfold engine_replace.
  destruct (replace i p q (book_ me) (time_source_ me)) as [[[[ok b] tr] ev] clk].
  destruct ok; [|done].
  destruct (best_bid_ask b clk) as [[? top] clk']. simpl.
  by apply emit_event_wf, emit_events_wf, emit_event_wf.
Qed.

Lemma poll_events_drains (me : MatchingEngine T) :
  ring_wf (event_buffer_ me) ->
  ring_empty (event_buffer_ (snd (poll_events me))) = true /\
  Z.of_nat (length (delivered me)) = ring_size (event_buffer_ me).
Proof.
  intros Hwf. unfold delivered, poll_events.
  destruct (drain_empties EngineEvent_default
              (S (Z.to_nat (ring_size (event_buffer_ me)))) (event_buffer_ me))
    as [Hnone Hlen]; [done|lia|].
  destruct (drain _ _ _) as [out rb']. simpl in *.
  split; [|done]. unfold pop in Hnone. unfold ring_empty.
  by destruct (head_ rb' =? tail_ rb').
Qed.

(** C9: when the engine's [cancel] or [replace] returns false, the event
    channel is exactly as it was before the call, so that the next
    [poll_events] delivers the events that were buffered before the call
    and no others: nothing, in particular no Rejected event, was pushed. *)
Theorem failed_cancel_replace_emit_nothing (me : MatchingEngine T) :
  (forall i me',
     engine_cancel i me = (false, me') ->
     event_buffer_ me' = event_buffer_ me /\ delivered me' = delivered me) /\
  (forall i new_price new_qty me',
     engine_replace i new_price new_qty me = (false, me') ->
     event_buffer_ me' = event_buffer_ me /\ delivered me' = delivered me).
Proof.
  split.
  - intros i me'. unfold engine_cancel.
    destruct (cancel i (book_ me) (time_source_ me)) as [[[ok b] ev] clk].
    destruct ok.
    + destruct (best_bid_ask b clk) as [[? top] clk']. done.
    + intros [= <-]. split; [done|]. by apply poll_events_buffer.
  - intros i p q me'. unfold engine_replace.
    destruct (replace i p q (book_ me) (time_source_ me))
      as [[[[ok b] tr] ev] clk].
    destruct ok.
    + destruct (best_bid_ask b clk) as [[? top] clk']. done.
    + intros [= <-]. split; [done|]. by apply poll_events_buffer.
Qed.

End EngineClaims.

(** ** Price conversion *)

Section PriceConversion.

Local Open Scope Q_scope.

Lemma Qle_bool_true x y : Qle_bool x y = true <-> x <= y.
Proof. apply Qle_bool_iff. Qed.

Lemma Qle_bool_false x y : Qle_bool x y = false <-> y < x.
Proof.
  split.
  - intros Hf. apply Qnot_le_lt. intros Hle. apply Qle_bool_iff in Hle. congruence.
  - intros Hlt. destruct (Qle_bool x y) eqn:E; [|done].
    apply Qle_bool_iff in E. exfalso. by apply (Qlt_not_le _ _ Hlt).
Qed.

Lemma Qfloor_bounds x : inject_Z (Qfloor x) <= x /\ x < inject_Z (Qfloor x) + 1.
Proof.
  split; [apply Qfloor_le|].
  pose proof (Qlt_floor x) as Hlt. rewrite inject_Z_plus in Hlt. exact Hlt.
Qed.

Lemma Qceiling_bounds x : inject_Z (Qceiling x) - 1 < x /\ x <= inject_Z (Qceiling x).
Proof.
  split; [|apply Qle_ceiling].
  pose proof (Qceiling_lt x) as Hlt.
  replace (Qceiling x - 1)%Z with (Qceiling x + -1)%Z in Hlt by lia.
  rewrite inject_Z_plus in Hlt. exact Hlt.
Qed.

(** An integer strictly between two consecutive integers' bounds. *)
Lemma inject_Z_between (z c : Z) :
  inject_Z c - 1 < inject_Z z -> inject_Z z < inject_Z c + 1 -> z = c.
Proof.
  intros Hlo Hhi.
  assert (H1 : (c - 1 < z)%Z).
  { rewrite Zlt_Qlt. replace (c - 1)%Z with (c + -1)%Z by lia.
    rewrite inject_Z_plus. exact Hlo. }
  assert (H2 : (z < c + 1)%Z).
  { rewrite Zlt_Qlt, inject_Z_plus. exact Hhi. }
  lia.
Qed.

(** [round_half_away] is rounding to nearest, ties away from zero. *)
Lemma round_half_away_nearest x :
  (0 <= x -> x - (1 # 2) < inject_Z (round_half_away x) /\
             inject_Z (round_half_away x) <= x + (1 # 2)) /\
  (x < 0 -> x - (1 # 2) <= inject_Z (round_half_away x) /\
            inject_Z (round_half_away x) < x + (1 # 2)).
Proof.
  unfold round_half_away. split; intros Hx.
  - rewrite (proj2 (Qle_bool_true 0 x) Hx).
    destruct (Qfloor_bounds (x + (1 # 2))). split; lra.
  - rewrite (proj2 (Qle_bool_false 0 x) Hx).
    destruct (Qceiling_bounds (x - (1 # 2))). split; lra.
Qed.


(** Below that, the result is one tick above the nearest one. *)
Lemma from_double_negative (price tick : Q) :
  price / tick <= - (1 # 2) ->
  from_double price tick = (round_half_away (price / tick) + 1)%Z.
Proof.
  intros Hx. unfold from_double, round_half_away, Qtrunc.
  set (x := price / tick) in *. clearbody x.
  assert (Hsign : x < 0) by lra.
  rewrite (proj2 (Qle_bool_false 0 x) Hsign).
  destruct (Qceiling_bounds (x - (1 # 2))).
  destruct (Qle_bool 0 (x + (1 # 2))) eqn:Hs.
  - apply Qle_bool_true in Hs.
    destruct (Qfloor_bounds (x + (1 # 2))).
    assert (Hc : Qceiling (x - (1 # 2)) = (-1)%Z).
    { apply inject_Z_between; change (inject_Z (-1)) with (- (1)); lra. }
    rewrite Hc. apply inject_Z_between; change (inject_Z (-1 + 1)) with 0; lra.
  - apply Qle_bool_false in Hs.
    destruct (Qceiling_bounds (x + (1 # 2))).
    apply inject_Z_between; rewrite inject_Z_plus;
      change (inject_Z 1) with 1; lra.
Qed.

Lemma nonneg_price_quotient (price tick : Q) :
  0 < tick -> 0 <= price -> - (1 # 2) < price / tick.
Proof.
  intros Ht Hp. apply Qlt_le_trans with 0; [done|].
  apply Qmult_le_0_compat; [exact Hp|].
  apply Qlt_le_weak, Qinv_lt_0_compat, Ht.
Qed.

End PriceConversion.

(** ** The worked examples *)

Lemma order_make_wf i s p q t ty :
  u64_range i -> u64_range q -> - 2 ^ 63 <= p < 2 ^ 63 ->
  order_wf (Order_make i s p q t ty).
Proof. intros Hi Hq Hp. by split. Qed.

Ltac example_wf := apply order_make_wf; unfold u64_range; lia.

Lemma submit_to_reachable ok b o :
  reachable_by (T:=Z) ok b -> ok (Submit o true) ->
  reachable_by (T:=Z) ok (submit_to b o).
Proof. intros Hb Ho. by apply reach_step. Qed.

Lemma book_one_ask_reachable : reachable (T:=Z) book_one_ask.
Proof. apply submit_to_reachable; [apply reach_new|example_wf]. Qed.

Lemma book_two_asks_reachable : reachable (T:=Z) book_two_asks.
Proof. apply submit_to_reachable; [apply book_one_ask_reachable|example_wf]. Qed.

Lemma book_after_fill_reachable : reachable (T:=Z) book_after_fill.
Proof. apply submit_to_reachable; [apply book_two_asks_reachable|example_wf]. Qed.

Lemma book_crossed_reachable : reachable (T:=Z) book_crossed.
Proof.
  apply submit_to_reachable; [|example_wf].
  apply submit_to_reachable; [apply reach_new|example_wf].
Qed.

Lemma book_two_sided_priced : reachable_priced (T:=Z) book_two_sided.
Proof.
  apply submit_to_reachable.
  - apply submit_to_reachable; [apply reach_new|].
    split; [example_wf|]. intros _. discriminate.
  - split; [example_wf|]. intros _. discriminate.
Qed.

(** ** The scenarios of the test suite *)

(** [MarketOrderBuy]: a market buy of 8 sweeps 5 at the first level and 3
    at the next. *)
Example market_order_sweeps :
  snd (fst (fst
    (add (Order_make 3 Buy 0 8 0 Market) true
         (submit_to (submit_to LimitBook_new (Order_make 1 Sell 10000 5 0 Limit))
                    (Order_make 2 Sell 10100 5 0 Limit))
         (0 : Z)))) =
  [mkTrade 3 1 10000 5 0; mkTrade 3 2 10100 3 0].
Proof. by vm_compute. Qed.

(** [IOCOrderPartialFill]: 5 of the 10 are filled, nothing rests. *)
Example ioc_order_partial_fill :
  snd (fst (fst (add ioc_2 true book_one_ask (0 : Z)))) = [mkTrade 2 1 100 5 0] /\
  total_orders (submit_to book_one_ask ioc_2) = 0%nat.
Proof. by vm_compute. Qed.

(** [FOKOrderRejected]: not enough rests; the book keeps its order. *)
Example fok_order_rejected :
  fst (fst (fst (fst (add fok_4 true book_one_ask (0 : Z))))) = false /\
  snd (fst (fst (add fok_4 true book_one_ask (0 : Z)))) = [] /\
  total_orders (submit_to book_one_ask fok_4) = 1%nat.
Proof. by vm_compute. Qed.

(** A replace at the same price sends the order to the back of its queue. *)
Example replace_loses_time_priority :
  map (fun kl => map slot_id (orders_ (snd kl)))
      (asks_ (run_command (Replace 1 100 5) book_two_asks (0 : Z))) = [[2; 1]].
Proof. by vm_compute. Qed.

(** ** FOK with a stale level total *)

(** C1 (the code departs from the claim): after the first of two asks of 5
    at one price has been filled, the level still reports a total of 10.
    A FOK buy of 10 at that price passes the pre-scan, trades the 5 that
    are left and is accepted: [add] returns true with trades that sum to 5,
    not to the order's quantity of 10. *)
Theorem fok_accepted_on_stale_total :
  reachable (T:=Z) book_after_fill /\
  order_index_ book_after_fill !! order_id fok_4 = None /\
  map (fun kl => (total_qty_ (snd kl), map remaining_qty (orders_ (snd kl))))
      (asks_ book_after_fill) = [(10, [5])] /\
  exists b' trades top clk',
    add fok_4 true book_after_fill (0 : Z) = (true, b', trades, top, clk') /\
    traded_qty trades = 5 /\ order_qty fok_4 = 10.
Proof.
  split; [apply book_after_fill_reachable|].
  split; [by vm_compute|]. split; [by vm_compute|].
  eexists _, _, _, _. split; [vm_compute; reflexivity|]. by vm_compute.
Qed.

(** ** Witnesses and counterexamples *)

(** C2, the claim as stated fails: a sell at tick [-1] rests, and a buy at
    tick 5 is then taken not to cross, because [would_cross] reads the best
    ask [-1] as "no ask"; it rests at 5, above the ask. *)
Lemma sentinel_ask_crosses_book :
  reachable (T:=Z) book_crossed /\
  bids_ book_crossed <> [] /\ asks_ book_crossed <> [] /\
  ~ (best_price Buy book_crossed < best_price Sell book_crossed).
Proof.
  split; [apply book_crossed_reachable|].
  split; [by vm_compute|]. split; [by vm_compute|].
  vm_compute. intros Hlt. discriminate Hlt.
Qed.

Lemma reachable_book_not_crossed_witness :
  best_price Buy book_two_sided < best_price Sell book_two_sided.
Proof.
  apply (proj1 (reachable_book_not_crossed (T:=Z) book_two_sided
                  book_two_sided_priced)).
  - vm_compute. discriminate.
  - vm_compute. discriminate.
Defined.

Lemma non_limit_orders_never_rest_witness :
  order_index_ (submit_to book_one_ask ioc_2) !! order_id ioc_2 = None.
Proof.
  refine (proj1 (non_limit_orders_never_rest (T:=Z) ioc_2 true book_one_ask 0
                   (submit_to book_one_ask ioc_2)
                   (snd (fst (fst (add ioc_2 true book_one_ask 0))))
                   (snd (fst (add ioc_2 true book_one_ask 0)))
                   (snd (add ioc_2 true book_one_ask 0))
                   book_one_ask_reachable _ _)).
  - vm_compute. discriminate.
  - vm_compute. reflexivity.
Defined.

Lemma failed_operation_leaves_book_unchanged_witness :
  fst (fst (fst (fst (add fok_4 true book_one_ask (0 : Z))))) = false /\
  snd (fst (fst (fst (add fok_4 true book_one_ask (0 : Z))))) = book_one_ask.
Proof.
  split; [vm_compute; reflexivity|].
  refine (proj1 (failed_operation_leaves_book_unchanged (T:=Z) book_one_ask
                   book_one_ask_reachable)
            fok_4 true 0 _
            (snd (fst (fst (add fok_4 true book_one_ask 0))))
            (snd (fst (add fok_4 true book_one_ask 0)))
            (snd (add fok_4 true book_one_ask 0)) _).
  vm_compute. reflexivity.
Defined.


Lemma trade_price_is_resting_price_witness :
  price_within Buy (trade_price (mkTrade 3 1 100 5 0)) (order_price buy_both).
Proof.
  refine (proj2 (trade_price_is_resting_price (T:=Z) buy_both true book_two_asks 0
                   (fst (fst (fst (fst (add buy_both true book_two_asks 0)))))
                   (snd (fst (fst (fst (add buy_both true book_two_asks 0)))))
                   (snd (fst (fst (add buy_both true book_two_asks 0))))
                   (snd (fst (add buy_both true book_two_asks 0)))
                   (snd (add buy_both true book_two_asks 0))
                   (mkTrade 3 1 100 5 0) _ _) _).
  - vm_compute. reflexivity.
  - vm_compute. left.
  - reflexivity.
Defined.

(** C7, the claim as stated fails: a buy that crosses the resting ask fills
    it; cancelling the buy's id afterwards finds nothing to cancel, and the
    ask is not back. *)
Lemma submit_cancel_loses_filled_maker :
  reachable (T:=Z) book_one_ask /\
  order_index_ book_one_ask !! order_id buy_3 = None /\
  cancel_in (submit_to book_one_ask buy_3) (order_id buy_3) <> book_one_ask.
Proof.
  split; [apply book_one_ask_reachable|]. split; [by vm_compute|].
  intros Heq. apply (f_equal (fun b => length (asks_ b))) in Heq.
  vm_compute in Heq. discriminate Heq.
Qed.

Lemma submit_cancel_round_trip_witness :
  cancel_in (submit_to book_one_ask bid_99) (order_id bid_99) = book_one_ask.
Proof.
  refine (submit_cancel_round_trip (T:=Z) bid_99 true book_one_ask 0
            (fst (fst (fst (fst (add bid_99 true book_one_ask 0)))))
            (submit_to book_one_ask bid_99)
            (snd (fst (add bid_99 true book_one_ask 0)))
            (snd (add bid_99 true book_one_ask 0))
            0
            (fst (fst (fst (cancel (order_id bid_99)
                              (submit_to book_one_ask bid_99) 0))))
            (cancel_in (submit_to book_one_ask bid_99) (order_id bid_99))
            (snd (fst (cancel (order_id bid_99) (submit_to book_one_ask bid_99) 0)))
            (snd (cancel (order_id bid_99) (submit_to book_one_ask bid_99) 0))
            book_one_ask_reachable _ _ _).
  - vm_compute. reflexivity.
  - vm_compute. reflexivity.
  - vm_compute. reflexivity.
Defined.


(** The binary64 evaluation agrees: the conversions of the tests come out
    as expected, and [-1.5] at tick size [1.0] is converted to [-1]. *)
Lemma from_double_binary64_examples :
  from_double_binary64 double_100 double_0_01 = Some 10000 /\
  from_double_binary64 double_100_5 double_0_01 = Some 10050 /\
  from_double_binary64 double_minus_1_5 double_one = Some (-1).
Proof. split; [|split]; by vm_compute. Qed.


Lemma failed_cancel_replace_emit_nothing_witness :
  fst (engine_cancel 7 small_engine) = false /\
  event_buffer_ (snd (engine_cancel 7 small_engine)) = event_buffer_ small_engine.
Proof.
  split; [vm_compute; reflexivity|].
  refine (proj1 (proj1 (failed_cancel_replace_emit_nothing (T:=Z) small_engine)
                   7 (snd (engine_cancel 7 small_engine)) _)).
  vm_compute. reflexivity.
Defined.

(** C10, the claim as stated fails for the largest requests: for
    [n = 2^63 + 1], a value of [size_t], the increment that ends
    [next_power_of_two] wraps to 0, and the buffer reports capacity 0,
    which is not a power of two at or above [n]. *)
Lemma ring_capacity_wraps :
  u64_range (2 ^ 63 + 1) /\
  capacity (RingBuffer_new EngineEvent_default (2 ^ 63 + 1)) = 0 /\
  ~ (2 ^ 63 + 1 <= capacity (RingBuffer_new EngineEvent_default (2 ^ 63 + 1))).
Proof.
  split; [unfold u64_range; lia|]. split; [by vm_compute|].
  vm_compute. intros Hle. by apply Hle.
Qed.

Lemma ring_buffer_capacity_witness :
  capacity (RingBuffer_new (0 : Z) 3) = 4 /\
  Forall (eq true) (fst (push_all [1; 2; 3] (RingBuffer_new (0 : Z) 3))) /\
  fst (push 4 (snd (push_all [1; 2; 3] (RingBuffer_new (0 : Z) 3)))) = false.
Proof.
  split; [reflexivity|].
  refine (proj1 (proj2 (proj2 (proj2 (proj2
            (ring_buffer_capacity (0 : Z) 3 _))))) [1; 2; 3] 4 _).
  - lia.
  - reflexivity.
Defined.

(** ** Lookups in a price map after a change at another key *)

Lemma map_find_erase_ne p p' m :
  p' <> p -> map_find p' (map_erase p m) = map_find p' m.
Proof.
  intros Hne. induction m as [|[k l] m IH]; [done|]. simpl.
  destruct (decide (k = p)) as [->|Hk]; simpl.
  - by destruct (decide (p = p')) as [->|_].
  - by rewrite IH.
Qed.

Lemma map_find_store_ne p p' v m :
  p' <> p -> map_find p' (map_store p v m) = map_find p' m.
Proof.
  intros Hne. induction m as [|[k l] m IH]; [done|]. simpl.
  destruct (decide (k = p)) as [->|Hk]; simpl.
  - by destruct (decide (p = p')) as [->|_].
  - by rewrite IH.
Qed.

Lemma map_find_store_eq p v l m :
  map_find p m = Some l -> map_find p (map_store p v m) = Some v.
Proof.
  induction m as [|[k l0] m IH]; [done|]. simpl.
  destruct (decide (k = p)) as [->|Hk]; simpl.
  - by rewrite decide_True.
  - rewrite decide_False by done. exact IH.
Qed.

Lemma map_find_upsert_ne before p p' f m :
  p' <> p -> map_find p' (map_upsert before p f m) = map_find p' m.
Proof.
  intros Hne. induction m as [|[k l] m IH]; simpl.
  - by rewrite decide_False.
  - destruct (decide (k = p)) as [->|Hk]; simpl.
    + by rewrite !decide_False by done.
    + destruct (before p k); simpl.
      * by rewrite (decide_False (P := p = p')) by done.
      * by rewrite IH.
Qed.

(** ** Index entries are backed by slots *)

Lemma backed_new : index_backed LimitBook_new.
Proof. unfold index_backed, backed. simpl. intros i loc. by rewrite lookup_empty. Qed.

Lemma index_backed_sides s b :
  index_backed b <->
  backed (order_index_ b)
         (loop_levels s (side_levels s b) (side_levels (opposite s) b)).
Proof.
  unfold index_backed, backed, loop_levels.
  split; intros Hb i loc Hix; destruct (Hb i loc Hix) as (l & Hf & Hin);
    exists l; split; try done;
    destruct s, (loc_side loc); simpl in *; done.
Qed.

Section LoopInvariants.

Context {T : Type} `{TimeSource T}.

Lemma match_step_backed o s own (st st' : MatchState) :
  backed (ms_index st) (loop_levels s own (ms_levels st)) ->
  match_step o st = Some st' ->
  backed (ms_index st') (loop_levels s own (ms_levels st')).
Proof.
  intros Hb Hstep.
  destruct (match_step_facts _ _ _ Hstep)
    as [bp level rest maker queue now fill rem trade
        Hq Hlv Hord Hpr Hnow Hq' Htr Hcase].
  destruct Hcase as [(Hrem & Hix & Hlv')|(Hrem & Hix & Hlv')];
    rewrite Hix, Hlv'; intros i loc Hi.
  - apply lookup_delete_Some in Hi as [Hne Hi].
    destruct (Hb i loc Hi) as (l & Hf & Hin).
    unfold loop_levels in *. destruct (decide (loc_side loc = s)); [by eauto|].
    rewrite Hlv in Hf. simpl in Hf.
    destruct (decide (bp = loc_price loc)) as [Hp|Hp].
    + injection Hf as <-. unfold slot_ids in Hin. rewrite Hord in Hin.
      simpl in Hin. apply elem_of_cons in Hin as [Hin|Hin]; [done|].
      destruct queue as [|bo queue]; [by apply elem_of_nil in Hin|].
      eexists. simpl. rewrite decide_True by done. split; [done|]. done.
    + exists l. split; [|done].
      destruct queue; [done|]. simpl. by rewrite decide_False.
  - destruct (Hb i loc Hi) as (l & Hf & Hin).
    unfold loop_levels in *. destruct (decide (loc_side loc = s)); [by eauto|].
    rewrite Hlv in Hf. simpl in *.
    destruct (decide (bp = loc_price loc)) as [Hp|Hp]; [|by eauto].
    injection Hf as <-. eexists. split; [done|].
    unfold slot_ids in *. by rewrite Hord in Hin.
Qed.

Lemma match_step_live o s (st st' : MatchState) :
  side_inv (ms_index st) s (ms_levels st) ->
  side_live (ms_levels st) ->
  match_step o st = Some st' ->
  side_live (ms_levels st').
Proof.
  intros Hinv Hl Hstep.
  destruct (match_step_facts _ _ _ Hstep)
    as [bp level rest maker queue now fill rem trade
        Hq Hlv Hord Hpr Hnow Hq' Htr Hcase].
  unfold side_live in *. rewrite Hlv in Hl.
  apply Forall_cons in Hl as [Hl0 Hl]. simpl in Hl0. rewrite Hord in Hl0.
  apply Forall_cons in Hl0 as [Hmk Hqu].
  destruct Hcase as [(Hrem & Hix & Hlv')|(Hrem & Hix & Hlv')]; rewrite Hlv'.
  - destruct queue; [done|]. by apply Forall_cons.
  - apply Forall_cons. split; [|done]. simpl. apply Forall_cons. split; [|done].
    assert (Hr : u64_range (remaining_qty maker)).
    { rewrite Hlv in Hinv. destruct Hinv as [_ Hf].
      apply Forall_cons in Hf as [(_ & _ & _ & Hsl) _]. simpl in Hsl.
      rewrite Hord in Hsl. apply Forall_cons in Hsl as [Hs _].
      by destruct Hs as (_ & _ & _ & _ & ?). }
    unfold slot_live in *. simpl. subst rem fill.
    rewrite u64_id in * by (unfold u64_range in *; lia). lia.
Qed.

End LoopInvariants.

Lemma side_live_elem m :
  side_live m <-> forall p l, (p, l) ∈ m -> Forall slot_live (orders_ l).
Proof.
  unfold side_live. rewrite Forall_forall. split.
  - intros Hm p l Hin. exact (Hm (p, l) Hin).
  - intros Hm [p l] Hin. exact (Hm p l Hin).
Qed.

Lemma book_live_sides s b :
  book_live b <-> side_live (side_levels s b) /\ side_live (side_levels (opposite s) b).
Proof. unfold book_live. destruct s; simpl; tauto. Qed.

Lemma sound_book_new : sound_book LimitBook_new.
Proof.
  split; [apply book_inv_new|apply backed_new|].
  split; apply Forall_nil_2.
Qed.

Section SoundBook.

Context {T : Type} `{TimeSource T}.

Lemma match_order_sound o b (clk : T) w b' trades clk' :
  sound_book b -> match_order o b clk = (w, b', trades, clk') -> sound_book b'.
Proof.
  intros [Hb Hbk Hlv] Hm.
  split; [by eapply match_order_inv|..]; revert Hm;
    rewrite match_order_final; intros [= _ <- _ _]; unfold match_final;
    set (s := order_side o); set (st0 := mkMatch _ _ _ _ _);
    set (fuel := S (S (slot_count _)));
    pose (P := fun st : MatchState (T:=T) =>
      side_inv (ms_index st) (opposite s) (ms_levels st) /\
      side_inv (ms_index st) s (side_levels s b) /\
      backed (ms_index st)
             (loop_levels s (side_levels s b) (ms_levels st)) /\
      side_live (ms_levels st));
    assert (HP : P (match_loop fuel o st0)).
  1,3: apply (match_loop_invariant P).
  1,3: intros st st' (H1 & H2 & H3 & H4) Hstep;
       destruct (match_step_inv o s _ _ _ H1 H2 Hstep) as [H1' H2'];
       split; [done|split; [done|split]];
       [by eapply match_step_backed|
        eapply match_step_live; [exact H1|exact H4|exact Hstep]].
  1,2: destruct (proj1 (book_inv_sides s b) Hb) as [Hown Hopp];
       split; [done|split; [done|split]];
       [by apply (index_backed_sides s)|
        by apply (proj1 (book_live_sides s b) Hlv)].
  - destruct HP as (_ & _ & HP & _). clear P. subst fuel st0 s.
    apply (index_backed_sides (order_side o)).
    rewrite !side_levels_with_index.
    destruct (order_side o); simpl in *; exact HP.
  - destruct HP as (_ & _ & _ & HP). clear P. subst fuel st0 s.
    apply (book_live_sides (order_side o)).
    destruct (proj1 (book_live_sides (order_side o) b) Hlv) as [Hl1 Hl2].
    destruct (order_side o); simpl in *; done.
Qed.

End SoundBook.

Lemma add_resting_order_sound o b :
  sound_book b ->
  order_index_ b !! order_id o = None ->
  order_type o = Limit -> u64_range (order_qty o) -> 0 < order_qty o ->
  sound_book (add_resting_order o b).
Proof.
  intros [Hb Hbk Hlv] Hfresh Hty Hq Hpos.
  split; [by apply add_resting_order_inv|..];
    rewrite add_resting_order_levels;
    destruct (proj1 (book_inv_sides (order_side o) b) Hb) as [Hown Hopp];
    pose proof (side_inv_sorted _ _ _ Hown) as Hsorted.
  - apply (index_backed_sides (order_side o)).
    rewrite !side_levels_with_index, side_levels_with_same, side_levels_with_other.
    simpl. rewrite ?order_index_with_side.
    apply (index_backed_sides (order_side o)) in Hbk.
    intros i loc Hi. unfold loop_levels in *.
    apply lookup_insert_Some in Hi as [[<- <-]|[Hne Hi]]; simpl.
    + rewrite decide_True by done. rewrite map_find_upsert by done.
      eexists. split; [done|]. unfold slot_ids, add_order. simpl.
      rewrite map_app. apply elem_of_app. right. apply elem_of_cons. by left.
    + destruct (Hbk i loc Hi) as (l & Hf & Hin).
      destruct (decide (loc_side loc = order_side o)); [|by eauto].
      destruct (decide (loc_price loc = order_price o)) as [Hp|Hp].
      * rewrite Hp in *. rewrite map_find_upsert by done. rewrite Hf. simpl.
        eexists. split; [done|]. unfold slot_ids, add_order. simpl.
        rewrite map_app. apply elem_of_app. by left.
      * rewrite map_find_upsert_ne by done. by eauto.
  - apply (book_live_sides (order_side o)).
    rewrite !side_levels_with_index, side_levels_with_same, side_levels_with_other.
    destruct (proj1 (book_live_sides (order_side o) b) Hlv) as [Hl1 Hl2].
    split; [|done]. apply side_live_elem. intros p l Hin.
    assert (Hnew : slot_live (BookOrder_of o)).
    { unfold slot_live, BookOrder_of. simpl. lia. }
    apply map_upsert_elem in Hin; [|done].
    destruct Hin as [Hin|[(l0 & [= -> ->] & Hin)|([= -> ->] & _)]].
    + by eapply (proj1 (side_live_elem _) Hl1).
    + simpl. apply Forall_app. split; [|by apply Forall_singleton].
      by eapply (proj1 (side_live_elem _) Hl1).
    + simpl. by apply Forall_singleton.
Qed.

(** What [cancel] does to the map of a resting order's side. *)
Lemma cancel_levels_found i p l m :
  map_find p m = Some l -> i ∈ slot_ids l ->
  exists q1 bo q2,
    orders_ l = q1 ++ bo :: q2 /\ slot_id bo = i /\ (i ∉ map slot_id q1) /\
    cancel_levels i p m =
      (match q1 ++ q2 with
       | [] => map_erase p m
       | _ => map_store p (mkLevel (q1 ++ q2)
                             (u64 (total_qty_ l - remaining_qty bo))) m
       end, remaining_qty bo).
Proof.
  intros Hf Hin. unfold cancel_levels. rewrite Hf. unfold remove_order.
  destruct (remove_first i (orders_ l)) as [[q r]|] eqn:Hrm.
  - destruct (remove_first_some _ _ _ _ Hrm) as (q1 & bo & q2 & Hl & -> & Hid & -> & Hq1).
    exists q1, bo, q2. repeat split; try done.
    unfold level_empty. simpl. by destruct (q1 ++ q2).
  - apply remove_first_none in Hrm. done.
Qed.

Section SoundCommands.

Context {T : Type} `{TimeSource T}.

Lemma cancel_sound i b (clk : T) ok b' ev clk' :
  sound_book b -> cancel i b clk = (ok, b', ev, clk') -> sound_book b'.
Proof.
  intros Hs Hc. split; [eapply cancel_inv; [apply Hs|exact Hc]|..];
    destruct Hs as [Hb Hbk Hlv]; revert Hc;
    (destruct (order_index_ b !! i) as [[s p]|] eqn:Hix;
     [rewrite (cancel_known _ _ _ _ Hix)|rewrite cancel_unknown by done];
     intros [= _ <- _ _]; [|done]); simpl;
    destruct (proj1 (book_inv_sides s b) Hb) as [Hown Hopp];
    pose proof (side_inv_sorted _ _ _ Hown) as Hsorted;
    destruct (Hbk i _ Hix) as (l & Hf & Hin); simpl in Hf;
    destruct (cancel_levels_found _ _ _ _ Hf Hin)
      as (q1 & bo & q2 & Hl & Hid & Hq1 & ->); simpl.
  - apply (index_backed_sides s).
    rewrite !side_levels_with_index, side_levels_with_same, side_levels_with_other.
    simpl. rewrite ?order_index_with_side.
    apply (index_backed_sides s) in Hbk.
    intros j loc Hj. apply lookup_delete_Some in Hj as [Hne Hj].
    destruct (Hbk j loc Hj) as (l' & Hf' & Hin'). unfold loop_levels in *.
    destruct (decide (loc_side loc = s)); [|by eauto].
    destruct (decide (loc_price loc = p)) as [Hp|Hp].
    + rewrite Hp in *. rewrite Hf in Hf'. injection Hf' as <-.
      assert (Hj' : j ∈ map slot_id (q1 ++ q2)).
      { unfold slot_ids in Hin'. rewrite Hl in Hin'.
        rewrite map_app in *. simpl in Hin'.
        rewrite elem_of_app, elem_of_cons in Hin'. rewrite elem_of_app.
        destruct Hin' as [?|[?|?]]; [by left|congruence|by right]. }
      destruct (q1 ++ q2) as [|x qs] eqn:Hq; [by apply elem_of_nil in Hj'|].
      eexists. split; [by eapply map_find_store_eq|]. done.
    + exists l'. split; [|done].
      destruct (q1 ++ q2); [by rewrite map_find_erase_ne|by rewrite map_find_store_ne].
  - apply (book_live_sides s).
    rewrite !side_levels_with_index, side_levels_with_same, side_levels_with_other.
    destruct (proj1 (book_live_sides s b) Hlv) as [Hl1 Hl2].
    split; [|done]. apply side_live_elem. intros p' l' Hin'.
    pose proof (proj1 (side_live_elem _) Hl1) as Hall.
    destruct (q1 ++ q2) as [|x qs] eqn:Hq.
    + apply (map_erase_elem s) in Hin' as [Hin' _]; [|done]. by eapply Hall.
    + apply (map_store_elem_sorted s) in Hin'; [|done].
      destruct Hin' as [[= -> ->]|[Hin' _]]; [|by eapply Hall].
      simpl. rewrite <- Hq.
      pose proof (Hall _ _ (map_find_elem _ _ _ Hf)) as Hlive.
      rewrite Hl in Hlive. apply Forall_app in Hlive as [Ha Hb'].
      apply Forall_cons in Hb' as [_ Hb']. by apply Forall_app.
Qed.

Lemma add_sound o want_top b (clk : T) ok b' trades top clk' :
  sound_book b -> u64_range (order_qty o) ->
  add o want_top b clk = (ok, b', trades, top, clk') -> sound_book b'.
Proof.
  intros Hs Hq Ha.
  destruct (add_cases _ _ _ _ _ _ _ _ _ Ha)
    as [(_ & -> & _)|(_ & Hfresh & [(w & b1 & c1 & Hm & _ & ->)|(Hty & _ & _ & ->)])];
    [done|..].
  - pose proof (match_order_sound _ _ _ _ _ _ _ Hs Hm) as Hs1.
    destruct (match_order_frame _ _ _ _ _ _ _ Hm) as (Hw & Hq1 & Hix & _).
    destruct (0 <? order_qty w) eqn:Hpos; [|done].
    destruct (is_limit o) eqn:Hlim; [|done]. simpl.
    apply Z.ltb_lt in Hpos. apply bool_decide_eq_true in Hlim.
    apply add_resting_order_sound; try done.
    + rewrite Hw. simpl. by apply Hix.
    + rewrite Hw. done.
    + by apply Hq1.
  - destruct (0 <? order_qty o) eqn:Hpos; [|done].
    apply Z.ltb_lt in Hpos. by apply add_resting_order_sound.
Qed.

Lemma replace_sound i new_price new_qty b (clk : T) ok b' trades ev clk' :
  sound_book b -> u64_range new_qty ->
  replace i new_price new_qty b clk = (ok, b', trades, ev, clk') -> sound_book b'.
Proof.
  intros Hb Hq. unfold replace.
  destruct (order_index_ b !! i) as [loc|] eqn:Hix.
  2:{ by intros [= _ <- _ _ _]. }
  destruct (match map_find _ _ with Some l => find_order i l | None => None end)
    as [bo|].
  2:{ by intros [= _ <- _ _ _]. }
  destruct (cancel i b clk) as [[[okc b1] evc] c1] eqn:Hc.
  pose proof (cancel_sound _ _ _ _ _ _ _ Hb Hc) as Hb1.
  destruct okc.
  2:{ by intros [= _ <- _ _ _]. }
  destruct (now_ns c1) as [now c2].
  destruct (add _ false b1 c2) as [[[[oka b2] t2] tp] c3] eqn:Ha.
  assert (Hb2 : sound_book b2) by (eapply add_sound; [exact Hb1| |exact Ha]; done).
  destruct oka; by intros [= _ <- _ _ _].
Qed.

Lemma run_command_sound c b (clk : T) :
  sound_book b -> command_wf c -> sound_book (run_command c b clk).
Proof.
  intros Hb Hwf. destruct c as [o wt|i|i p q]; simpl.
  - destruct (add o wt b clk) as [[[[ok b'] tr] tp] c'] eqn:Ha.
    eapply add_sound; [exact Hb| |exact Ha]. by destruct Hwf as (_ & ? & _).
  - destruct (cancel i b clk) as [[[ok b'] ev] c'] eqn:Hc.
    by eapply cancel_sound.
  - destruct (replace i p q b clk) as [[[[ok b'] tr] ev] c'] eqn:Hr.
    eapply replace_sound; [exact Hb| |exact Hr]. by destruct Hwf as (_ & ? & _).
Qed.

Lemma reachable_sound b : reachable (T:=T) b -> sound_book b.
Proof.
  intros Hr. induction Hr as [|b c clk Hr IH Hc]; [apply sound_book_new|].
  by apply run_command_sound.
Qed.

End SoundCommands.

(** ** The shape of a reachable book *)

Lemma has_slot_find ix s m i :
  side_inv ix s m ->
  has_slot i m <->
  exists p l bo, map_find p m = Some l /\ bo ∈ orders_ l /\ slot_id bo = i.
Proof.
  intros Hinv. split.
  - intros (p & l & bo & Hin & Hbo & Hid). exists p, l, bo.
    split; [|done]. eapply map_find_sorted; [|done]. by eapply side_inv_sorted.
  - intros (p & l & bo & Hf & Hbo & Hid). exists p, l, bo.
    split; [|done]. by apply map_find_elem.
Qed.

Lemma sound_book_indexed_iff b i s p :
  sound_book b ->
  order_index_ b !! i = Some (mkLoc s p) <->
  exists l bo,
    map_find p (side_levels s b) = Some l /\ bo ∈ orders_ l /\ slot_id bo = i.
Proof.
  intros [Hb Hbk _]. split.
  - intros Hix. destruct (Hbk _ _ Hix) as (l & Hf & Hin). simpl in Hf.
    apply list_elem_of_fmap in Hin as (bo & -> & Hbo). by exists l, bo.
  - intros (l & bo & Hf & Hbo & <-).
    destruct (proj1 (book_inv_sides s b) Hb) as [Hown _].
    apply map_find_elem in Hf.
    pose proof (side_inv_level _ _ _ _ _ Hown Hf) as Hl.
    by destruct (level_inv_slot _ _ _ _ _ Hl Hbo) as (? & _).
Qed.

Lemma sound_book_ids_indexed b i :
  sound_book b -> i ∈ book_slot_ids b <-> is_Some (order_index_ b !! i).
Proof.
  intros Hs. pose proof Hs as [[Hbid Hask] Hbk _].
  unfold book_slot_ids. rewrite elem_of_app, !elem_of_queue_ids. split.
  - intros [Hh|Hh].
    + destruct (side_inv_located _ _ _ _ Hbid Hh) as (p & Hix & _). by eexists.
    + destruct (side_inv_located _ _ _ _ Hask Hh) as (p & Hix & _). by eexists.
  - intros [[s p] Hix].
    apply (sound_book_indexed_iff _ _ _ _ Hs) in Hix as (l & bo & Hf & Hbo & Hid).
    apply map_find_elem in Hf.
    destruct s; [left|right]; by exists p, l, bo.
Qed.

Lemma sound_book_ids_nodup b : sound_book b -> NoDup (book_slot_ids b).
Proof.
  intros [[Hbid Hask] _ _]. unfold book_slot_ids. apply NoDup_app.
  split; [by eapply side_inv_queue_nodup|].
  split; [|by eapply side_inv_queue_nodup].
  intros i Hb Ha. apply elem_of_queue_ids in Hb, Ha.
  destruct (side_inv_located _ _ _ _ Hbid Hb) as (p & Hix & _).
  destruct (side_inv_located _ _ _ _ Hask Ha) as (p' & Hix' & _).
  congruence.
Qed.

Lemma sound_book_total_orders b :
  sound_book b -> total_orders b = length (book_slot_ids b).
Proof.
  intros Hs. unfold total_orders.
  rewrite <- (size_dom (D := gset Z)).
  rewrite <- (size_list_to_set (C := gset Z) (book_slot_ids b))
    by by apply sound_book_ids_nodup.
  f_equal. apply set_eq. intros i.
  rewrite elem_of_dom, elem_of_list_to_set.
  symmetry. by apply sound_book_ids_indexed.
Qed.

Lemma StronglySorted_weaken {A} (R R' : A -> A -> Prop) l :
  (forall x y, R x y -> R' x y) -> StronglySorted R l -> StronglySorted R' l.
Proof.
  intros HR. induction 1 as [|x l Hl IH Hx]; constructor; [done|].
  eapply Forall_impl; [exact Hx|]. intros y. apply HR.
Qed.

Section BookShape.

Context {T : Type} `{TimeSource T}.

(** X1.  In a reachable book the bid prices strictly decrease and the ask
    prices strictly increase in iteration order, and no level is empty, so
    that [cleanup_empty_level] finds nothing to erase. *)
Theorem reachable_levels_ordered_nonempty b :
  reachable (T:=T) b ->
  StronglySorted (fun p q => q < p) (keys (bids_ b)) /\
  StronglySorted (fun p q => p < q) (keys (asks_ b)) /\
  (forall s p l, (p, l) ∈ side_levels s b -> orders_ l <> []) /\
  (forall s p, cleanup_empty_level s p b = b).
Proof.
  intros Hr. pose proof (reachable_inv _ Hr) as Hb.
  destruct Hb as [Hbid Hask]. split; [|split; [|split]].
  - destruct Hbid as [Hsorted _]. unfold map_sorted in Hsorted.
    eapply StronglySorted_weaken; [|exact Hsorted].
    intros p q Hpq. simpl in Hpq. lia.
  - destruct Hask as [Hsorted _]. unfold map_sorted in Hsorted.
    eapply StronglySorted_weaken; [|exact Hsorted].
    intros p q Hpq. simpl in Hpq. lia.
  - intros s p l Hin.
    assert (Hl : level_inv (order_index_ b) s p l).
    { destruct s; by eapply side_inv_level. }
    by destruct Hl.
  - intros s p. unfold cleanup_empty_level.
    destruct (map_find p (side_levels s b)) as [l|] eqn:Hf; [|done].
    assert (Hl : level_inv (order_index_ b) s p l).
    { apply map_find_elem in Hf. destruct s; by eapply side_inv_level. }
    destruct Hl as (Hne & _). unfold level_empty. by destruct (orders_ l).
Qed.

(** X2.  In a reachable book the index and the queues agree: an id is
    indexed at a side and price exactly when a slot with that id rests in
    the level of that side at that price. *)
Theorem index_agrees_with_queues b i s p :
  reachable (T:=T) b ->
  order_index_ b !! i = Some (mkLoc s p) <->
  exists l bo,
    map_find p (side_levels s b) = Some l /\ bo ∈ orders_ l /\ slot_id bo = i.
Proof.
  intros Hr. destruct (reachable_sound _ Hr) as [Hb Hbk _]. split.
  - intros Hix. destruct (Hbk _ _ Hix) as (l & Hf & Hin). simpl in Hf.
    apply list_elem_of_fmap in Hin as (bo & -> & Hbo). by exists l, bo.
  - intros (l & bo & Hf & Hbo & <-).
    destruct (proj1 (book_inv_sides s b) Hb) as [Hown _].
    apply map_find_elem in Hf.
    pose proof (side_inv_level _ _ _ _ _ Hown Hf) as Hl.
    by destruct (level_inv_slot _ _ _ _ _ Hl Hbo) as (? & _).
Qed.

(** X3.  Every slot that rests in a reachable book is a limit order of the
    side and price of its level, with a remaining quantity that is positive
    and at most the order's quantity. *)
Theorem resting_slots_are_live_limit_orders b s p l bo :
  reachable (T:=T) b ->
  (p, l) ∈ side_levels s b -> bo ∈ orders_ l ->
  order_type (order bo) = Limit /\
  order_side (order bo) = s /\
  order_price (order bo) = p /\
  0 < remaining_qty bo <= order_qty (order bo).
Proof.
  intros Hr Hin Hbo. destruct (reachable_sound _ Hr) as [Hb _ Hlv].
  destruct (proj1 (book_inv_sides s b) Hb) as [Hown _].
  pose proof (side_inv_level _ _ _ _ _ Hown Hin) as Hl.
  destruct (level_inv_slot _ _ _ _ _ Hl Hbo) as (_ & Hty & Hsd & Hpr & _).
  split; [done|]. split; [done|]. split; [done|].
  destruct (proj1 (book_live_sides s b) Hlv) as [Hl1 _].
  pose proof (proj1 (side_live_elem _) Hl1 _ _ Hin) as Hall.
  by apply (proj1 (Forall_forall _ _) Hall).
Qed.

(** X4.  [total_orders] of a reachable book is the number of resting
    slots, and no id rests twice, on either side. *)
Theorem total_orders_counts_slots b :
  reachable (T:=T) b ->
  total_orders b = length (book_slot_ids b) /\ NoDup (book_slot_ids b).
Proof.
  intros Hr. pose proof (reachable_sound _ Hr) as Hs.
  split; [by apply sound_book_total_orders|by apply sound_book_ids_nodup].
Qed.

End BookShape.

(** ** Quantities through the matching loop *)

Lemma side_sum_cons p l m : side_sum ((p, l) :: m) = level_sum l + side_sum m.
Proof. done. Qed.

Lemma reach_qty_cons o p l m :
  reach_qty o ((p, l) :: m) =
  if negb (is_market o) && price_breaks (order_side o) p (order_price o)
  then 0 else level_sum l + reach_qty o m.
Proof. done. Qed.

Lemma side_sum_nonneg ix s m : side_inv ix s m -> 0 <= side_sum m.
Proof.
  induction m as [|[p l] m IH]; intros Hi; [done|].
  apply side_inv_cons in Hi as (_ & Hl & Hm). rewrite side_sum_cons.
  pose proof (level_sum_nonneg _ _ _ _ Hl). specialize (IH Hm). lia.
Qed.

Lemma resting_qty_sides s b :
  resting_qty b = side_sum (side_levels s b) + side_sum (side_levels (opposite s) b).
Proof. unfold resting_qty. destruct s; simpl; lia. Qed.

Section Volume.

Context {T : Type} `{TimeSource T}.

(** One round of the loop moves the same positive quantity from the
    taker's open quantity, from the opposite side and from what rests
    within the taker's limit into the trades. *)
Lemma match_step_volume o s (st st' : MatchState) :
  side_inv (ms_index st) s (ms_levels st) ->
  side_live (ms_levels st) ->
  u64_range (ms_qty st) ->
  match_step o st = Some st' ->
  exists t,
    ms_trades st' = ms_trades st ++ [t] /\ 0 < trade_qty t /\
    ms_qty st' = ms_qty st - trade_qty t /\
    reach_qty o (ms_levels st') = reach_qty o (ms_levels st) - trade_qty t /\
    side_sum (ms_levels st') = side_sum (ms_levels st) - trade_qty t /\
    u64_range (ms_qty st').
Proof.
  intros Hi Hlive Hrange Hs.
  destruct (match_step_facts _ _ _ Hs)
    as [bp lvl rest mk q now fill rem trade Hopen Hlv Hord Hcross _ Hqty Htr Hres].
  rewrite Hlv in Hi, Hlive. apply side_inv_cons in Hi as (_ & Hl & Hrest).
  destruct Hl as (_ & _ & _ & Hsl). rewrite Hord in Hsl.
  apply Forall_cons in Hsl as [(_ & _ & _ & _ & Hr) Hsl].
  apply Forall_cons in Hlive as [Hlive _]. simpl in Hlive. rewrite Hord in Hlive.
  apply Forall_cons in Hlive as [[Hpos _] _].
  assert (Hbrk : negb (is_market o) &&
                 price_breaks (order_side o) bp (order_price o) = false).
  { destruct (is_market o); [done|]. simpl. by apply Hcross. }
  destruct Hr as [Hr0 Hr1]. destruct Hrange as [Hq0 Hq1].
  assert (Hfill : 0 < fill <= ms_qty st /\ fill <= remaining_qty mk)
    by (subst fill; lia).
  assert (Hqty' : ms_qty st' = ms_qty st - fill).
  { rewrite Hqty. apply u64_id. unfold u64_range. lia. }
  assert (Hrem : rem = remaining_qty mk - fill).
  { subst rem. apply u64_id. unfold u64_range. lia. }
  exists trade. subst trade. simpl.
  split; [done|]. split; [lia|]. split; [done|].
  assert (Hlsum : level_sum lvl = remaining_qty mk + level_sum (mkLevel q 0)).
  { unfold level_sum. by rewrite Hord. }
  rewrite Hlv, reach_qty_cons, Hbrk, side_sum_cons, Hlsum.
  destruct Hres as [(Hz & _ & Hl')|(Hnz & _ & Hl')]; rewrite Hl'.
  - destruct q as [|m2 q].
    + unfold level_sum. simpl.
      split; [lia|]. split; [lia|]. unfold u64_range. lia.
    + rewrite reach_qty_cons, Hbrk, side_sum_cons. unfold level_sum. simpl.
      split; [lia|]. split; [lia|]. unfold u64_range. lia.
  - rewrite reach_qty_cons, Hbrk, side_sum_cons. unfold level_sum. simpl.
    split; [lia|]. split; [lia|]. unfold u64_range. lia.
Qed.

(** The loop as a whole: what it trades leaves the taker, the opposite side
    and the quantity in reach alike, and every trade has a positive
    quantity. *)
Lemma match_loop_volume o s fuel (st : MatchState) :
  side_inv (ms_index st) s (ms_levels st) ->
  side_live (ms_levels st) ->
  u64_range (ms_qty st) ->
  exists ts,
    ms_trades (match_loop fuel o st) = ms_trades st ++ ts /\
    Forall (fun t => 0 < trade_qty t) ts /\
    ms_qty (match_loop fuel o st) = ms_qty st - traded_qty ts /\
    reach_qty o (ms_levels (match_loop fuel o st)) =
      reach_qty o (ms_levels st) - traded_qty ts /\
    side_sum (ms_levels (match_loop fuel o st)) =
      side_sum (ms_levels st) - traded_qty ts /\
    u64_range (ms_qty (match_loop fuel o st)) /\
    side_inv (ms_index (match_loop fuel o st)) s (ms_levels (match_loop fuel o st)).
Proof.
  revert st. induction fuel as [|fuel IH]; intros st Hi Hlive Hrange; simpl.
  { exists []. rewrite app_nil_r. unfold traded_qty. simpl.
    split; [done|]. split; [done|]. split; [lia|]. split; [lia|].
    split; [lia|]. done. }
  destruct (match_step o st) as [st'|] eqn:Hs.
  2:{ exists []. rewrite app_nil_r. unfold traded_qty. simpl.
      split; [done|]. split; [done|]. split; [lia|]. split; [lia|].
      split; [lia|]. done. }
  destruct (match_step_volume _ _ _ _ Hi Hlive Hrange Hs)
    as (t & Htr & Hpos & Hq & Hreach & Hsum & Hrange').
  assert (Hi' : side_inv (ms_index st') s (ms_levels st')).
  { pose proof (match_step_inv o (opposite s) [] st st') as Hstep.
    rewrite opposite_involutive in Hstep.
    by destruct (Hstep Hi (side_inv_nil _ _) Hs). }
  pose proof (match_step_live _ _ _ _ Hi Hlive Hs) as Hlive'.
  destruct (IH st' Hi' Hlive' Hrange')
    as (ts & Htr' & Hall & Hq' & Hreach' & Hsum' & Hrange'' & Hi'').
  exists (t :: ts). rewrite Htr', Htr, <- app_assoc. simpl.
  split; [done|]. split; [by apply Forall_cons|].
  replace (traded_qty (t :: ts)) with (trade_qty t + traded_qty ts) by done.
  split; [lia|]. split; [lia|]. split; [lia|]. done.
Qed.

(** [match_order] trades the smaller of the order's quantity and the
    quantity that rests within its limit. *)
Lemma match_order_volume o b (clk : T) w b' trades clk' :
  sound_book b -> u64_range (order_qty o) ->
  match_order o b clk = (w, b', trades, clk') ->
  Forall (fun t => 0 < trade_qty t) trades /\
  order_qty w = order_qty o - traded_qty trades /\
  side_sum (side_levels (opposite (order_side o)) b') =
    side_sum (side_levels (opposite (order_side o)) b) - traded_qty trades /\
  traded_qty trades =
    Z.min (order_qty o) (reach_qty o (side_levels (opposite (order_side o)) b)).
Proof.
  intros [Hb _ Hlv] Hr. rewrite match_order_final. intros [= <- <- <- _]. simpl.
  destruct (proj1 (book_inv_sides (order_side o) b) Hb) as [_ Hopp].
  destruct (proj1 (book_live_sides (order_side o) b) Hlv) as [_ Hlopp].
  destruct (match_loop_volume o (opposite (order_side o))
              (S (S (slot_count (side_levels (opposite (order_side o)) b))))
              (mkMatch (order_qty o) (side_levels (opposite (order_side o)) b)
                       (order_index_ b) [] clk))
    as (ts & Htr & Hall & Hq & Hreach & Hsum & Hrf & Hi); [done|done|done|].
  fold (match_final o b clk) in Htr, Hq, Hreach, Hsum, Hrf, Hi.
  simpl in Htr, Hq, Hreach, Hsum. rewrite Htr.
  split; [done|]. split; [done|]. split.
  { rewrite side_levels_with_index.
    destruct (order_side o); simpl in *; exact Hsum. }
  pose proof (reach_qty_nonneg _ _ o _ Hi) as Hnn.
  assert (Hzero : ms_qty (match_final o b clk) = 0 \/
                  reach_qty o (ms_levels (match_final o b clk)) = 0).
  { destruct (match_step_none _ _ (match_final_exited o b clk)) as [Hle|Hexit].
    - left. destruct Hrf. lia.
    - right. destruct (ms_levels (match_final o b clk)) as [|[bp lvl] rest] eqn:Hl.
      + done.
      + apply side_inv_cons in Hi as (_ & (Hne & _) & _).
        destruct Hexit as [[Hnm Hbrk]|Hempty]; [|done].
        simpl. by rewrite Hnm, Hbrk. }
  destruct Hrf. lia.
Qed.

End Volume.

Lemma level_sum_add_order bo l :
  level_sum (add_order bo l) = level_sum l + remaining_qty bo.
Proof.
  unfold level_sum, add_order. simpl.
  induction (orders_ l) as [|x q IH]; simpl; lia.
Qed.

Lemma side_sum_upsert before p bo m :
  side_sum (map_upsert before p (add_order bo) m) = side_sum m + remaining_qty bo.
Proof.
  induction m as [|[k l] m IH]; cbn [map_upsert].
  - rewrite side_sum_cons, level_sum_add_order. unfold side_sum, level_sum. simpl. lia.
  - destruct (decide (k = p)).
    + rewrite !side_sum_cons, level_sum_add_order. lia.
    + destruct (before p k).
      * rewrite !side_sum_cons, level_sum_add_order. unfold level_sum at 1.
        simpl. lia.
      * rewrite !side_sum_cons, IH. lia.
Qed.

Lemma resting_qty_add_resting_order o b :
  resting_qty (add_resting_order o b) = resting_qty b + order_qty o.
Proof.
  rewrite add_resting_order_levels, !(resting_qty_sides (order_side o)).
  rewrite !side_levels_with_index, side_levels_with_same, side_levels_with_other.
  rewrite side_sum_upsert. simpl. lia.
Qed.

(** The makers and prices of a run of trades are a prefix of the queue the
    run walks. *)
Lemma trades_follow_prefix o queue ts :
  trades_follow o queue ts ->
  map maker_id ts = take (length ts) (queue_ids queue) /\
  map trade_price ts = take (length ts) (map fst queue).
Proof.
  revert queue. induction ts as [|t ts IH]; intros queue Hf; [done|].
  destruct queue as [|[p bo] queue]; [done|]. simpl in Hf.
  destruct Hf as (_ & Hm & Hp & _ & _ & _ & Hf).
  destruct (IH _ Hf) as [IH1 IH2]. simpl. by rewrite Hm, Hp, IH1, IH2.
Qed.

Section AddVolume.

Context {T : Type} `{TimeSource T}.

(** X5.  An accepted order trades with everything that rests within its
    limit, up to its own quantity: the traded quantity is the smaller of
    the two.  (For a limit order the opposite side must hold no level at
    the tick count that stands for "no price".) *)
Theorem accepted_order_trades_what_is_in_reach
    o want_top b (clk : T) b' trades top clk' :
  reachable (T:=T) b -> order_wf o ->
  (order_type o = Limit ->
   INVALID_PRICE ∉ keys (side_levels (opposite (order_side o)) b)) ->
  add o want_top b clk = (true, b', trades, top, clk') ->
  traded_qty trades =
    Z.min (order_qty o) (reach_qty o (side_levels (opposite (order_side o)) b)).
Proof.
  intros Hr (_ & Hq & _) Hsent Ha. pose proof (reachable_sound _ Hr) as Hs.
  destruct (add_cases _ _ _ _ _ _ _ _ _ Ha)
    as [(? & _)|(_ & _ & [(w & b1 & c1 & Hm & _)|(Hty & Hcross & -> & _)])];
    [done|..].
  - by destruct (match_order_volume _ _ _ _ _ _ _ Hs Hq Hm) as (_ & _ & _ & ?).
  - assert (Hnm : is_market o = false).
    { unfold is_market. rewrite Hty. done. }
    pose proof (would_cross_false_out_of_reach _ _ Hnm (Hsent Hty) Hcross) as Hout.
    assert (Hzero : reach_qty o (side_levels (opposite (order_side o)) b) = 0).
    { destruct (side_levels (opposite (order_side o)) b) as [|[p l] m]; [done|].
      simpl in Hout. rewrite reach_qty_cons, Hnm, Hout. done. }
    rewrite Hzero. destruct Hq. unfold traded_qty. simpl. lia.
Qed.

(** X6.  Quantity is conserved by an accepted order: it rests exactly when
    it is a limit order that was not filled completely, and the quantity
    resting in the book goes down by what was traded and up by what is
    left of a resting order. *)
Theorem add_conserves_quantity o want_top b (clk : T) b' trades top clk' :
  reachable (T:=T) b -> order_wf o ->
  add o want_top b clk = (true, b', trades, top, clk') ->
  0 <= traded_qty trades <= order_qty o /\
  (is_Some (order_index_ b' !! order_id o) <->
   order_type o = Limit /\ traded_qty trades < order_qty o) /\
  resting_qty b' =
    resting_qty b - traded_qty trades +
    (if bool_decide (is_Some (order_index_ b' !! order_id o))
     then order_qty o - traded_qty trades else 0).
Proof.
  intros Hr (_ & Hq & _) Ha. pose proof (reachable_sound _ Hr) as Hs.
  destruct (add_cases _ _ _ _ _ _ _ _ _ Ha)
    as [(? & _)|(_ & Hfresh & [(w & b1 & c1 & Hm & _ & ->)|(Hty & _ & -> & ->)])];
    [done|..].
  - destruct (match_order_volume _ _ _ _ _ _ _ Hs Hq Hm) as (_ & Hw & Hsum & Hmin).
    destruct (match_order_frame _ _ _ _ _ _ _ Hm) as (Hwo & _ & Hix & Hown).
    pose proof (Hix _ Hfresh) as Hfresh1.
    pose proof (reach_qty_nonneg _ _ o _
      (proj2 (proj1 (book_inv_sides (order_side o) b) (sb_inv _ Hs)))) as Hnn.
    assert (Hrest1 : resting_qty b1 = resting_qty b - traded_qty trades).
    { rewrite !(resting_qty_sides (order_side o)), Hown, Hsum. lia. }
    assert (Hid : order_id w = order_id o) by (by rewrite Hwo).
    destruct Hq as [Hq0 Hq1]. split; [lia|].
    destruct (0 <? order_qty w) eqn:Hpos; simpl.
    + apply Z.ltb_lt in Hpos. unfold is_limit.
      destruct (bool_decide (order_type o = Limit)) eqn:Hlim.
      * apply bool_decide_eq_true in Hlim.
        assert (Hsome : is_Some (order_index_ (add_resting_order w b1) !! order_id o)).
        { rewrite add_resting_order_levels. simpl. rewrite ?order_index_with_side.
          rewrite Hid, lookup_insert_eq. by eexists. }
        split; [split; [intros _; split; [done|lia]|done]|].
        rewrite bool_decide_eq_true_2 by done.
        rewrite resting_qty_add_resting_order. lia.
      * apply bool_decide_eq_false in Hlim.
        split; [split; [rewrite Hfresh1; by intros [? ?]|by intros [? _]]|].
        rewrite bool_decide_eq_false_2; [lia|]. rewrite Hfresh1. by intros [? ?].
    + apply Z.ltb_ge in Hpos.
      split; [split; [rewrite Hfresh1; by intros [? ?]|intros [_ ?]; lia]|].
      rewrite bool_decide_eq_false_2; [lia|]. rewrite Hfresh1. by intros [? ?].
  - unfold traded_qty. simpl. destruct Hq as [Hq0 Hq1]. split; [lia|].
    destruct (0 <? order_qty o) eqn:Hpos.
    + apply Z.ltb_lt in Hpos.
      assert (Hsome : is_Some (order_index_ (add_resting_order o b) !! order_id o)).
      { rewrite add_resting_order_levels. simpl. rewrite ?order_index_with_side.
        rewrite lookup_insert_eq. by eexists. }
      split; [split; [intros _; split; [done|lia]|done]|].
      rewrite bool_decide_eq_true_2 by done.
      rewrite resting_qty_add_resting_order. lia.
    + apply Z.ltb_ge in Hpos.
      split; [split; [rewrite Hfresh; by intros [? ?]|intros [_ ?]; lia]|].
      rewrite bool_decide_eq_false_2; [lia|]. rewrite Hfresh. by intros [? ?].
Qed.

End AddVolume.

Section TradeLog.

Context {T : Type} `{TimeSource T}.

(** The trades of an [add] call are those of one [match_order] run over the
    book the call started from, or none. *)
Lemma add_trades_from_match o want_top b (clk : T) ok b' trades top clk' :
  add o want_top b clk = (ok, b', trades, top, clk') ->
  trades = [] \/
  (order_index_ b !! order_id o = None /\
   exists w b1 c1, match_order o b clk = (w, b1, trades, c1)).
Proof.
  intros Ha.
  destruct (add_cases _ _ _ _ _ _ _ _ _ Ha)
    as [(_ & _ & -> & _)|(_ & Hfresh & [(w & b1 & c1 & Hm & _)|(_ & _ & -> & _)])].
  - by left.
  - right. split; [done|]. by exists w, b1, c1.
  - by left.
Qed.

(** X7.  No order trades with itself: every trade of an [add] call names
    the incoming order as taker and, as maker, a different order that was
    indexed on the opposite side at the trade's price; the traded quantity
    is positive. *)
Theorem trades_are_with_resting_makers
    o want_top b (clk : T) ok b' trades top clk' t :
  reachable (T:=T) b -> order_wf o ->
  add o want_top b clk = (ok, b', trades, top, clk') ->
  t ∈ trades ->
  taker_id t = order_id o /\
  maker_id t <> order_id o /\
  order_index_ b !! maker_id t =
    Some (mkLoc (opposite (order_side o)) (trade_price t)) /\
  0 < trade_qty t.
Proof.
  intros Hr (_ & Hq & _) Ha Ht. pose proof (reachable_sound _ Hr) as Hs.
  destruct (add_trades_from_match _ _ _ _ _ _ _ _ _ Ha)
    as [->|(Hfresh & w & b1 & c1 & Hm)]; [by apply elem_of_nil in Ht|].
  destruct (match_order_volume _ _ _ _ _ _ _ Hs Hq Hm) as (Hpos & _).
  pose proof (match_order_trades _ _ _ _ _ _ _ Hm) as Hfollow.
  pose proof Ht as Ht'. apply list_elem_of_lookup in Ht' as [k Hk].
  destruct (trades_follow_lookup _ _ _ _ _ Hfollow Hk)
    as (p & bo & Hqk & Htk & Hmk & Hpr & _).
  assert (Hin : (p, bo) ∈ book_queue (side_levels (opposite (order_side o)) b)).
  { apply list_elem_of_lookup. by exists k. }
  apply elem_of_book_queue in Hin as (l & Hl & Hbo).
  destruct (proj1 (book_inv_sides (order_side o) b) (sb_inv _ Hs)) as [_ Hopp].
  pose proof (side_inv_level _ _ _ _ _ Hopp Hl) as Hlinv.
  destruct (level_inv_slot _ _ _ _ _ Hlinv Hbo) as (Hix & _).
  rewrite <- Hmk, <- Hpr in Hix.
  split; [done|]. split; [|split; [done|]].
  - intros Heq. rewrite Heq in Hix. congruence.
  - by apply (proj1 (Forall_forall _ _) Hpos).
Qed.

(** X8.  Price-time priority across levels: the makers of the trades of an
    [add] call are, in order, the first slots of the opposite side in
    matching order (best price first, oldest first within a price), each
    at the price of its level, and no maker trades twice. *)
Theorem trades_consume_queue_in_order
    o want_top b (clk : T) ok b' trades top clk' :
  reachable (T:=T) b ->
  add o want_top b clk = (ok, b', trades, top, clk') ->
  let queue := book_queue (side_levels (opposite (order_side o)) b) in
  map maker_id trades = take (length trades) (queue_ids queue) /\
  map trade_price trades = take (length trades) (map fst queue) /\
  NoDup (map maker_id trades).
Proof.
  intros Hr Ha queue. pose proof (reachable_inv _ Hr) as Hb.
  destruct (add_trades_from_match _ _ _ _ _ _ _ _ _ Ha)
    as [->|(Hfresh & w & b1 & c1 & Hm)].
  { split; [done|]. split; [done|]. apply NoDup_nil_2. }
  pose proof (match_order_trades _ _ _ _ _ _ _ Hm) as Hfollow.
  destruct (trades_follow_prefix _ _ _ Hfollow) as [Hmk Hpr].
  split; [done|]. split; [done|]. rewrite Hmk.
  destruct (proj1 (book_inv_sides (order_side o) b) Hb) as [_ Hopp].
  pose proof (side_inv_queue_nodup _ _ _ Hopp) as Hnd.
  rewrite <- (take_drop (length trades) (queue_ids _)) in Hnd.
  by apply NoDup_app in Hnd as [? _].
Qed.

End TradeLog.

(** ** Cancel and replace on a reachable book *)

Lemma map_find_split p l m :
  map_find p m = Some l ->
  exists m1 m2, m = m1 ++ (p, l) :: m2 /\ (p ∉ keys m1).
Proof.
  induction m as [|[k l0] m IH]; [done|]. simpl.
  destruct (decide (k = p)) as [->|Hk].
  - intros [= ->]. exists [], m. split; [done|]. apply not_elem_of_nil.
  - intros Hf. destruct (IH Hf) as (m1 & m2 & -> & Hfresh).
    exists ((k, l0) :: m1), m2. split; [done|]. simpl.
    apply not_elem_of_cons. by split.
Qed.

Lemma map_erase_split p l m1 m2 :
  p ∉ keys m1 -> map_erase p (m1 ++ (p, l) :: m2) = m1 ++ m2.
Proof.
  induction m1 as [|[k l0] m1 IH]; simpl; intros Hfresh.
  - by rewrite decide_True.
  - apply not_elem_of_cons in Hfresh as [Hne Hfresh].
    rewrite decide_False by done. by rewrite IH.
Qed.

Lemma map_store_split p l v m1 m2 :
  p ∉ keys m1 -> map_store p v (m1 ++ (p, l) :: m2) = m1 ++ (p, v) :: m2.
Proof.
  induction m1 as [|[k l0] m1 IH]; simpl; intros Hfresh.
  - by rewrite decide_True.
  - apply not_elem_of_cons in Hfresh as [Hne Hfresh].
    rewrite decide_False by done. by rewrite IH.
Qed.

Lemma find_order_is_Some i l : i ∈ slot_ids l -> is_Some (find_order i l).
Proof.
  unfold slot_ids, find_order. induction (orders_ l) as [|bo q IH]; simpl.
  - intros Hin. by apply elem_of_nil in Hin.
  - intros Hin. destruct (bool_decide (order_id (order bo) = i)) eqn:Hd; [by eexists|].
    apply bool_decide_eq_false in Hd. apply elem_of_cons in Hin as [Hin|Hin]; [|by apply IH].
    by rewrite Hin in Hd.
Qed.

Lemma with_qty_same o : with_qty o (order_qty o) = o.
Proof. by destruct o. Qed.

(** The queue of a side after [cancel] has walked it: the slot is gone,
    the others keep their order. *)
Lemma cancel_levels_queue i p l m :
  map_find p m = Some l -> i ∈ slot_ids l ->
  exists bo qa qb,
    slot_id bo = i /\ bo ∈ orders_ l /\
    book_queue m = qa ++ (p, bo) :: qb /\
    book_queue (fst (cancel_levels i p m)) = qa ++ qb /\
    snd (cancel_levels i p m) = remaining_qty bo.
Proof.
  intros Hf Hin.
  destruct (cancel_levels_found _ _ _ _ Hf Hin)
    as (q1 & bo & q2 & Hl & Hid & Hq1 & ->).
  destruct (map_find_split _ _ _ Hf) as (m1 & m2 & -> & Hfresh).
  exists bo, (book_queue m1 ++ map (pair p) q1), (map (pair p) q2 ++ book_queue m2).
  split; [done|]. split; [rewrite Hl; apply elem_of_app; right; by left|].
  split.
  { rewrite book_queue_app, book_queue_cons, Hl, map_app. simpl.
    by rewrite <- !app_assoc. }
  split; [|done]. cbn [fst].
  destruct (q1 ++ q2) as [|x qs] eqn:Hq.
  - apply app_eq_nil in Hq as [-> ->]. simpl.
    rewrite map_erase_split by done. rewrite book_queue_app. by rewrite app_nil_r.
  - rewrite map_store_split by done.
    rewrite book_queue_app, book_queue_cons. cbn [orders_ snd].
    rewrite <- Hq, map_app. by rewrite <- !app_assoc.
Qed.

Section CancelReplace.

Context {T : Type} `{TimeSource T}.

(** X9.  Cancelling an indexed order succeeds, reports the order's
    remaining quantity, takes exactly its slot out of the queue of its
    side (the other slots keep their order) and its id out of the index,
    and leaves the other side alone. *)
Theorem cancel_removes_exactly_one_slot i b (clk : T) s p ok b' ev clk' :
  reachable (T:=T) b ->
  order_index_ b !! i = Some (mkLoc s p) ->
  cancel i b clk = (ok, b', ev, clk') ->
  exists bo qa qb,
    slot_id bo = i /\
    book_queue (side_levels s b) = qa ++ (p, bo) :: qb /\
    book_queue (side_levels s b') = qa ++ qb /\
    side_levels (opposite s) b' = side_levels (opposite s) b /\
    order_index_ b' = delete i (order_index_ b) /\
    ok = true /\
    ev = Some (mkCancel i (remaining_qty bo) (fst (now_ns clk))) /\
    0 < remaining_qty bo.
Proof.
  intros Hr Hix. pose proof (reachable_sound _ Hr) as [Hb Hbk Hlv].
  rewrite (cancel_known _ _ _ _ Hix). simpl. intros [= <- <- <- _].
  destruct (Hbk _ _ Hix) as (l & Hf & Hin). simpl in Hf.
  destruct (cancel_levels_queue _ _ _ _ Hf Hin)
    as (bo & qa & qb & Hid & Hbo & Hq & Hq' & Hr').
  exists bo, qa, qb.
  rewrite !side_levels_with_index, side_levels_with_same, side_levels_with_other.
  rewrite Hr'. simpl. rewrite ?order_index_with_side.
  do 7 (split; [done|]).
  destruct (proj1 (book_live_sides s b) Hlv) as [Hl1 _].
  pose proof (proj1 (side_live_elem _) Hl1 _ _ (map_find_elem _ _ _ Hf)) as Hall.
  by destruct (proj1 (Forall_forall _ _) Hall _ Hbo).
Qed.

(** X10.  [replace] on a reachable book is [cancel] followed by [add] of a
    limit order with the same id and side, the new price and quantity and
    a fresh timestamp; it succeeds exactly when the id is indexed. *)
Theorem replace_is_cancel_then_add i new_price new_qty b (clk : T) :
  reachable (T:=T) b ->
  (forall s p,
     order_index_ b !! i = Some (mkLoc s p) ->
     exists bo l,
       map_find p (side_levels s b) = Some l /\ bo ∈ orders_ l /\ slot_id bo = i /\
       let b1 := snd (fst (fst (cancel i b clk))) in
       let c1 := snd (cancel i b clk) in
       let now := fst (now_ns c1) in
       let new_order :=
         mkOrder i s new_price new_qty now Limit
                 (display_qty (order bo)) (refresh_qty (order bo))
                 (peg_type (order bo)) (offset (order bo)) in
       let added := add new_order false b1 (snd (now_ns c1)) in
       replace i new_price new_qty b clk =
       (true, snd (fst (fst (fst added))), snd (fst (fst added)),
        Some (mkReplace i new_price new_qty now), snd added)) /\
  (fst (fst (fst (fst (replace i new_price new_qty b clk)))) = true <->
   is_Some (order_index_ b !! i)).
Proof.
  intros Hr. pose proof (reachable_sound _ Hr) as [Hb Hbk Hlv].
  assert (Hknown : forall s p,
     order_index_ b !! i = Some (mkLoc s p) ->
     exists bo l,
       map_find p (side_levels s b) = Some l /\ bo ∈ orders_ l /\ slot_id bo = i /\
       replace i new_price new_qty b clk =
       (true,
        snd (fst (fst (fst (add
          (mkOrder i s new_price new_qty
             (fst (now_ns (snd (cancel i b clk)))) Limit
             (display_qty (order bo)) (refresh_qty (order bo))
             (peg_type (order bo)) (offset (order bo)))
          false (snd (fst (fst (cancel i b clk))))
          (snd (now_ns (snd (cancel i b clk)))))))),
        snd (fst (fst (add
          (mkOrder i s new_price new_qty
             (fst (now_ns (snd (cancel i b clk)))) Limit
             (display_qty (order bo)) (refresh_qty (order bo))
             (peg_type (order bo)) (offset (order bo)))
          false (snd (fst (fst (cancel i b clk))))
          (snd (now_ns (snd (cancel i b clk))))))),
        Some (mkReplace i new_price new_qty (fst (now_ns (snd (cancel i b clk))))),
        snd (add
          (mkOrder i s new_price new_qty
             (fst (now_ns (snd (cancel i b clk)))) Limit
             (display_qty (order bo)) (refresh_qty (order bo))
             (peg_type (order bo)) (offset (order bo)))
          false (snd (fst (fst (cancel i b clk))))
          (snd (now_ns (snd (cancel i b clk))))))).
  { intros s p Hix. destruct (Hbk _ _ Hix) as (l & Hf & Hin). simpl in Hf.
    destruct (find_order_is_Some _ _ Hin) as [bo Hfo].
    destruct (find_order_some _ _ _ Hfo) as [Hbo Hid].
    exists bo, l. split; [done|]. split; [done|]. split; [done|].
    destruct (proj1 (book_inv_sides s b) Hb) as [Hown _].
    pose proof (side_inv_level _ _ _ _ _ Hown (map_find_elem _ _ _ Hf)) as Hl.
    destruct (level_inv_slot _ _ _ _ _ Hl Hbo) as (_ & Hty & Hsd & _).
    unfold replace. rewrite Hix. simpl. rewrite Hf, Hfo.
    rewrite (cancel_known _ _ _ _ Hix). simpl.
    destruct (now_ns (snd (now_ns clk))) as [now c2] eqn:Hnow. simpl.
    set (new_order := with_ts _ _).
    assert (Hnew : new_order =
      mkOrder i s new_price new_qty now Limit
              (display_qty (order bo)) (refresh_qty (order bo))
              (peg_type (order bo)) (offset (order bo))).
    { subst new_order. unfold with_ts, with_qty, with_price. simpl.
      unfold slot_id in Hid. by rewrite Hid, Hty, Hsd. }
    rewrite Hnew. clear new_order Hnew.
    set (b1 := with_index _ _).
    set (new_order := mkOrder _ _ _ _ _ _ _ _ _ _).
    destruct (add_limit_accepted new_order false b1 c2) as (b2 & tr & tp & c3 & Ha).
    { done. }
    { subst b1 new_order. simpl. rewrite ?order_index_with_side.
      apply lookup_delete_eq. }
    rewrite Ha. done. }
  split; [exact Hknown|]. split.
  - intros Hok. destruct (order_index_ b !! i) eqn:Hix; [by eexists|].
    unfold replace in Hok. by rewrite Hix in Hok.
  - intros [[s p] Hix]. destruct (Hknown s p Hix) as (bo & l & _ & _ & _ & ->). done.
Qed.

End CancelReplace.

(** ** Where an order comes to rest, and what the top of book reports *)

Lemma add_resting_order_level o b :
  book_inv b ->
  exists l',
    map_find (order_price o)
             (side_levels (order_side o) (add_resting_order o b)) = Some l' /\
    orders_ l' =
      orders_ (default BookLevel_default
                 (map_find (order_price o) (side_levels (order_side o) b)))
      ++ [BookOrder_of o] /\
    (forall p', p' <> order_price o ->
       map_find p' (side_levels (order_side o) (add_resting_order o b)) =
       map_find p' (side_levels (order_side o) b)) /\
    side_levels (opposite (order_side o)) (add_resting_order o b) =
      side_levels (opposite (order_side o)) b /\
    order_index_ (add_resting_order o b) =
      <[order_id o := mkLoc (order_side o) (order_price o)]> (order_index_ b).
Proof.
  intros Hb. rewrite add_resting_order_levels.
  destruct (proj1 (book_inv_sides (order_side o) b) Hb) as [Hown _].
  rewrite !side_levels_with_index, side_levels_with_same, side_levels_with_other.
  eexists. split; [apply map_find_upsert; by eapply side_inv_sorted|].
  split; [done|]. split; [|split; [done|]].
  - intros p' Hne. by apply map_find_upsert_ne.
  - simpl. by rewrite ?order_index_with_side.
Qed.

Lemma keys_head_extreme s p l m k :
  map_sorted (side_before s) ((p, l) :: m) -> k ∈ keys ((p, l) :: m) ->
  match s with Buy => k <= p | Sell => p <= k end.
Proof.
  intros Hsorted Hk. apply map_sorted_cons in Hsorted as [Hall _].
  simpl in Hk. apply elem_of_cons in Hk as [->|Hk]; [destruct s; lia|].
  pose proof (proj1 (Forall_forall _ _) Hall _ Hk) as Hlt.
  destruct s; simpl in Hlt; lia.
Qed.

Section RestAndTop.

Context {T : Type} `{TimeSource T}.

(** X11.  An accepted order that comes to rest joins the back of the queue
    at its price, with what its trades left of its quantity; the other
    levels of its side keep their queues, and the index maps its id to its
    side and price. *)
Theorem resting_order_joins_back_of_queue
    o want_top b (clk : T) b' trades top clk' :
  reachable (T:=T) b -> order_wf o ->
  add o want_top b clk = (true, b', trades, top, clk') ->
  is_Some (order_index_ b' !! order_id o) ->
  let left := order_qty o - traded_qty trades in
  exists l',
    map_find (order_price o) (side_levels (order_side o) b') = Some l' /\
    orders_ l' =
      orders_ (default BookLevel_default
                 (map_find (order_price o) (side_levels (order_side o) b)))
      ++ [mkBookOrder (with_qty o left) left] /\
    (forall p', p' <> order_price o ->
       map_find p' (side_levels (order_side o) b') =
       map_find p' (side_levels (order_side o) b)) /\
    order_index_ b' !! order_id o =
      Some (mkLoc (order_side o) (order_price o)).
Proof.
  intros Hr (_ & Hq & _) Ha Hrests left.
  pose proof (reachable_sound _ Hr) as Hs.
  destruct (add_cases _ _ _ _ _ _ _ _ _ Ha)
    as [(? & _)|(_ & Hfresh & [(w & b1 & c1 & Hm & _ & ->)|(Hty & _ & -> & ->)])];
    [done|..].
  - destruct (match_order_volume _ _ _ _ _ _ _ Hs Hq Hm) as (_ & Hw & _).
    destruct (match_order_frame _ _ _ _ _ _ _ Hm) as (Hwo & _ & Hix & Hown).
    pose proof (match_order_sound _ _ _ _ _ _ _ Hs Hm) as [Hb1 _ _].
    destruct ((0 <? order_qty w) && is_limit o) eqn:Hrest.
    2:{ rewrite (Hix _ Hfresh) in Hrests. by destruct Hrests. }
    destruct (add_resting_order_level w b1 Hb1) as (l' & Hf & Hl' & Hoth & _ & Hix').
    assert (Hsd : order_side w = order_side o) by (by rewrite Hwo).
    assert (Hpr : order_price w = order_price o) by (by rewrite Hwo).
    assert (Hid : order_id w = order_id o) by (by rewrite Hwo).
    rewrite Hsd, Hpr, Hid, Hown in *.
    exists l'. split; [done|]. split.
    { rewrite Hl'. unfold BookOrder_of. subst left. rewrite <- Hw.
      by rewrite <- Hwo. }
    split; [done|]. rewrite Hix'. apply lookup_insert_eq.
  - destruct (0 <? order_qty o) eqn:Hpos.
    2:{ rewrite Hfresh in Hrests. by destruct Hrests. }
    destruct (add_resting_order_level o b (sb_inv _ Hs))
      as (l' & Hf & Hl' & Hoth & _ & Hix').
    exists l'. split; [done|]. split.
    { rewrite Hl'. unfold BookOrder_of. subst left. unfold traded_qty. simpl.
      by rewrite Z.sub_0_r, with_qty_same. }
    split; [done|]. rewrite Hix'. apply lookup_insert_eq.
Qed.

(** X12.  [best_bid_ask] on a reachable book reports the highest bid price
    and the lowest ask price, [INVALID_PRICE] with quantity 0 for an empty
    side, stamped with the clock's reading; it returns false exactly when
    no order rests. *)
Theorem best_bid_ask_reports_extremes b (clk : T) ok top clk' :
  reachable (T:=T) b ->
  best_bid_ask b clk = (ok, top, clk') ->
  (ok = false <-> order_index_ b = ∅) /\
  (forall p, p ∈ keys (bids_ b) -> p <= best_bid top) /\
  (forall p, p ∈ keys (asks_ b) -> best_ask top <= p) /\
  (bids_ b <> [] -> best_bid top ∈ keys (bids_ b)) /\
  (asks_ b <> [] -> best_ask top ∈ keys (asks_ b)) /\
  (bids_ b = [] -> best_bid top = INVALID_PRICE /\ bid_qty top = 0) /\
  (asks_ b = [] -> best_ask top = INVALID_PRICE /\ ask_qty top = 0) /\
  top_ts top = fst (now_ns clk).
Proof.
  intros Hr. pose proof (reachable_sound _ Hr) as Hs.
  pose proof Hs as [[Hbid Hask] Hbk _].
  unfold best_bid_ask. destruct (now_ns clk) as [now c1]. simpl.
  assert (Hside : forall s, order_index_ b = ∅ -> side_levels s b = []).
  { intros s Hix. destruct (side_levels s b) as [|[p l] m] eqn:Hm; [done|]. exfalso.
    destruct (proj1 (book_inv_sides s b) (sb_inv _ Hs)) as [Hown _].
    rewrite Hm in Hown.
    apply side_inv_cons in Hown as (_ & (Hne & _ & _ & Hsl) & _).
    destruct (orders_ l) as [|bo q]; [done|].
    apply Forall_cons in Hsl as [(Hi & _) _]. rewrite Hix in Hi.
    by rewrite lookup_empty in Hi. }
  assert (Hempty : order_index_ b = ∅ <-> bids_ b = [] /\ asks_ b = []).
  { split.
    - intros Hix. split; [apply (Hside Buy Hix)|apply (Hside Sell Hix)].
    - intros [Hb1 Ha1]. apply map_empty. intros i.
      destruct (order_index_ b !! i) as [[s p]|] eqn:Hix; [|done]. exfalso.
      destruct (Hbk _ _ Hix) as (l & Hf & _). simpl in Hf.
      destruct s; simpl in Hf; [rewrite Hb1 in Hf|rewrite Ha1 in Hf]; done. }
  clear Hside.
  pose proof (side_inv_sorted _ _ _ Hbid) as Hsb.
  pose proof (side_inv_sorted _ _ _ Hask) as Hsa.
  destruct (bids_ b) as [|[pb lb] mb] eqn:Hmb;
    destruct (asks_ b) as [|[pa la] ma] eqn:Hma;
    intros [= <- <- _]; simpl;
    (split; [rewrite Hempty; split; [try done; by intros [? ?]|try done; by intros [? ?]]|]);
    repeat split; try done;
    try (intros p Hp; by apply elem_of_nil in Hp);
    try (intros _; apply elem_of_cons; by left);
    try (intros p Hp; by apply (keys_head_extreme Buy _ _ _ _ Hsb Hp));
    try (intros p Hp; by apply (keys_head_extreme Sell _ _ _ _ Hsa Hp)).
Qed.

End RestAndTop.

(** ** The ring buffer as a bounded FIFO queue *)

Ltac ring_arith :=
  repeat match goal with
  | H : context [?a <=? ?b] |- _ => destruct (Z.leb_spec a b)
  | H : context [?a <? ?b] |- _ => destruct (Z.ltb_spec a b)
  | |- context [?a <=? ?b] => destruct (Z.leb_spec a b)
  | |- context [?a <? ?b] => destruct (Z.ltb_spec a b)
  end; try lia.

Section RingQueue.

Context {A : Type} (dflt : A).

Lemma ring_size_cases (rb : RingBuffer A) :
  ring_wf rb ->
  0 <= head_ rb < capacity_ rb /\ 0 <= tail_ rb < capacity_ rb /\
  ring_size rb =
    if head_ rb <=? tail_ rb then tail_ rb - head_ rb
    else tail_ rb - head_ rb + capacity_ rb.
Proof.
  intros (e & He & Hc & Hm & Hh & Ht). rewrite Hc.
  split; [done|]. split; [done|].
  rewrite (ring_size_wf rb e) by done.
  destruct (head_ rb <=? tail_ rb) eqn:Hle.
  - apply Z.leb_le in Hle. apply Z.mod_small. lia.
  - apply Z.leb_gt in Hle.
    rewrite <- (Z.mod_add _ 1) by lia. rewrite Z.mod_small by lia. lia.
Qed.

Lemma mod_next c i :
  0 <= i < c -> (i + 1) mod c = if i + 1 <? c then i + 1 else 0.
Proof.
  intros Hi. destruct (i + 1 <? c) eqn:Hlt.
  - apply Z.ltb_lt in Hlt. apply Z.mod_small. lia.
  - apply Z.ltb_ge in Hlt. replace (i + 1) with c by lia. apply Z.mod_same. lia.
Qed.

Lemma ring_slots_length cap (buf : list A) n i :
  length (ring_slots dflt cap buf n i) = n.
Proof. revert i. induction n as [|n IH]; intros i; simpl; [done|]. by rewrite IH. Qed.

(** Writing the slot just past the [n] slots read from [i] appends to
    them. *)
Lemma ring_slots_snoc cap (buf : list A) n i x :
  0 <= i < cap -> Z.of_nat n < cap -> Z.of_nat (length buf) = cap ->
  ring_slots dflt cap (<[Z.to_nat ((i + Z.of_nat n) mod cap) := x]> buf) (S n) i =
  ring_slots dflt cap buf n i ++ [x].
Proof.
  revert i. induction n as [|n IH]; intros i Hi Hn Hlen.
  - simpl. rewrite Z.add_0_r, Z.mod_small by lia.
    rewrite nth_lookup, list_lookup_insert_eq by lia. done.
  - assert (Hi' : 0 <= (i + 1) mod cap < cap) by (apply Z.mod_pos_bound; lia).
    assert (Ht : (i + Z.of_nat (S n)) mod cap = ((i + 1) mod cap + Z.of_nat n) mod cap).
    { rewrite Z.add_mod_idemp_l by lia. f_equal. lia. }
    change (ring_slots dflt cap ?b (S (S n)) i)
      with (nth (Z.to_nat i) b dflt :: ring_slots dflt cap b (S n) ((i + 1) mod cap)).
    rewrite Ht at 2. rewrite IH by (try done; lia).
    change (ring_slots dflt cap buf (S n) i)
      with (nth (Z.to_nat i) buf dflt :: ring_slots dflt cap buf n ((i + 1) mod cap)).
    simpl. f_equal.
    rewrite !nth_lookup, list_lookup_insert_ne; [done|].
    assert (Hmod : (i + Z.of_nat (S n)) mod cap <> i).
    { destruct (Z_lt_le_dec (i + Z.of_nat (S n)) cap).
      - rewrite Z.mod_small by lia. lia.
      - rewrite <- (Z.mod_add _ (-1)) by lia. rewrite Z.mod_small by lia. lia. }
    pose proof (Z.mod_pos_bound (i + Z.of_nat (S n)) cap ltac:(lia)). lia.
Qed.

Lemma RingBuffer_new_ok n : 0 <= n <= 2 ^ 63 -> ring_ok (RingBuffer_new dflt n).
Proof.
  intros Hn. split; [by apply RingBuffer_new_wf|].
  unfold RingBuffer_new. simpl. rewrite length_replicate.
  destruct (next_power_of_two_spec n Hn) as (k & Hk & -> & _).
  pose proof (pow2_pos k ltac:(lia)). lia.
Qed.

Lemma RingBuffer_new_contents n :
  0 <= n <= 2 ^ 63 -> ring_contents dflt (RingBuffer_new dflt n) = [].
Proof.
  intros Hn. destruct (ring_size_cases _ (RingBuffer_new_wf dflt n Hn)) as (_ & _ & Hsz).
  unfold ring_contents. rewrite Hsz. simpl. done.
Qed.

Lemma push_contents (x : A) (rb : RingBuffer A) :
  ring_ok rb ->
  if ring_size rb <? capacity_ rb - 1 then
    fst (push x rb) = true /\ ring_ok (snd (push x rb)) /\
    ring_contents dflt (snd (push x rb)) = ring_contents dflt rb ++ [x] /\
    ring_size (snd (push x rb)) = ring_size rb + 1 /\
    capacity_ (snd (push x rb)) = capacity_ rb
  else push x rb = (false, rb) /\ ring_size rb = capacity_ rb - 1.
Proof.
  intros [Hwf Hlen]. pose proof (push_wf x rb Hwf) as Hwf'.
  destruct (ring_size_cases rb Hwf) as (Hh & Ht & Hsz).
  rewrite push_result in * by done.
  rewrite mod_next in * by done.
  destruct (ring_size rb <? capacity_ rb - 1) eqn:Hroom.
  - apply Z.ltb_lt in Hroom.
    destruct ((if tail_ rb + 1 <? capacity_ rb then tail_ rb + 1 else 0) =? head_ rb)
      eqn:Hfull.
    { apply Z.eqb_eq in Hfull. clear Hwf'. ring_arith. }
    simpl in *. split; [done|]. split; [split; [done|]|].
    { simpl. by rewrite length_insert. }
    set (rb' := mkRing _ _ _ _ _) in *.
    destruct (ring_size_cases rb' Hwf') as (_ & _ & Hsz'). simpl in Hsz'.
    assert (Hsize' : ring_size rb' = ring_size rb + 1).
    { rewrite Hsz', Hsz. apply Z.eqb_neq in Hfull. clear Hsz Hsz' Hwf'.
      ring_arith. }
    split; [|done]. unfold ring_contents. rewrite Hsize'. simpl.
    pose proof (ring_size_nonneg rb Hwf) as Hnn.
    replace (Z.to_nat (ring_size rb + 1)) with (S (Z.to_nat (ring_size rb))) by lia.
    assert (Htail : tail_ rb =
              (head_ rb + Z.of_nat (Z.to_nat (ring_size rb))) mod capacity_ rb).
    { rewrite Z2Nat.id by done. rewrite Hsz.
      destruct (head_ rb <=? tail_ rb) eqn:E2.
      - rewrite Z.mod_small by lia. lia.
      - replace (head_ rb + (tail_ rb - head_ rb + capacity_ rb))
          with (tail_ rb + 1 * capacity_ rb) by lia.
        rewrite Z.mod_add by lia. rewrite Z.mod_small by lia. lia. }
    rewrite Htail at 1. apply ring_slots_snoc; [done|lia|done].
  - apply Z.ltb_ge in Hroom.
    assert (Hsize : ring_size rb = capacity_ rb - 1).
    { rewrite Hsz in *. clear Hwf'. ring_arith. }
    split; [|done].
    destruct ((if tail_ rb + 1 <? capacity_ rb then tail_ rb + 1 else 0) =? head_ rb)
      eqn:Hfull; [done|].
    apply Z.eqb_neq in Hfull. rewrite Hsz in Hsize. clear Hwf' Hsz.
    ring_arith.
Qed.

Lemma pop_contents (rb : RingBuffer A) :
  ring_ok rb ->
  match pop dflt rb with
  | None => ring_contents dflt rb = [] /\ ring_size rb = 0
  | Some (x, rb') =>
      ring_contents dflt rb = x :: ring_contents dflt rb' /\ ring_ok rb' /\
      capacity_ rb' = capacity_ rb
  end.
Proof.
  intros [Hwf Hlen]. destruct (ring_size_cases rb Hwf) as (Hh & Ht & Hsz).
  destruct (pop dflt rb) as [[x rb']|] eqn:Hp.
  - destruct (pop_wf _ _ _ _ Hwf Hp) as [Hwf' Hsz'].
    pose proof (ring_size_nonneg rb' Hwf') as Hnn'.
    unfold pop in Hp. destruct (head_ rb =? tail_ rb); [done|].
    injection Hp as <- <-.
    split; [|split; [split; [exact Hwf'|exact Hlen]|done]].
    unfold ring_contents. rewrite Hsz'. cbn [capacity_ buffer_ head_].
    replace (Z.to_nat (ring_size rb)) with (S (Z.to_nat (ring_size rb - 1))) by lia.
    cbn [ring_slots]. f_equal.
    destruct Hwf as (e & He & Hc & Hm & Hh' & Ht').
    rewrite Hm, ring_next, <- Hc by done. done.
  - unfold pop in Hp. destruct (head_ rb =? tail_ rb) eqn:Heq; [|done].
    apply Z.eqb_eq in Heq. unfold ring_contents.
    assert (Hz : ring_size rb = 0).
    { rewrite Hsz, Heq, Z.leb_refl. lia. }
    rewrite Hz. done.
Qed.

Lemma drain_contents fuel (rb : RingBuffer A) :
  ring_ok rb -> (Z.to_nat (ring_size rb) < fuel)%nat ->
  fst (drain dflt fuel rb) = ring_contents dflt rb /\
  ring_ok (snd (drain dflt fuel rb)) /\
  ring_contents dflt (snd (drain dflt fuel rb)) = [] /\
  ring_size (snd (drain dflt fuel rb)) = 0 /\
  capacity_ (snd (drain dflt fuel rb)) = capacity_ rb.
Proof.
  revert rb. induction fuel as [|fuel IH]; intros rb Hok Hf; [lia|].
  pose proof (pop_contents rb Hok) as Hp. simpl.
  destruct (pop dflt rb) as [[x rb1]|] eqn:Hpop.
  - destruct Hp as (Hc & Hok1 & Hcap).
    destruct (pop_wf _ _ _ _ (proj1 Hok) Hpop) as [_ Hsz].
    pose proof (ring_size_nonneg rb1 (proj1 Hok1)) as Hnn.
    destruct (IH rb1 Hok1) as (Hd & Hok2 & He & Hz & Hcap2); [lia|].
    destruct (drain dflt fuel rb1) as [xs rb2]. simpl in *.
    rewrite Hc, Hd. split; [done|]. split; [done|]. split; [done|].
    split; [done|]. congruence.
  - simpl. destruct Hp as [Hc Hz]. by rewrite Hc.
Qed.

Lemma push_all_contents (items : list A) (rb : RingBuffer A) :
  ring_ok rb ->
  ring_contents dflt (snd (push_all items rb)) =
    ring_contents dflt rb ++ take (Z.to_nat (ring_room rb)) items /\
  ring_ok (snd (push_all items rb)) /\
  capacity_ (snd (push_all items rb)) = capacity_ rb /\
  ring_size (snd (push_all items rb)) =
    ring_size rb + Z.min (ring_room rb) (Z.of_nat (length items)).
Proof.
  revert rb. induction items as [|x items IH]; intros rb Hok.
  { simpl. rewrite take_nil, app_nil_r.
    destruct (ring_size_cases rb (proj1 Hok)) as (Hh & Ht & Hsz).
    unfold ring_room. split; [done|]. split; [done|]. split; [done|].
    rewrite Hsz. destruct (head_ rb <=? tail_ rb) eqn:E; lia. }
  pose proof (push_contents x rb Hok) as Hp. simpl.
  destruct (push x rb) as [ok rb1] eqn:Hpush.
  destruct (ring_size rb <? capacity_ rb - 1) eqn:Hroom.
  - apply Z.ltb_lt in Hroom. simpl in Hp.
    destruct Hp as (_ & Hok1 & Hc1 & Hsz1 & Hcap1).
    destruct (IH rb1 Hok1) as (Hc2 & Hok2 & Hcap2 & Hsz2).
    destruct (push_all items rb1) as [oks rb2]. simpl in *.
    unfold ring_room in *. rewrite Hcap1, Hsz1 in *.
    replace (Z.to_nat (capacity_ rb - 1 - ring_size rb))
      with (S (Z.to_nat (capacity_ rb - 1 - (ring_size rb + 1)))) by lia.
    simpl. rewrite Hc2, Hc1, <- app_assoc. split; [done|].
    split; [done|]. split; [congruence|]. lia.
  - apply Z.ltb_ge in Hroom. destruct Hp as [[= -> ->] Hsz].
    destruct (IH rb Hok) as (Hc2 & Hok2 & Hcap2 & Hsz2).
    destruct (push_all items rb) as [oks rb2]. simpl in *.
    unfold ring_room in *. rewrite Hsz in *.
    replace (capacity_ rb - 1 - (capacity_ rb - 1)) with 0 in * by lia.
    simpl in *. split; [done|]. split; [done|]. split; [done|]. lia.
Qed.

End RingQueue.

(** X13.  [push] on a buffer that holds fewer than [capacity - 1] elements
    appends the item behind those it holds and returns true; on a buffer
    that holds [capacity - 1] it returns false and changes nothing. *)
Theorem ring_push_appends_unless_full {A : Type} (dflt : A) (x : A)
    (rb : RingBuffer A) ok rb' :
  ring_ok rb -> push x rb = (ok, rb') ->
  ring_ok rb' /\
  (ok = true <-> ring_size rb < capacity rb - 1) /\
  ring_contents dflt rb' =
    (if ok then ring_contents dflt rb ++ [x] else ring_contents dflt rb) /\
  (ok = false -> rb' = rb).
Proof.
  intros Hok Hp. pose proof (push_contents dflt x rb Hok) as Hc.
  rewrite Hp in Hc. simpl in Hc. unfold capacity.
  destruct (ring_size rb <? capacity_ rb - 1) eqn:Hroom.
  - apply Z.ltb_lt in Hroom. destruct Hc as (-> & Hok' & Hcont & _).
    split; [done|]. split; [done|]. split; [done|]. done.
  - apply Z.ltb_ge in Hroom. destruct Hc as [[= -> ->] Hsz].
    split; [done|]. split; [split; [done|lia]|]. done.
Qed.

(** X14.  [pop] returns the oldest element and leaves the rest in order;
    it fails exactly when the buffer holds nothing, which is when [empty]
    is true and [size] is 0; [size] is the number of elements held. *)
Theorem ring_pop_takes_oldest {A : Type} (dflt : A) (rb : RingBuffer A) :
  ring_ok rb ->
  (ring_empty rb = true <-> ring_contents dflt rb = []) /\
  Z.of_nat (length (ring_contents dflt rb)) = ring_size rb /\
  match pop dflt rb with
  | None => ring_contents dflt rb = []
  | Some (x, rb') =>
      ring_contents dflt rb = x :: ring_contents dflt rb' /\ ring_ok rb' /\
      ring_size rb' = ring_size rb - 1
  end.
Proof.
  intros Hok. pose proof (pop_contents dflt rb Hok) as Hp.
  pose proof (ring_size_nonneg rb (proj1 Hok)) as Hnn.
  split; [|split].
  - unfold ring_empty. unfold pop in Hp.
    destruct (head_ rb =? tail_ rb); [by destruct Hp|].
    destruct Hp as (-> & _). done.
  - unfold ring_contents. rewrite ring_slots_length. lia.
  - destruct (pop dflt rb) as [[x rb']|] eqn:Hpop; [|by destruct Hp].
    destruct Hp as (Hc & Hok' & _).
    by destruct (pop_wf _ _ _ _ (proj1 Hok) Hpop) as [_ Hsz].
Qed.

(** X15.  First in, first out, dropping what does not fit: pushing a
    sequence of items into a fresh buffer and draining it gives back, in
    order, the first [capacity - 1] of them. *)
Theorem ring_fifo_round_trip {A : Type} (dflt : A) (n : Z) (items : list A) :
  0 <= n <= 2 ^ 63 ->
  let rb := RingBuffer_new dflt n in
  fst (drain dflt (S (length items)) (snd (push_all items rb))) =
    take (Z.to_nat (capacity rb - 1)) items /\
  ring_empty (snd (drain dflt (S (length items)) (snd (push_all items rb)))) = true.
Proof.
  intros Hn rb. pose proof (RingBuffer_new_ok dflt n Hn) as Hok.
  pose proof (RingBuffer_new_contents dflt n Hn) as Hempty.
  destruct (ring_size_cases _ (proj1 Hok)) as (_ & _ & Hsz0).
  fold rb in Hok, Hempty, Hsz0.
  assert (Hz : ring_size rb = 0) by (rewrite Hsz0; done).
  destruct (push_all_contents dflt items rb Hok) as (Hc & Hok1 & Hcap & Hsz).
  destruct (drain_contents dflt (S (length items)) _ Hok1) as (Hd & Hok2 & He & Hz2 & _).
  { rewrite Hsz, Hz. lia. }
  split.
  - rewrite Hd, Hc, Hempty. unfold ring_room, capacity. rewrite Hz. simpl.
    f_equal. lia.
  - destruct (ring_size_cases _ (proj1 Hok2)) as (Hh & Ht & Hsz2).
    unfold ring_empty. rewrite Hz2 in Hsz2. apply Z.eqb_eq. ring_arith.
Qed.

(** ** The events an engine call leaves in the channel *)

Section EngineEvents.

Context {T : Type} `{TimeSource T}.

Lemma emit_events_push_all es rb : emit_events es rb = snd (push_all es rb).
Proof.
  unfold emit_events. revert rb. induction es as [|e es IH]; intros rb; [done|].
  simpl. rewrite IH. unfold emit_event.
  destruct (push e rb) as [ok rb1]. simpl. by destruct (push_all es rb1).
Qed.

Lemma emit_events_cons e es rb :
  emit_events (e :: es) rb = emit_events es (emit_event e rb).
Proof. done. Qed.

Lemma emit_events_snoc e es rb :
  emit_events (es ++ [e]) rb = emit_event e (emit_events es rb).
Proof. unfold emit_events. by rewrite fold_left_app. Qed.

(** Events emitted in a row are appended in order while there is room; the
    rest are dropped. *)
Lemma emit_events_contents es rb :
  ring_ok rb ->
  ring_contents EngineEvent_default (emit_events es rb) =
    ring_contents EngineEvent_default rb ++ take (Z.to_nat (ring_room rb)) es /\
  ring_ok (emit_events es rb) /\
  capacity_ (emit_events es rb) = capacity_ rb.
Proof.
  intros Hok. rewrite emit_events_push_all.
  by destruct (push_all_contents EngineEvent_default es rb Hok) as (? & ? & ? & _).
Qed.

Lemma emit_event_contents e rb :
  ring_ok rb ->
  ring_contents EngineEvent_default (emit_event e rb) = ring_contents EngineEvent_default rb ++ take (Z.to_nat (ring_room rb)) [e] /\
  ring_ok (emit_event e rb) /\
  capacity_ (emit_event e rb) = capacity_ rb.
Proof. apply (emit_events_contents [e]). Qed.

Lemma best_bid_ask_prices b (clk : T) :
  best_bid (snd (fst (best_bid_ask b clk))) = best_price Buy b /\
  best_ask (snd (fst (best_bid_ask b clk))) = best_price Sell b /\
  top_ts (snd (fst (best_bid_ask b clk))) = fst (now_ns clk).
Proof.
  unfold best_bid_ask, best_price. destruct (now_ns clk) as [now c]. simpl.
  by destruct (bids_ b) as [|[pb lb] mb], (asks_ b) as [|[pa la] ma].
Qed.

(** An accepted [add] ends with the snapshot of the book it leaves. *)
Lemma add_snapshot o want_top b (clk : T) b' trades top clk' :
  add o want_top b clk = (true, b', trades, top, clk') ->
  exists c, snapshot want_top b' c = (top, clk').
Proof.
  unfold add. destruct (bool_decide _); [done|].
  assert (Hphase : forall w b0 t0 c0,
    add_limit_phase w b0 t0 want_top c0 = (true, b', trades, top, clk') ->
    exists c, snapshot want_top b' c = (top, clk')).
  { intros w b0 t0 c0. unfold add_limit_phase.
    destruct (would_cross w b0).
    - destruct (match_order w b0 c0) as [[[w1 b1] t1] c1].
      destruct (snapshot want_top _ c1) as [tp c2] eqn:Hsnap.
      intros [= <- _ <- <-]. by exists c1.
    - destruct (snapshot want_top _ c0) as [tp c2] eqn:Hsnap.
      intros [= <- _ <- <-]. by exists c0. }
  destruct (is_market o || is_ioc o || is_fok o); [|apply Hphase].
  destruct (is_fok o && _); [done|].
  destruct (match_order o b clk) as [[[w1 b1] t1] c1].
  destruct ((order_qty w1 =? 0) || is_ioc w1 || is_fok w1); [|apply Hphase].
  destruct (snapshot want_top b1 c1) as [tp c2] eqn:Hsnap.
  intros [= <- _ <- <-]. by exists c1.
Qed.

(** X16.  [submit] returns what [add] returns and leaves in the channel,
    behind what it held and as far as there is room: for an accepted
    order the accept event, the trades in the order they were made and the
    top of the book the order left; for a rejected one a reject event with
    reason code 1. *)
Theorem submit_emits_events_in_order
    o (me : MatchingEngine T) ok0 b trades top clk ok me' :
  ring_ok (event_buffer_ me) ->
  add o true (book_ me) (time_source_ me) = (ok0, b, trades, top, clk) ->
  submit o me = (ok, me') ->
  let now := fst (now_ns clk) in
  let events :=
    if ok0 then
      EvAccept (mkAccept (order_id o) now) :: map EvTrade trades
        ++ [EvTop (default BookTop_default top)]
    else [EvReject (mkReject (order_id o) now 1)] in
  ok = ok0 /\ book_ me' = b /\
  ring_contents EngineEvent_default (event_buffer_ me') =
    ring_contents EngineEvent_default (event_buffer_ me)
    ++ take (Z.to_nat (ring_room (event_buffer_ me))) events /\
  ring_ok (event_buffer_ me') /\
  (ok0 = true ->
   exists t, top = Some t /\
             best_bid t = best_price Buy b /\ best_ask t = best_price Sell b).
Proof.
  intros Hok Ha. unfold submit. rewrite Ha.
  destruct (now_ns clk) as [now c'] eqn:Hnow. simpl.
  destruct ok0; intros [= <- <-]; simpl.
  - rewrite <- emit_events_snoc, <- emit_events_cons.
    destruct (emit_events_contents
                (EvAccept (mkAccept (order_id o) now) :: map EvTrade trades
                   ++ [EvTop (default BookTop_default top)])
                (event_buffer_ me) Hok) as (Hc & Hok' & _).
    split; [done|]. split; [done|]. split; [exact Hc|]. split; [exact Hok'|].
    intros _. destruct (add_snapshot _ _ _ _ _ _ _ _ Ha) as [c Hsnap].
    unfold snapshot in Hsnap.
    pose proof (best_bid_ask_prices b c) as (Hb1 & Hb2 & _).
    destruct (best_bid_ask b c) as [[okt t] ct]. injection Hsnap as <- _.
    by exists t.
  - destruct (emit_event_contents (EvReject (mkReject (order_id o) now 1))
                (event_buffer_ me) Hok) as (Hc & Hok' & _).
    done.
Qed.

(** X17.  A successful [cancel] leaves in the channel the cancel event and
    the top of the book after it; a successful [replace] the replace
    event, the trades of the re-added order in order, and the top of the
    book; each behind what the channel held, as far as there is room. *)
Theorem cancel_replace_emit_events_in_order (me : MatchingEngine T) :
  ring_ok (event_buffer_ me) ->
  (forall i b ev clk,
     cancel i (book_ me) (time_source_ me) = (true, b, ev, clk) ->
     fst (engine_cancel i me) = true /\
     book_ (snd (engine_cancel i me)) = b /\
     ring_contents EngineEvent_default (event_buffer_ (snd (engine_cancel i me))) =
       ring_contents EngineEvent_default (event_buffer_ me)
       ++ take (Z.to_nat (ring_room (event_buffer_ me)))
            [EvCancel (default (mkCancel 0 0 0) ev);
             EvTop (snd (fst (best_bid_ask b clk)))]) /\
  (forall i new_price new_qty b trades ev clk,
     replace i new_price new_qty (book_ me) (time_source_ me)
       = (true, b, trades, ev, clk) ->
     fst (engine_replace i new_price new_qty me) = true /\
     book_ (snd (engine_replace i new_price new_qty me)) = b /\
     ring_contents EngineEvent_default
       (event_buffer_ (snd (engine_replace i new_price new_qty me))) =
       ring_contents EngineEvent_default (event_buffer_ me)
       ++ take (Z.to_nat (ring_room (event_buffer_ me)))
            (EvReplace (default (mkReplace 0 0 0 0) ev) :: map EvTrade trades
               ++ [EvTop (snd (fst (best_bid_ask b clk)))])).
Proof.
  intros Hok. split.
  - intros i b ev clk Hc. unfold engine_cancel. rewrite Hc.
    destruct (best_bid_ask b clk) as [[okt t] ct]. simpl.
    split; [done|]. split; [done|].
    change (emit_event (EvTop t) (emit_event ?e ?rb))
      with (emit_events [e; EvTop t] rb).
    by destruct (emit_events_contents
                   [EvCancel (default (mkCancel 0 0 0) ev); EvTop t]
                   (event_buffer_ me) Hok) as (Hc' & _).
  - intros i p q b trades ev clk Hr. unfold engine_replace. rewrite Hr.
    destruct (best_bid_ask b clk) as [[okt t] ct]. simpl.
    split; [done|]. split; [done|].
    rewrite <- emit_events_snoc, <- emit_events_cons.
    by destruct (emit_events_contents
                   (EvReplace (default (mkReplace 0 0 0 0) ev) :: map EvTrade trades
                      ++ [EvTop t])
                   (event_buffer_ me) Hok) as (Hc' & _).
Qed.

(** X18.  [poll_events] hands over what the channel holds, oldest first,
    and returns whether that was anything; it empties the channel, so that
    a second poll right after it delivers nothing, and touches neither the
    book nor the clock. *)
Theorem poll_events_delivers_in_order (me : MatchingEngine T) ok evs me' :
  ring_ok (event_buffer_ me) ->
  poll_events me = (ok, evs, me') ->
  evs = ring_contents EngineEvent_default (event_buffer_ me) /\
  (ok = true <-> evs <> []) /\
  ring_contents EngineEvent_default (event_buffer_ me') = [] /\
  poll_events me' = (false, [], me') /\
  book_ me' = book_ me /\ time_source_ me' = time_source_ me.
Proof.
  intros Hok. unfold poll_events.
  pose proof (ring_size_nonneg _ (proj1 Hok)) as Hnn.
  destruct (drain_contents EngineEvent_default
              (S (Z.to_nat (ring_size (event_buffer_ me)))) _ Hok)
    as (Hd & Hok' & He & Hz & _); [lia|].
  destruct (drain _ _ (event_buffer_ me)) as [out rb'] eqn:Hdr.
  simpl in *. intros [= <- <- <-]. simpl.
  split; [done|]. split.
  { split.
    - intros Hb Hnil. rewrite Hnil in Hb. done.
    - intros Hne. destruct out; done. }
  split; [done|]. split; [|done].
  rewrite Hz. simpl.
  pose proof (pop_contents EngineEvent_default rb' Hok') as Hp.
  destruct (pop EngineEvent_default rb') as [[x rb'']|].
  - destruct Hp as [Hp _]. rewrite He in Hp. done.
  - done.
Qed.

(** The book of an engine after a call is the book after the command the
    call stands for. *)
Lemma run_call_book c (me : MatchingEngine T) :
  book_ (run_call c me) =
  match c with
  | CallSubmit o => run_command (Submit o true) (book_ me) (time_source_ me)
  | CallCancel i => run_command (Cancel i) (book_ me) (time_source_ me)
  | CallReplace i p q => run_command (Replace i p q) (book_ me) (time_source_ me)
  | CallPoll => book_ me
  end.
Proof.
  destruct c as [o|i|i p q|]; simpl.
  - unfold submit.
    destruct (add o true (book_ me) (time_source_ me)) as [[[[ok b] tr] tp] c].
    destruct ok; by destruct (now_ns c).
  - unfold engine_cancel.
    destruct (cancel i (book_ me) (time_source_ me)) as [[[ok b] ev] c].
    destruct ok; [|done]. by destruct (best_bid_ask b c) as [[? ?] ?].
  - unfold engine_replace.
    destruct (replace i p q (book_ me) (time_source_ me)) as [[[[ok b] tr] ev] c].
    destruct ok; [|done]. by destruct (best_bid_ask b c) as [[? ?] ?].
  - unfold poll_events. by destruct (drain _ _ _).
Qed.

Lemma run_call_channel c (me : MatchingEngine T) :
  ring_ok (event_buffer_ me) ->
  ring_ok (event_buffer_ (run_call c me)) /\
  capacity_ (event_buffer_ (run_call c me)) = capacity_ (event_buffer_ me) /\
  config_ (run_call c me) = config_ me.
Proof.
  intros Hok. destruct c as [o|i|i p q|]; simpl.
  - unfold submit.
    destruct (add o true (book_ me) (time_source_ me)) as [[[[ok b] tr] tp] c].
    destruct ok; destruct (now_ns c) as [now c']; simpl.
    + rewrite <- emit_events_snoc, <- emit_events_cons.
      by destruct (emit_events_contents
                     (EvAccept (mkAccept (order_id o) now) :: map EvTrade tr
                        ++ [EvTop (default BookTop_default tp)])
                     _ Hok) as (_ & ? & ?).
    + by destruct (emit_event_contents (EvReject (mkReject (order_id o) now 1))
                     _ Hok) as (_ & ? & ?).
  - unfold engine_cancel.
    destruct (cancel i (book_ me) (time_source_ me)) as [[[ok b] ev] c].
    destruct ok; [|done]. destruct (best_bid_ask b c) as [[okt t] ct]. simpl.
    change (emit_event (EvTop t) (emit_event ?e ?rb))
      with (emit_events [e; EvTop t] rb).
    by destruct (emit_events_contents
                   [EvCancel (default (mkCancel 0 0 0) ev); EvTop t] _ Hok)
      as (_ & ? & ?).
  - unfold engine_replace.
    destruct (replace i p q (book_ me) (time_source_ me)) as [[[[ok b] tr] ev] c].
    destruct ok; [|done]. destruct (best_bid_ask b c) as [[okt t] ct]. simpl.
    rewrite <- emit_events_snoc, <- emit_events_cons.
    by destruct (emit_events_contents
                   (EvReplace (default (mkReplace 0 0 0 0) ev) :: map EvTrade tr
                      ++ [EvTop t]) _ Hok) as (_ & ? & ?).
  - unfold poll_events.
    pose proof (ring_size_nonneg _ (proj1 Hok)) as Hnn.
    destruct (drain_contents EngineEvent_default
                (S (Z.to_nat (ring_size (event_buffer_ me)))) _ Hok)
      as (_ & Hok' & _ & _ & Hcap); [lia|].
    by destruct (drain _ _ (event_buffer_ me)).
Qed.

Lemma engine_reachable_inv config (me : MatchingEngine T) :
  0 <= ring_size_cfg config <= 2 ^ 63 ->
  engine_reachable config me ->
  reachable (T:=T) (book_ me) /\
  ring_ok (event_buffer_ me) /\
  capacity_ (event_buffer_ me) = next_power_of_two (ring_size_cfg config) /\
  config_ me = config.
Proof.
  intros Hcfg Hr. induction Hr as [clk|me c Hr IH Hc].
  - split; [apply reach_new|]. split; [by apply RingBuffer_new_ok|]. done.
  - destruct IH as (Hb & Hok & Hcap & Hconf).
    destruct (run_call_channel c me Hok) as (Hok' & Hcap' & Hconf').
    split; [|split; [done|split; congruence]].
    rewrite run_call_book. destruct c as [o|i|i p q|]; [..|done];
      by apply reach_step.
Qed.

(** X19.  Whatever calls an engine has served since it was constructed,
    its book is one that the book's operations reach from the empty book,
    its configuration is the one it was constructed with, and its channel
    has the capacity chosen at construction and holds at most
    [capacity - 1] events. *)
Theorem engine_keeps_book_and_channel_sound config (me : MatchingEngine T) :
  0 <= ring_size_cfg config <= 2 ^ 63 ->
  engine_reachable config me ->
  reachable (T:=T) (book_ me) /\
  config_ me = config /\
  capacity (event_buffer_ me) = next_power_of_two (ring_size_cfg config) /\
  0 <= ring_size (event_buffer_ me) <= capacity (event_buffer_ me) - 1 /\
  Z.of_nat (length (ring_contents EngineEvent_default (event_buffer_ me))) =
    ring_size (event_buffer_ me).
Proof.
  intros Hcfg Hr.
  destruct (engine_reachable_inv _ _ Hcfg Hr) as (Hb & Hok & Hcap & Hconf).
  split; [done|]. split; [done|]. split; [done|].
  pose proof (ring_size_nonneg _ (proj1 Hok)) as Hnn.
  destruct (ring_size_cases _ (proj1 Hok)) as (Hh & Ht & Hsz).
  split.
  - unfold capacity. rewrite Hsz. clear Hsz. ring_arith.
  - unfold ring_contents. rewrite ring_slots_length. lia.
Qed.

End EngineEvents.

(** ** Replaying recorded messages *)

Section Replay.

Context {T : Type} `{TimeSource T}.

Lemma replay_from_app (pre rest : list MarketDataMessage)
    (st : Z * option (list EngineEvent) * MatchingEngine T) :
  replay_from (pre ++ rest) st = replay_from rest (replay_from pre st).
Proof. revert st. induction pre as [|m pre IH]; intros st; [done|]. simpl. apply IH. Qed.

(** The engine after a message is the engine after the call the message
    stands for. *)
Lemma replay_message_call msg (me : MatchingEngine T) :
  snd (replay_message msg me) =
  match message_call msg with Some c => run_call c me | None => me end.
Proof.
  unfold replay_message, message_call.
  destruct (_ || _); [done|].
  destruct (bool_decide (msg_action msg = "CANCEL")); [done|].
  by destruct (bool_decide (msg_action msg = "REPLACE")).
Qed.

Lemma message_call_wf msg c :
  message_wf msg -> message_call msg = Some c -> call_wf c.
Proof.
  intros (Hts & Hid & Hq & Hp). unfold message_call.
  destruct (_ || _); [intros [= <-]; by apply order_make_wf|].
  destruct (bool_decide (msg_action msg = "CANCEL")); [by intros [= <-]|].
  destruct (bool_decide (msg_action msg = "REPLACE")); [|done].
  by intros [= <-].
Qed.

Lemma replay_one_engine msg processed out (me : MatchingEngine T) :
  snd (replay_one msg (processed, out, me)) =
  match out with Some _ => run_call CallPoll | None => id end
    (snd (replay_message msg me)) /\
  (is_Some (snd (fst (replay_one msg (processed, out, me)))) <-> is_Some out) /\
  (0 <= processed ->
   0 <= fst (fst (replay_one msg (processed, out, me))) <= processed + 1).
Proof.
  unfold replay_one. destruct (replay_message msg me) as [ok me1]. simpl.
  assert (Hcount : 0 <= processed ->
            0 <= (if ok then u64 (processed + 1) else processed) <= processed + 1).
  { intros Hp. destruct ok; [|lia]. unfold u64.
    split; [apply Z.mod_pos_bound; lia|apply Z.mod_le; lia]. }
  destruct out as [v|]; simpl.
  - destruct (poll_events me1) as [[okp evs] me2]. simpl.
    split; [done|]. split; [|done]. split; by eexists.
  - split; [done|]. split; [|done]. split; by intros [? ?].
Qed.

Lemma replay_from_sound config msgs processed out (me : MatchingEngine T) :
  engine_reachable config me -> Forall message_wf msgs -> 0 <= processed ->
  engine_reachable config (snd (replay_from msgs (processed, out, me))) /\
  0 <= fst (fst (replay_from msgs (processed, out, me)))
    <= processed + Z.of_nat (length msgs) /\
  (is_Some (snd (fst (replay_from msgs (processed, out, me)))) <-> is_Some out).
Proof.
  intros Hr Hwf. revert processed out me Hr.
  induction Hwf as [|msg msgs Hmsg Hwf IH]; intros processed out me Hr Hp.
  { simpl. split; [done|]. split; [lia|done]. }
  cbn [replay_from].
  destruct (replay_one_engine msg processed out me) as (Heng & Hout & Hcount).
  specialize (Hcount Hp).
  destruct (replay_one msg (processed, out, me)) as [[p1 out1] me1] eqn:Hone.
  simpl in Heng, Hout, Hcount.
  assert (Hr1 : engine_reachable config me1).
  { rewrite Heng, replay_message_call.
    assert (Hmid : engine_reachable config
              match message_call msg with Some c => run_call c me | None => me end).
    { destruct (message_call msg) as [c|] eqn:Hcall; [|done].
      apply engine_step; [done|]. by eapply message_call_wf. }
    destruct out; [|done]. by apply engine_step. }
  destruct (IH p1 out1 me1 Hr1 ltac:(lia)) as (Hr2 & Hc2 & Ho2).
  split; [done|]. split; [|by rewrite Ho2].
  simpl length. lia.
Qed.

(** X20.  [replay_until] replays the messages in front of the first one
    stamped after the given time, as [replay_all] would replay them, and
    nothing behind it, whatever the later messages are stamped. *)
Theorem replay_until_stops_at_first_later_message
    timestamp (pre rest : list MarketDataMessage) out (me : MatchingEngine T) :
  Forall (fun m => msg_timestamp m <= timestamp) pre ->
  match rest with [] => True | m :: _ => timestamp < msg_timestamp m end ->
  replay_until timestamp (pre ++ rest) out me = replay_all pre out me.
Proof.
  intros Hpre Hrest. unfold replay_until, replay_all.
  generalize (0, out, me). clear out me.
  induction Hpre as [|m pre Hm Hpre IH]; intros st; simpl.
  - destruct rest as [|m rest]; [done|]. simpl.
    by rewrite (proj2 (Z.ltb_lt _ _) Hrest).
  - rewrite (proj2 (Z.ltb_ge _ _) Hm). apply IH.
Qed.

(** X21.  Replaying messages is a sequence of engine calls: the engine
    stays one that calls reach from construction (so its book is a
    reachable book), the count returned is at most the number of
    messages, and the caller's vector is written only when one was
    passed. *)
Theorem replay_all_runs_engine_calls config msgs out (me : MatchingEngine T) :
  0 <= ring_size_cfg config <= 2 ^ 63 ->
  engine_reachable config me -> Forall message_wf msgs ->
  engine_reachable config (snd (replay_all msgs out me)) /\
  reachable (T:=T) (book_ (snd (replay_all msgs out me))) /\
  0 <= fst (fst (replay_all msgs out me)) <= Z.of_nat (length msgs) /\
  (is_Some (snd (fst (replay_all msgs out me))) <-> is_Some out).
Proof.
  intros Hcfg Hr Hwf. unfold replay_all.
  destruct (replay_from_sound config msgs 0 out me Hr Hwf ltac:(lia))
    as (Hr' & Hc & Ho).
  split; [done|]. split; [|split; [lia|done]].
  by destruct (engine_reachable_inv _ _ Hcfg Hr') as (? & _).
Qed.

(** X22.  With a vector passed, every message is followed by a poll that
    clears the vector first: after the replay the vector holds what the
    poll after the last message delivered, and nothing of the earlier
    messages; the channel is empty. *)
Theorem replay_all_keeps_last_poll_only
    config pre msg v (me : MatchingEngine T) :
  0 <= ring_size_cfg config <= 2 ^ 63 ->
  engine_reachable config me -> Forall message_wf (pre ++ [msg]) ->
  let before := snd (replay_all pre (Some v) me) in
  let after := replay_all (pre ++ [msg]) (Some v) me in
  snd (fst after) = Some (delivered (snd (replay_message msg before))) /\
  ring_contents EngineEvent_default (event_buffer_ (snd after)) = [].
Proof.
  intros Hcfg Hr Hwf before after. subst before after. unfold replay_all.
  rewrite replay_from_app. cbn [replay_from].
  apply Forall_app in Hwf as [Hpre Hmsg]. apply Forall_cons in Hmsg as [Hmsg _].
  destruct (replay_from_sound config pre 0 (Some v) me Hr Hpre ltac:(lia))
    as (Hr1 & _ & Ho).
  destruct (replay_from pre (0, Some v, me)) as [[p1 out1] me1]. simpl in *.
  assert (is_Some out1) as [v1 ->] by (apply (proj2 Ho); by eexists).
  unfold replay_one, delivered.
  destruct (replay_message msg me1) as [ok me2] eqn:Hm. simpl.
  assert (Hr2 : engine_reachable config me2).
  { pose proof (replay_message_call msg me1) as Hcall. rewrite Hm in Hcall.
    simpl in Hcall. rewrite Hcall.
    destruct (message_call msg) as [c|] eqn:Hc; [|done].
    apply engine_step; [done|]. by eapply message_call_wf. }
  destruct (engine_reachable_inv _ _ Hcfg Hr2) as (_ & Hok & _).
  destruct (poll_events me2) as [[okp evs] me3] eqn:Hpoll. simpl.
  split; [done|].
  pose proof (ring_size_nonneg _ (proj1 Hok)) as Hnn.
  unfold poll_events in Hpoll.
  destruct (drain_contents EngineEvent_default
              (S (Z.to_nat (ring_size (event_buffer_ me2)))) _ Hok)
    as (_ & _ & He & _); [lia|].
  destruct (drain _ _ (event_buffer_ me2)) as [out rb']. simpl in He.
  by injection Hpoll as _ _ <-.
Qed.

End Replay.

(** ** Several symbols, one engine each *)

Section MultiSymbol.

Context {T : Type} `{TimeSource T}.

(** A call addressed to a symbol is the call on that symbol's engine, run
    on the shared clock. *)
Lemma multi_call_known symbol c (m : MultiSymbolEngine T) me :
  Multi.get_engine symbol m = Some me ->
  snd (multi_call symbol c m) = Multi.put_engine symbol (run_call c me) m.
Proof.
  intros Hget. destruct c as [o|i|i p q|]; simpl.
  - unfold Multi.submit. rewrite Hget. by destruct (submit o me).
  - unfold Multi.cancel. rewrite Hget. by destruct (engine_cancel i me).
  - unfold Multi.replace. rewrite Hget. by destruct (engine_replace i p q me).
  - unfold Multi.poll_events. rewrite Hget. by destruct (poll_events me) as [[? ?] ?].
Qed.

Lemma multi_call_unknown symbol c (m : MultiSymbolEngine T) :
  engines_ m !! symbol = None -> multi_call symbol c m = (false, m).
Proof.
  intros Hnone.
  assert (Hget : Multi.get_engine symbol m = None).
  { unfold Multi.get_engine. by rewrite Hnone. }
  destruct c as [o|i|i p q|]; simpl.
  - unfold Multi.submit. by rewrite Hget.
  - unfold Multi.cancel. by rewrite Hget.
  - unfold Multi.replace. by rewrite Hget.
  - unfold Multi.poll_events. by rewrite Hget.
Qed.

Lemma get_engine_Some symbol (m : MultiSymbolEngine T) me :
  engines_ m !! symbol = Some me ->
  exists me0, Multi.get_engine symbol m = Some me0 /\
    book_ me0 = book_ me /\ event_buffer_ me0 = event_buffer_ me /\
    config_ me0 = config_ me /\ time_source_ me0 = shared_time_source_ m.
Proof. intros Hm. unfold Multi.get_engine. rewrite Hm. by eexists. Qed.

(** X23.  A call addressed to a symbol that was not added returns false
    and changes nothing; a call addressed to a known symbol returns what
    that symbol's engine returns and leaves the engine of every other
    symbol as it was. *)
Theorem multi_symbol_calls_are_isolated symbol c (m : MultiSymbolEngine T) :
  (engines_ m !! symbol = None -> multi_call symbol c m = (false, m)) /\
  (forall me,
     Multi.get_engine symbol m = Some me ->
     engines_ (snd (multi_call symbol c m)) !! symbol = Some (run_call c me) /\
     shared_time_source_ (snd (multi_call symbol c m)) =
       time_source_ (run_call c me)) /\
  (forall other,
     other <> symbol ->
     engines_ (snd (multi_call symbol c m)) !! other = engines_ m !! other).
Proof.
  split; [apply multi_call_unknown|]. split.
  - intros me Hget. rewrite (multi_call_known _ _ _ _ Hget). simpl.
    by rewrite lookup_insert_eq.
  - intros other Hne. destruct (engines_ m !! symbol) as [me|] eqn:Hm.
    + destruct (get_engine_Some _ _ _ Hm) as (me0 & Hget & _).
      rewrite (multi_call_known _ _ _ _ Hget). simpl.
      by rewrite lookup_insert_ne.
    + by rewrite multi_call_unknown.
Qed.

Lemma multi_reachable_engines default_config (m : MultiSymbolEngine T) :
  0 <= ring_size_cfg default_config <= 2 ^ 63 ->
  multi_reachable default_config m ->
  default_config_ m = default_config /\
  forall symbol me,
    engines_ m !! symbol = Some me ->
    reachable (T:=T) (book_ me) /\ ring_ok (event_buffer_ me) /\
    0 <= ring_size_cfg (config_ me) <= 2 ^ 63 /\
    capacity_ (event_buffer_ me) = next_power_of_two (ring_size_cfg (config_ me)).
Proof.
  intros Hcfg Hr. induction Hr as [clk|m c Hr [IHc IH] Hc].
  { split; [done|]. intros symbol me. simpl. by rewrite lookup_empty. }
  destruct c as [symbol custom|symbol|symbol c|symbol]; simpl.
  - unfold Multi.add_symbol. destruct (bool_decide _); [done|]. simpl.
    split; [done|]. intros s me Hs.
    apply lookup_insert_Some in Hs as [[_ <-]|[_ Hs]]; [|by eauto].
    simpl. split; [apply reach_new|].
    assert (Hsize : 0 <= ring_size_cfg (default (default_config_ m) custom) <= 2 ^ 63).
    { destruct custom as [config|]; simpl; [done|by rewrite IHc]. }
    split; [by apply RingBuffer_new_ok|]. done.
  - split; [done|]. intros s me Hs.
    apply lookup_delete_Some in Hs as [_ Hs]. by eauto.
  - destruct (engines_ m !! symbol) as [me|] eqn:Hm.
    2:{ by rewrite multi_call_unknown. }
    destruct (get_engine_Some _ _ _ Hm) as (me0 & Hget & Hb0 & He0 & Hc0 & _).
    rewrite (multi_call_known _ _ _ _ Hget). simpl. split; [done|].
    destruct (IH _ _ Hm) as (Hbook & Hok & Hsize & Hcap).
    intros s me' Hs.
    apply lookup_insert_Some in Hs as [[_ <-]|[_ Hs]]; [|by eauto].
    rewrite <- He0 in Hok, Hcap.
    destruct (run_call_channel c me0 Hok) as (Hok' & Hcap' & Hconf').
    rewrite run_call_book, Hb0, Hconf', Hcap', Hc0.
    split; [|done].
    destruct c as [o|i|i p q|]; [..|done]; by apply reach_step.
  - unfold Multi.best_bid_ask.
    destruct (Multi.get_engine symbol m) as [me|]; [|done].
    by destruct (best_bid_ask (book_ me) (time_source_ me)) as [[? ?] ?].
Qed.

(** X24.  Whatever symbols have been added and removed and whatever calls
    have been served, the book of every symbol is one that the book's
    operations reach from the empty book, and its channel is well formed
    with the capacity its configuration asks for. *)
Theorem multi_symbol_books_stay_reachable
    default_config (m : MultiSymbolEngine T) symbol me :
  0 <= ring_size_cfg default_config <= 2 ^ 63 ->
  multi_reachable default_config m ->
  Multi.get_engine symbol m = Some me ->
  reachable (T:=T) (book_ me) /\
  ring_ok (event_buffer_ me) /\
  capacity (event_buffer_ me) = next_power_of_two (ring_size_cfg (config_ me)) /\
  symbol ∈ Multi.get_symbols m.
Proof.
  intros Hcfg Hr Hget.
  destruct (multi_reachable_engines _ _ Hcfg Hr) as [_ Hall].
  unfold Multi.get_engine in Hget.
  destruct (engines_ m !! symbol) as [me0|] eqn:Hm; [|done].
  injection Hget as <-. simpl.
  destruct (Hall _ _ Hm) as (? & ? & ? & ?).
  split; [done|]. split; [done|]. split; [done|].
  unfold Multi.get_symbols. apply list_elem_of_fmap.
  exists (symbol, me0). split; [done|]. by apply elem_of_map_to_list.
Qed.

(** X25.  [add_symbol] refuses a symbol that is there and otherwise
    installs a fresh engine with the custom configuration, or the default
    one; [remove_symbol] right after it undoes it. *)
Theorem add_symbol_installs_fresh_engine symbol custom (m : MultiSymbolEngine T) :
  (fst (Multi.add_symbol symbol custom m) = false <->
   is_Some (engines_ m !! symbol)) /\
  (is_Some (engines_ m !! symbol) -> snd (Multi.add_symbol symbol custom m) = m) /\
  (engines_ m !! symbol = None ->
   Multi.get_engine symbol (snd (Multi.add_symbol symbol custom m)) =
     Some (MatchingEngine_new (default (default_config_ m) custom)
                              (shared_time_source_ m)) /\
   fst (Multi.add_symbol symbol custom (snd (Multi.add_symbol symbol custom m)))
     = false /\
   Multi.remove_symbol symbol (snd (Multi.add_symbol symbol custom m)) = (true, m)).
Proof.
  unfold Multi.add_symbol.
  destruct (engines_ m !! symbol) as [me|] eqn:Hm.
  - rewrite bool_decide_eq_true_2 by (by eexists). simpl.
    split; [done|]. split; [done|]. done.
  - rewrite bool_decide_eq_false_2 by (by intros [? ?]). simpl.
    split; [split; [done|by intros [? ?]]|]. split; [by intros [? ?]|].
    intros _. split; [|split].
    + unfold Multi.get_engine. simpl. by rewrite lookup_insert_eq.
    + rewrite bool_decide_eq_true_2; [done|]. rewrite lookup_insert_eq. by eexists.
    + unfold Multi.remove_symbol. simpl. rewrite lookup_insert_eq.
      rewrite bool_decide_eq_true_2 by (by eexists).
      rewrite delete_insert_id by done. by destruct m.
Qed.

End MultiSymbol.

(** ** The object pool *)

Lemma acquire_snoc s fl o :
  acquire (mkPool s (fl ++ [o])) = (Some o, mkPool s fl).
Proof.
  unfold acquire. simpl. rewrite last_snoc. by rewrite removelast_last.
Qed.

Lemma acquire_many_free s fl xs :
  acquire_many (length xs) (mkPool s (fl ++ xs)) =
  (map Some (reverse xs), mkPool s fl).
Proof.
  induction xs as [|x xs IH] using rev_ind; simpl.
  { by rewrite app_nil_r. }
  rewrite length_app, Nat.add_comm. simpl.
  rewrite app_assoc, acquire_snoc, IH. by rewrite reverse_snoc.
Qed.

(** X26.  A fresh pool of capacity [n] hands out its [n] objects, each
    once, the last allocated first, and then the null pointer, which
    leaves it unchanged; an object released is the next one acquired. *)
Theorem pool_hands_out_each_object_once (n : Z) :
  0 <= n ->
  let run := acquire_many (Z.to_nat n) (Pool_new n) in
  pool_capacity (Pool_new n) = n /\ available (Pool_new n) = n /\
  fst run = map Some (reverse (seq 0 (Z.to_nat n))) /\
  NoDup (fst run) /\
  available (snd run) = 0 /\
  acquire (snd run) = (None, snd run) /\
  (forall p o, acquire (release (Some o) p) = (Some o, p)) /\
  (forall p, release None p = p).
Proof.
  intros Hn run.
  assert (Hrun : run = (map Some (reverse (seq 0 (Z.to_nat n))),
                        mkPool (Z.to_nat n) [])).
  { subst run. unfold Pool_new.
    pose proof (acquire_many_free (Z.to_nat n) [] (seq 0 (Z.to_nat n))) as Hm.
    rewrite length_seq in Hm. exact Hm. }
  rewrite Hrun. simpl.
  split; [unfold pool_capacity; simpl; lia|].
  split; [unfold available; simpl; rewrite length_seq; lia|].
  split; [done|]. split.
  { apply NoDup_fmap_2; [intros ? ? [=]; done|].
    rewrite reverse_Permutation. apply NoDup_seq. }
  split; [done|]. split; [done|]. split; [|done].
  intros [s fl] o. apply acquire_snoc.
Qed.

(** ** The simulated clock *)

Lemma match_loop_simulated o fuel (st : MatchState (T:=Z)) :
  Forall (fun t => trade_ts t = ms_clock st) (ms_trades st) ->
  ms_clock (match_loop fuel o st) = ms_clock st /\
  Forall (fun t => trade_ts t = ms_clock st) (ms_trades (match_loop fuel o st)).
Proof.
  intros Hts.
  apply (match_loop_invariant
           (fun st' : MatchState (T:=Z) =>
              ms_clock st' = ms_clock st /\
              Forall (fun t => trade_ts t = ms_clock st) (ms_trades st')));
    [|done].
  intros st1 st2 [Hc Hall] Hstep.
  destruct (match_step_facts _ _ _ Hstep)
    as [bp lvl rest mk q now fill rem trade _ _ _ _ Hnow _ Htr _].
  simpl in Hnow. unfold SimulatedTimeSource_now in Hnow.
  injection Hnow as Hn1 Hn2. split; [congruence|].
  rewrite Htr. apply Forall_app. split; [done|].
  apply Forall_singleton. subst trade. simpl. congruence.
Qed.

Lemma match_order_simulated o b (t : Z) w b' trades t' :
  match_order o b t = (w, b', trades, t') ->
  t' = t /\ Forall (fun tr => trade_ts tr = t) trades.
Proof.
  rewrite match_order_final. intros [= _ _ <- <-]. unfold match_final.
  destruct (match_loop_simulated o
              (S (S (slot_count (side_levels (opposite (order_side o)) b))))
              (mkMatch (order_qty o) (side_levels (opposite (order_side o)) b)
                       (order_index_ b) [] t)) as [Hc Hall]; [by apply Forall_nil|].
  done.
Qed.

Lemma snapshot_simulated want_top b (t : Z) top t' :
  snapshot want_top b t = (top, t') ->
  t' = t /\ forall tp, top = Some tp -> top_ts tp = t.
Proof.
  unfold snapshot. destruct want_top.
  - pose proof (best_bid_ask_prices b t) as (_ & _ & Hts).
    destruct (best_bid_ask b t) as [[ok tp] c] eqn:Hb.
    unfold best_bid_ask in Hb. simpl in Hb.
    intros [= <- <-]. split.
    + by destruct (bids_ b) as [|[? ?] ?], (asks_ b) as [|[? ?] ?];
        injection Hb as _ _ <-.
    + intros tp' [= <-]. exact Hts.
  - intros [= <- <-]. split; [done|]. intros tp. done.
Qed.

Lemma add_simulated o want_top b (t : Z) ok b' trades top t' :
  add o want_top b t = (ok, b', trades, top, t') ->
  t' = t /\ Forall (fun tr => trade_ts tr = t) trades /\
  forall tp, top = Some tp -> top_ts tp = t.
Proof.
  unfold add. destruct (bool_decide _).
  { intros [= _ _ <- <- <-]. split; [done|]. split; [apply Forall_nil_2|done]. }
  assert (Hphase : forall w b0 t0,
    Forall (fun tr => trade_ts tr = t) t0 ->
    add_limit_phase w b0 t0 want_top t = (ok, b', trades, top, t') ->
    t' = t /\ Forall (fun tr => trade_ts tr = t) trades /\
    forall tp, top = Some tp -> top_ts tp = t).
  { intros w b0 t0 Ht0. unfold add_limit_phase.
    destruct (would_cross w b0).
    - destruct (match_order w b0 t) as [[[w1 b1] t1] c1] eqn:Hm.
      destruct (match_order_simulated _ _ _ _ _ _ _ Hm) as [-> Ht1].
      destruct (snapshot want_top _ t) as [tp c2] eqn:Hsnap.
      destruct (snapshot_simulated _ _ _ _ _ Hsnap) as [-> Htp].
      intros [= _ _ <- <- <-]. split; [done|]. split; [|done].
      by apply Forall_app.
    - destruct (snapshot want_top _ t) as [tp c2] eqn:Hsnap.
      destruct (snapshot_simulated _ _ _ _ _ Hsnap) as [-> Htp].
      intros [= _ _ <- <- <-]. done. }
  destruct (is_market o || is_ioc o || is_fok o); [|apply Hphase; apply Forall_nil_2].
  destruct (is_fok o && _).
  { intros [= _ _ <- <- <-]. split; [done|]. split; [apply Forall_nil_2|done]. }
  destruct (match_order o b t) as [[[w1 b1] t1] c1] eqn:Hm.
  destruct (match_order_simulated _ _ _ _ _ _ _ Hm) as [-> Ht1].
  destruct ((order_qty w1 =? 0) || is_ioc w1 || is_fok w1); [|by apply Hphase].
  destruct (snapshot want_top b1 t) as [tp c2] eqn:Hsnap.
  destruct (snapshot_simulated _ _ _ _ _ Hsnap) as [-> Htp].
  intros [= _ _ <- <- <-]. done.
Qed.

(** X27.  On the simulated clock the book's operations do not move time:
    [add], [cancel] and [replace] leave the clock where it was, and every
    trade, snapshot, cancel event and replace event they produce carries
    the clock's reading.  Only [advance] and [set] change it. *)
Theorem simulated_clock_stamps_events (t : Z) b :
  (forall o want_top ok b' trades top t',
     add o want_top b t = (ok, b', trades, top, t') ->
     t' = t /\ Forall (fun tr => trade_ts tr = t) trades /\
     forall tp, top = Some tp -> top_ts tp = t) /\
  (forall i ok b' ev t',
     cancel i b t = (ok, b', ev, t') ->
     t' = t /\ forall e, ev = Some e -> cancel_ts e = t) /\
  (forall i new_price new_qty ok b' trades ev t',
     replace i new_price new_qty b t = (ok, b', trades, ev, t') ->
     t' = t /\ Forall (fun tr => trade_ts tr = t) trades /\
     forall e, ev = Some e -> replace_ts e = t) /\
  (forall delta, fst (now_ns (SimulatedTimeSource_advance delta t)) = u64 (t + delta)) /\
  (forall ns, fst (now_ns (SimulatedTimeSource_set ns t)) = ns).
Proof.
  assert (Hcancel : forall i ok b' ev t',
     cancel i b t = (ok, b', ev, t') ->
     t' = t /\ forall e, ev = Some e -> cancel_ts e = t).
  { intros i ok b' ev t'. destruct (order_index_ b !! i) as [loc|] eqn:Hix.
    - rewrite (cancel_known _ _ _ _ Hix). simpl. intros [= _ _ <- <-].
      split; [done|]. by intros e [= <-].
    - rewrite cancel_unknown by done. intros [= _ _ <- <-]. done. }
  split; [intros *; apply add_simulated|]. split; [exact Hcancel|].
  split; [|done].
  intros i p q ok b' trades ev t'. unfold replace.
  destruct (order_index_ b !! i) as [loc|].
  2:{ intros [= _ _ <- <- <-]. split; [done|]. split; [apply Forall_nil_2|done]. }
  destruct (match map_find _ _ with Some l => find_order i l | None => None end)
    as [bo|].
  2:{ intros [= _ _ <- <- <-]. split; [done|]. split; [apply Forall_nil_2|done]. }
  destruct (cancel i b t) as [[[okc b1] evc] c1] eqn:Hc.
  destruct (Hcancel _ _ _ _ _ Hc) as [-> _].
  destruct okc.
  2:{ intros [= _ _ <- <- <-]. split; [done|]. split; [apply Forall_nil_2|done]. }
  simpl.
  destruct (add _ false b1 t) as [[[[oka b2] t2] tp] c3] eqn:Ha.
  destruct (add_simulated _ _ _ _ _ _ _ _ _ Ha) as (-> & Ht2 & _).
  destruct oka; intros [= _ _ <- <- <-]; split; try done; split; try done.
  by intros e [= <-].
Qed.

(** ** The cached total of a level *)

Lemma level_sum_app q1 q2 t1 t2 t3 :
  level_sum (mkLevel (q1 ++ q2) t1) =
  level_sum (mkLevel q1 t2) + level_sum (mkLevel q2 t3).
Proof.
  unfold level_sum. simpl. induction q1 as [|x q1 IH]; simpl; [done|].
  rewrite IH. lia.
Qed.

Lemma u64_sub_l a b : u64 (u64 a - b) = u64 (a - b).
Proof. unfold u64. by rewrite Zminus_mod_idemp_l. Qed.

Lemma u64_add_l a b : u64 (u64 a + b) = u64 (a + b).
Proof. unfold u64. by rewrite Zplus_mod_idemp_l. Qed.

Lemma remove_first_find i q :
  match find (fun s => bool_decide (order_id (order s) = i)) q with
  | Some bo =>
      exists q', remove_first i q = Some (q', remaining_qty bo) /\
                 length q = S (length q') /\
                 level_sum (mkLevel q 0) = remaining_qty bo + level_sum (mkLevel q' 0)
  | None => remove_first i q = None
  end.
Proof.
  induction q as [|s q IH]; simpl; [done|].
  destruct (decide (order_id (order s) = i)) as [Heq|Hne].
  - rewrite bool_decide_eq_true_2 by done. exists q. done.
  - rewrite bool_decide_eq_false_2 by done.
    destruct (find _ q) as [bo|].
    + destruct IH as (q' & -> & Hlen & Hsum). exists (s :: q').
      split; [done|]. split; [simpl; lia|].
      unfold level_sum in *. simpl in *. lia.
    + by rewrite IH.
Qed.

(** X28.  Used through its own interface, a level keeps its cached total
    equal to the sum of its slots' remaining quantities (as a 64-bit
    value): [add_order], [pop_front], [remove_order] and
    [update_front_qty] each preserve this; [remove_order] takes out the
    slot that [find_order] finds and reports its remaining quantity. *)
Theorem level_total_tracks_queue l :
  level_exact l ->
  (forall bo, level_exact (add_order bo l)) /\
  level_exact (pop_front l) /\
  (forall new_qty, level_exact (update_front_qty new_qty l)) /\
  (forall i,
     match find_order i l with
     | Some bo =>
         exists l', remove_order i l = Some (l', remaining_qty bo) /\
                    level_exact l' /\
                    length (orders_ l) = S (length (orders_ l'))
     | None => remove_order i l = None
     end).
Proof.
  unfold level_exact. intros Hl. split; [|split; [|split]].
  - intros bo. rewrite level_sum_add_order. unfold add_order. simpl.
    by rewrite Hl, u64_add_l.
  - unfold pop_front. destruct (orders_ l) as [|f q] eqn:Hq; [done|]. simpl.
    rewrite Hl, u64_sub_l. f_equal. unfold level_sum. rewrite Hq. simpl. lia.
  - intros new_qty. unfold update_front_qty.
    destruct (orders_ l) as [|f q] eqn:Hq; [done|]. simpl.
    rewrite Hl, u64_sub_l, u64_add_l. f_equal.
    unfold level_sum. rewrite Hq. simpl. lia.
  - intros i. unfold find_order, remove_order.
    pose proof (remove_first_find i (orders_ l)) as Hf.
    destruct (find _ (orders_ l)) as [bo|].
    + destruct Hf as (q' & -> & Hlen & Hsum). eexists. split; [done|].
      split; [|done]. simpl. rewrite Hl, u64_sub_l. f_equal.
      unfold level_sum in *. simpl in *. lia.
    + by rewrite Hf.
Qed.

(** ** Prices as tick counts and back *)

Section PriceRoundTrip.

Local Open Scope Q_scope.






End PriceRoundTrip.

(** ** The further properties at work on the examples *)

Lemma add_result_eq o b :
  add o true b (0 : Z) =
  (fst (fst (fst (fst (add_result o b)))), add_book o b, add_trades o b,
   add_top o b, snd (add_result o b)).
Proof.
  unfold add_book, add_trades, add_top, add_result.
  by destruct (add o true b 0) as [[[[? ?] ?] ?] ?].
Qed.

Lemma reachable_levels_ordered_nonempty_witness :
  StronglySorted (fun p q => p < q) (keys (asks_ book_two_asks)) /\
  cleanup_empty_level Sell 100 book_two_asks = book_two_asks.
Proof.
  split.
  - apply (reachable_levels_ordered_nonempty (T:=Z) book_two_asks
             book_two_asks_reachable).
  - apply (reachable_levels_ordered_nonempty (T:=Z) book_two_asks
             book_two_asks_reachable).
Defined.

Lemma index_agrees_with_queues_witness :
  order_index_ book_one_ask !! 1 = Some (mkLoc Sell 100) <->
  exists l bo,
    map_find 100 (side_levels Sell book_one_ask) = Some l /\
    bo ∈ orders_ l /\ slot_id bo = 1.
Proof.
  apply (index_agrees_with_queues (T:=Z) book_one_ask 1 Sell 100
           book_one_ask_reachable).
Defined.

Lemma resting_slots_are_live_limit_orders_witness :
  order_type (order (BookOrder_of sell_1)) = Limit /\
  order_side (order (BookOrder_of sell_1)) = Sell /\
  order_price (order (BookOrder_of sell_1)) = 100 /\
  0 < remaining_qty (BookOrder_of sell_1) <= order_qty (order (BookOrder_of sell_1)).
Proof.
  refine (resting_slots_are_live_limit_orders (T:=Z) book_one_ask Sell 100
            (mkLevel [BookOrder_of sell_1] 5) (BookOrder_of sell_1)
            book_one_ask_reachable _ _).
  - vm_compute. left.
  - vm_compute. left.
Defined.

Lemma total_orders_counts_slots_witness :
  total_orders book_two_asks = length (book_slot_ids book_two_asks) /\
  NoDup (book_slot_ids book_two_asks).
Proof.
  apply (total_orders_counts_slots (T:=Z) book_two_asks book_two_asks_reachable).
Defined.

Lemma accepted_order_trades_what_is_in_reach_witness :
  traded_qty (add_trades buy_12 book_two_asks) =
  Z.min (order_qty buy_12)
        (reach_qty buy_12 (side_levels (opposite (order_side buy_12)) book_two_asks)).
Proof.
  refine (accepted_order_trades_what_is_in_reach (T:=Z) buy_12 true book_two_asks 0
            (add_book buy_12 book_two_asks) (add_trades buy_12 book_two_asks)
            (add_top buy_12 book_two_asks) (snd (add_result buy_12 book_two_asks))
            book_two_asks_reachable _ _ _).
  - apply order_make_wf; unfold u64_range; lia.
  - intros _. vm_compute. intros Hin.
    apply elem_of_cons in Hin as [Hin|Hin]; [discriminate Hin|].
    by apply elem_of_nil in Hin.
  - vm_compute. reflexivity.
Defined.

Lemma add_conserves_quantity_witness :
  0 <= traded_qty (add_trades buy_12 book_two_asks) <= order_qty buy_12 /\
  (is_Some (order_index_ (add_book buy_12 book_two_asks) !! order_id buy_12) <->
   order_type buy_12 = Limit /\
   traded_qty (add_trades buy_12 book_two_asks) < order_qty buy_12) /\
  resting_qty (add_book buy_12 book_two_asks) =
    resting_qty book_two_asks - traded_qty (add_trades buy_12 book_two_asks) +
    (if bool_decide
          (is_Some (order_index_ (add_book buy_12 book_two_asks) !! order_id buy_12))
     then order_qty buy_12 - traded_qty (add_trades buy_12 book_two_asks) else 0).
Proof.
  refine (add_conserves_quantity (T:=Z) buy_12 true book_two_asks 0
            (add_book buy_12 book_two_asks) (add_trades buy_12 book_two_asks)
            (add_top buy_12 book_two_asks) (snd (add_result buy_12 book_two_asks))
            book_two_asks_reachable _ _).
  - apply order_make_wf; unfold u64_range; lia.
  - vm_compute. reflexivity.
Defined.

Lemma trades_are_with_resting_makers_witness :
  taker_id (mkTrade 3 2 100 3 0) = order_id buy_8 /\
  maker_id (mkTrade 3 2 100 3 0) <> order_id buy_8 /\
  order_index_ book_two_asks !! maker_id (mkTrade 3 2 100 3 0) =
    Some (mkLoc (opposite (order_side buy_8)) (trade_price (mkTrade 3 2 100 3 0))) /\
  0 < trade_qty (mkTrade 3 2 100 3 0).
Proof.
  refine (trades_are_with_resting_makers (T:=Z) buy_8 true book_two_asks 0
            (fst (fst (fst (fst (add_result buy_8 book_two_asks)))))
            (add_book buy_8 book_two_asks) (add_trades buy_8 book_two_asks)
            (add_top buy_8 book_two_asks) (snd (add_result buy_8 book_two_asks))
            (mkTrade 3 2 100 3 0)
            book_two_asks_reachable _ _ _).
  - apply order_make_wf; unfold u64_range; lia.
  - vm_compute. reflexivity.
  - vm_compute. right. left.
Defined.

Lemma trades_consume_queue_in_order_witness :
  map maker_id (add_trades buy_8 book_two_asks) =
    take (length (add_trades buy_8 book_two_asks))
         (queue_ids (book_queue (side_levels (opposite (order_side buy_8))
                                             book_two_asks))) /\
  map trade_price (add_trades buy_8 book_two_asks) =
    take (length (add_trades buy_8 book_two_asks))
         (map fst (book_queue (side_levels (opposite (order_side buy_8))
                                           book_two_asks))) /\
  NoDup (map maker_id (add_trades buy_8 book_two_asks)).
Proof.
  refine (trades_consume_queue_in_order (T:=Z) buy_8 true book_two_asks 0
            (fst (fst (fst (fst (add_result buy_8 book_two_asks)))))
            (add_book buy_8 book_two_asks) (add_trades buy_8 book_two_asks)
            (add_top buy_8 book_two_asks) (snd (add_result buy_8 book_two_asks))
            book_two_asks_reachable _).
  vm_compute. reflexivity.
Defined.

Lemma cancel_removes_exactly_one_slot_witness :
  exists bo qa qb,
    slot_id bo = 1 /\
    book_queue (side_levels Sell book_two_asks) = qa ++ (100, bo) :: qb /\
    book_queue (side_levels Sell (cancel_in book_two_asks 1)) = qa ++ qb /\
    side_levels (opposite Sell) (cancel_in book_two_asks 1) =
      side_levels (opposite Sell) book_two_asks /\
    order_index_ (cancel_in book_two_asks 1) = delete 1 (order_index_ book_two_asks) /\
    fst (fst (fst (cancel 1 book_two_asks (0 : Z)))) = true /\
    snd (fst (cancel 1 book_two_asks (0 : Z))) =
      Some (mkCancel 1 (remaining_qty bo) (fst (now_ns (0 : Z)))) /\
    0 < remaining_qty bo.
Proof.
  refine (cancel_removes_exactly_one_slot (T:=Z) 1 book_two_asks 0 Sell 100
            (fst (fst (fst (cancel 1 book_two_asks (0 : Z)))))
            (cancel_in book_two_asks 1)
            (snd (fst (cancel 1 book_two_asks (0 : Z))))
            (snd (cancel 1 book_two_asks (0 : Z)))
            book_two_asks_reachable _ _).
  - vm_compute. reflexivity.
  - vm_compute. reflexivity.
Defined.

Lemma replace_is_cancel_then_add_witness :
  fst (fst (fst (fst (replace 1 101 7 book_two_asks (0 : Z))))) = true <->
  is_Some (order_index_ book_two_asks !! 1).
Proof.
  apply (replace_is_cancel_then_add (T:=Z) 1 101 7 book_two_asks 0
           book_two_asks_reachable).
Defined.

Lemma resting_order_joins_back_of_queue_witness :
  exists l',
    map_find (order_price buy_12)
             (side_levels (order_side buy_12) (add_book buy_12 book_two_asks))
      = Some l' /\
    orders_ l' =
      orders_ (default BookLevel_default
                 (map_find (order_price buy_12)
                           (side_levels (order_side buy_12) book_two_asks)))
      ++ [mkBookOrder
            (with_qty buy_12
               (order_qty buy_12 - traded_qty (add_trades buy_12 book_two_asks)))
            (order_qty buy_12 - traded_qty (add_trades buy_12 book_two_asks))] /\
    (forall p', p' <> order_price buy_12 ->
       map_find p' (side_levels (order_side buy_12) (add_book buy_12 book_two_asks)) =
       map_find p' (side_levels (order_side buy_12) book_two_asks)) /\
    order_index_ (add_book buy_12 book_two_asks) !! order_id buy_12 =
      Some (mkLoc (order_side buy_12) (order_price buy_12)).
Proof.
  refine (resting_order_joins_back_of_queue (T:=Z) buy_12 true book_two_asks 0
            (add_book buy_12 book_two_asks) (add_trades buy_12 book_two_asks)
            (add_top buy_12 book_two_asks) (snd (add_result buy_12 book_two_asks))
            book_two_asks_reachable _ _ _).
  - apply order_make_wf; unfold u64_range; lia.
  - vm_compute. reflexivity.
  - vm_compute. by eexists.
Defined.

Lemma best_bid_ask_reports_extremes_witness :
  best_bid (snd (fst (best_bid_ask book_two_sided (0 : Z)))) ∈ keys (bids_ book_two_sided).
Proof.
  refine (proj1 (proj2 (proj2 (proj2
            (best_bid_ask_reports_extremes (T:=Z) book_two_sided 0
               (fst (fst (best_bid_ask book_two_sided (0 : Z))))
               (snd (fst (best_bid_ask book_two_sided (0 : Z))))
               (snd (best_bid_ask book_two_sided (0 : Z)))
               (reachable_priced_reachable _ book_two_sided_priced) _)))) _).
  - vm_compute. reflexivity.
  - vm_compute. discriminate.
Defined.

Lemma ring_1_2_ok : ring_ok ring_1_2.
Proof.
  apply (push_all_contents (0 : Z) [1; 2] (RingBuffer_new (0 : Z) 3)).
  apply RingBuffer_new_ok. lia.
Qed.

Lemma ring_push_appends_unless_full_witness :
  ring_contents (0 : Z) (snd (push 3 ring_1_2)) =
  (if fst (push 3 ring_1_2) then ring_contents (0 : Z) ring_1_2 ++ [3]
   else ring_contents (0 : Z) ring_1_2).
Proof.
  refine (proj1 (proj2 (proj2
            (ring_push_appends_unless_full (0 : Z) 3 ring_1_2
               (fst (push 3 ring_1_2)) (snd (push 3 ring_1_2)) ring_1_2_ok _)))).
  vm_compute. reflexivity.
Defined.

Lemma ring_pop_takes_oldest_witness :
  Z.of_nat (length (ring_contents (0 : Z) ring_1_2)) = ring_size ring_1_2.
Proof.
  exact (proj1 (proj2 (ring_pop_takes_oldest (0 : Z) ring_1_2 ring_1_2_ok))).
Defined.

Lemma ring_fifo_round_trip_witness :
  fst (drain (0 : Z) 6 (snd (push_all [1; 2; 3; 4; 5] (RingBuffer_new (0 : Z) 3)))) =
  take (Z.to_nat (capacity (RingBuffer_new (0 : Z) 3) - 1)) [1; 2; 3; 4; 5].
Proof.
  refine (proj1 (ring_fifo_round_trip (0 : Z) 3 [1; 2; 3; 4; 5] _)). lia.
Defined.

Lemma small_engine_ok : ring_ok (event_buffer_ small_engine).
Proof. apply (RingBuffer_new_ok EngineEvent_default 8). lia. Qed.

Lemma engine_one_ask_reachable :
  engine_reachable (T:=Z) small_config engine_one_ask.
Proof.
  apply (engine_step small_config small_engine (CallSubmit sell_1)).
  - apply (engine_new (T:=Z) small_config 0).
  - apply order_make_wf; unfold u64_range; lia.
Qed.

Lemma engine_one_ask_ok : ring_ok (event_buffer_ engine_one_ask).
Proof.
  apply (engine_reachable_inv small_config engine_one_ask);
    [simpl; lia|apply engine_one_ask_reachable].
Qed.

Lemma submit_emits_events_in_order_witness :
  fst (submit buy_3 engine_one_ask) = true /\
  book_ (snd (submit buy_3 engine_one_ask)) = add_book buy_3 book_one_ask /\
  ring_contents EngineEvent_default (event_buffer_ (snd (submit buy_3 engine_one_ask))) =
    ring_contents EngineEvent_default (event_buffer_ engine_one_ask)
    ++ take (Z.to_nat (ring_room (event_buffer_ engine_one_ask)))
         [EvAccept (mkAccept 3 0); EvTrade (mkTrade 3 1 100 5 0);
          EvTop (mkTop (-1) 0 (-1) 0 0)].
Proof.
  destruct (submit_emits_events_in_order (T:=Z) buy_3 engine_one_ask true
              (add_book buy_3 book_one_ask) [mkTrade 3 1 100 5 0]
              (Some (mkTop (-1) 0 (-1) 0 0)) 0
              (fst (submit buy_3 engine_one_ask)) (snd (submit buy_3 engine_one_ask))
              engine_one_ask_ok) as (H1 & H2 & H3 & _).
  - vm_compute. reflexivity.
  - vm_compute. reflexivity.
  - split; [exact H1|split; [exact H2|exact H3]].
Defined.

Lemma cancel_replace_emit_events_in_order_witness :
  fst (engine_cancel 1 engine_one_ask) = true /\
  book_ (snd (engine_cancel 1 engine_one_ask)) = cancel_in book_one_ask 1 /\
  ring_contents EngineEvent_default
    (event_buffer_ (snd (engine_cancel 1 engine_one_ask))) =
    ring_contents EngineEvent_default (event_buffer_ engine_one_ask)
    ++ take (Z.to_nat (ring_room (event_buffer_ engine_one_ask)))
         [EvCancel (default (mkCancel 0 0 0) (Some (mkCancel 1 5 0)));
          EvTop (snd (fst (best_bid_ask (cancel_in book_one_ask 1) (0 : Z))))].
Proof.
  refine (proj1 (cancel_replace_emit_events_in_order (T:=Z) engine_one_ask
                   engine_one_ask_ok)
            1 (cancel_in book_one_ask 1) (Some (mkCancel 1 5 0)) 0 _).
  vm_compute. reflexivity.
Defined.

Lemma poll_events_delivers_in_order_witness :
  snd (fst (poll_events engine_one_ask)) =
    ring_contents EngineEvent_default (event_buffer_ engine_one_ask) /\
  poll_events (snd (poll_events engine_one_ask)) =
    (false, [], snd (poll_events engine_one_ask)).
Proof.
  destruct (poll_events_delivers_in_order (T:=Z) engine_one_ask
              (fst (fst (poll_events engine_one_ask)))
              (snd (fst (poll_events engine_one_ask)))
              (snd (poll_events engine_one_ask))
              engine_one_ask_ok) as (H1 & _ & _ & H2 & _).
  - vm_compute. reflexivity.
  - exact (conj H1 H2).
Defined.

Lemma engine_keeps_book_and_channel_sound_witness :
  reachable (T:=Z) (book_ engine_one_ask) /\
  config_ engine_one_ask = small_config /\
  capacity (event_buffer_ engine_one_ask) =
    next_power_of_two (ring_size_cfg small_config) /\
  0 <= ring_size (event_buffer_ engine_one_ask)
    <= capacity (event_buffer_ engine_one_ask) - 1 /\
  Z.of_nat (length (ring_contents EngineEvent_default (event_buffer_ engine_one_ask))) =
    ring_size (event_buffer_ engine_one_ask).
Proof.
  refine (engine_keeps_book_and_channel_sound (T:=Z) small_config engine_one_ask
            _ engine_one_ask_reachable).
  simpl. lia.
Defined.

Lemma replay_until_stops_at_first_later_message_witness :
  replay_until 3 ([msg_add_1; msg_add_2] ++ [msg_late; msg_early]) None small_engine =
  replay_all [msg_add_1; msg_add_2] None small_engine.
Proof.
  refine (replay_until_stops_at_first_later_message (T:=Z) 3
            [msg_add_1; msg_add_2] [msg_late; msg_early] None small_engine _ _).
  - apply Forall_cons. split; [simpl; lia|].
    apply Forall_cons. split; [simpl; lia|]. apply Forall_nil_2.
  - simpl. lia.
Defined.

Lemma example_messages_wf : Forall message_wf [msg_add_1; msg_add_2].
Proof.
  apply Forall_cons. split; [repeat split; simpl; lia|].
  apply Forall_cons. split; [repeat split; simpl; lia|]. apply Forall_nil_2.
Qed.

Lemma small_engine_reachable : engine_reachable (T:=Z) small_config small_engine.
Proof. apply (engine_new (T:=Z) small_config 0). Qed.

Lemma replay_all_runs_engine_calls_witness :
  reachable (T:=Z)
    (book_ (snd (replay_all [msg_add_1; msg_add_2] None small_engine))) /\
  0 <= fst (fst (replay_all [msg_add_1; msg_add_2] None small_engine)) <= 2.
Proof.
  destruct (replay_all_runs_engine_calls (T:=Z) small_config
              [msg_add_1; msg_add_2] None small_engine)
    as (_ & H1 & H2 & _).
  - simpl. lia.
  - apply small_engine_reachable.
  - apply example_messages_wf.
  - exact (conj H1 H2).
Defined.

Lemma replay_all_keeps_last_poll_only_witness :
  snd (fst (replay_all ([msg_add_1] ++ [msg_add_2]) (Some []) small_engine)) =
  Some (delivered
          (snd (replay_message msg_add_2
                  (snd (replay_all [msg_add_1] (Some []) small_engine))))).
Proof.
  refine (proj1 (replay_all_keeps_last_poll_only (T:=Z) small_config
                   [msg_add_1] msg_add_2 [] small_engine _ _ _)).
  - simpl. lia.
  - apply small_engine_reachable.
  - apply example_messages_wf.
Defined.

Lemma two_symbols_reachable : multi_reachable (T:=Z) small_config two_symbols.
Proof.
  apply multi_step.
  - apply multi_step; [|done].
    apply multi_step; [|done]. apply multi_new.
  - apply order_make_wf; unfold u64_range; lia.
Qed.

Lemma multi_symbol_books_stay_reachable_witness :
  reachable (T:=Z) book_one_ask /\ "ABC" ∈ Multi.get_symbols two_symbols.
Proof.
  destruct (multi_symbol_books_stay_reachable (T:=Z) small_config two_symbols
              "ABC" engine_one_ask) as (H1 & _ & _ & H2).
  - simpl. lia.
  - apply two_symbols_reachable.
  - vm_compute. reflexivity.
  - exact (conj H1 H2).
Defined.

Lemma pool_hands_out_each_object_once_witness :
  fst (acquire_many (Z.to_nat 3) (Pool_new 3)) =
    map Some (reverse (seq 0 (Z.to_nat 3))) /\
  acquire (snd (acquire_many (Z.to_nat 3) (Pool_new 3))) =
    (None, snd (acquire_many (Z.to_nat 3) (Pool_new 3))).
Proof.
  destruct (pool_hands_out_each_object_once 3) as (_ & _ & H1 & _ & _ & H2 & _).
  - lia.
  - exact (conj H1 H2).
Defined.

Lemma level_total_tracks_queue_witness :
  level_exact (pop_front level_two_asks) /\
  level_exact (update_front_qty 2 level_two_asks).
Proof.
  destruct (level_total_tracks_queue level_two_asks) as (_ & H1 & H2 & _).
  - vm_compute. reflexivity.
  - exact (conj H1 (H2 2)).
Defined.


